(** * mpc::small_vector<T, N>: a shallow embedding of src/small_vector.h

    The container keeps [N] slots of raw storage inside the object and
    moves to a block obtained from [::operator new] when it has to
    grow.  The embedding keeps what the C++ code manipulates: objects
    living at addresses, a heap of blocks, pointers into either, slots
    that are raw storage or hold a live element, and the three ways a
    call can end (normal return, a propagating exception, undefined
    behaviour).

    What the model fixes:
    - [size_type] is a 64-bit unsigned integer; the products and the
      increment the code computes on it wrap around;
    - an element is a value of a type [T]; a constructor of [T] either
      throws or builds an element equal to its argument, a destructor
      never throws;
    - [::operator new] always finds memory;
    - reading or destroying a slot that holds no element, leaving the
      bounds of a region, using a released block and releasing anything
      but a live heap block are undefined behaviour.

    Layout of the file: the model of the class, member function by
    member function; the vocabulary of the specifications; the proofs;
    then the statements about concrete programs over
    [small_vector<int, 2>]. *)

From stdpp Require Import base numbers option list gmap.

Local Open Scope N_scope.

(** ** Machine integers *)

(** [typedef size_t size_type;] on a 64-bit target. *)
Abbreviation size_type := BinNums.N.

Definition size_type_bits : size_type := 64.

(** Unsigned arithmetic on [size_type] is modulo [2 ^ 64]. *)
Definition wrap (x : size_type) : size_type := x mod 2 ^ size_type_bits.

(** ** Addresses *)

(** The address of a [small_vector] object. *)
Abbreviation cid := nat.
(** The identity of a block returned by [::operator new]. *)
Abbreviation bid := nat.

(** A [pointer] holds the address of the first slot of a region: the
    [m_buffer] array of the object at [c], or a heap block. *)
Inductive pointer : Type :=
| buffer_of (c : cid)
| heap_ptr (b : bid).

Global Instance pointer_eq_dec : EqDecision pointer.
Proof. solve_decision. Defined.

(** What the program did to the free store and to element lifetimes. *)
Inductive event : Type :=
| ev_new (b : bid) (bytes : size_type)
| ev_delete (b : bid)
| ev_construct (p : pointer) (i : size_type)
| ev_destroy (p : pointer) (i : size_type).

Global Instance event_eq_dec : EqDecision event.
Proof. solve_decision. Defined.

Section small_vector.

(** Template parameters: the element type and the inline slot count. *)
Context {T : Type}.
Variable N : size_type.

(** [sizeof(value_type)], never zero. *)
Variable sizeof : positive.

(** The element type's constructors may throw.  A constructor that
    returns builds an element equal to its argument.
    - [copy_throws v]: [value_type(const value_type&)] throws on [v];
    - [move_throws v]: [value_type(value_type&&)] throws on [v];
    - [xfer_throws v]: the constructor chosen by
      [std::move_if_noexcept] throws on [v] (constantly [false] when the
      move constructor is [noexcept], the copy constructor's behaviour
      otherwise). *)
Variable copy_throws : T -> bool.
Variable move_throws : T -> bool.
Variable xfer_throws : T -> bool.

(** The result of evaluating a constructor call: the element built, or
    [None] when the constructor throws. *)
Definition copy_construct (v : T) : option T :=
  if copy_throws v then None else Some v.
Definition move_construct (v : T) : option T :=
  if move_throws v then None else Some v.
Definition move_if_noexcept_construct (v : T) : option T :=
  if xfer_throws v then None else Some v.

(** ** Data model *)

(** One [std::aligned_storage_t<sizeof(T), alignof(T)>] cell: raw
    storage ([None]) or a live element. *)
Local Abbreviation storage := (option T) (only parsing).

(** The data members of the class, in declaration order. *)
Record small_vector : Type := mk_small_vector {
  m_size : size_type;
  m_capacity : size_type;
  m_data : pointer;
  m_buffer : list storage
}.

(** The program state: the [small_vector] objects alive, the heap
    (a released block reads [None]) and the log of events. *)
Record memory : Type := mk_memory {
  objects : gmap cid small_vector;
  heap : list (option (list storage));
  trace : list event
}.

Definition empty_memory : memory := mk_memory ∅ [] [].

Definition log (e : event) (m : memory) : memory :=
  mk_memory (objects m) (heap m) (trace m ++ [e]).

(** ** Control: a state monad with exceptions and undefined behaviour *)

Inductive outcome (A : Type) : Type :=
| Ok (a : A) (m : memory)
| Throw (m : memory)
| UB.
Global Arguments Ok {A} a m.
Global Arguments Throw {A} m.
Global Arguments UB {A}.

Definition M (A : Type) : Type := memory -> outcome A.

Definition ret {A} (a : A) : M A := fun m => Ok a m.

Definition bind {A B} (f : M A) (k : A -> M B) : M B :=
  fun m =>
    match f m with
    | Ok a m' => k a m'
    | Throw m' => Throw m'
    | UB => UB
    end.

(** [throw;] *)
Definition throw {A} : M A := fun m => Throw m.

(** [try { body } catch (...) { }] as a value: [None] when [body] threw. *)
Definition try_ {A} (body : M A) : M (option A) :=
  fun m =>
    match body m with
    | Ok a m' => Ok (Some a) m'
    | Throw m' => Ok None m'
    | UB => UB
    end.

Notation "x <~ f ;; k" := (bind f (fun x => k))
  (at level 100, f at next level, k at level 200, right associativity).
Notation "f ;;; k" := (bind f (fun _ => k))
  (at level 100, k at level 200, right associativity).

(** ** Memory primitives *)

(** The slots of the region [p] points to, while that region is alive. *)
Definition region (m : memory) (p : pointer) : option (list storage) :=
  match p with
  | buffer_of c => m_buffer <$> objects m !! c
  | heap_ptr b => mjoin (heap m !! b)
  end.

Definition with_buffer (buf : list storage) (sv : small_vector) : small_vector :=
  mk_small_vector (m_size sv) (m_capacity sv) (m_data sv) buf.

(** Replaces the slots of a region that is alive. *)
Definition set_region (p : pointer) (r : list storage) (m : memory) : memory :=
  match p with
  | buffer_of c => mk_memory (alter (with_buffer r) c (objects m)) (heap m) (trace m)
  | heap_ptr b => mk_memory (objects m) (alter (fmap (fun _ => r)) b (heap m)) (trace m)
  end.

(** A new block of [n] raw slots at the end of the heap. *)
Definition alloc (n : nat) (m : memory) : memory :=
  mk_memory (objects m) (heap m ++ [Some (replicate n None)]) (trace m).

Definition release (b : bid) (m : memory) : memory :=
  mk_memory (objects m) (<[b := None]> (heap m)) (trace m).

Definition put (this : cid) (sv : small_vector) (m : memory) : memory :=
  mk_memory (<[this := sv]> (objects m)) (heap m) (trace m).

Definition remove (this : cid) (m : memory) : memory :=
  mk_memory (delete this (objects m)) (heap m) (trace m).

(** [::operator new(bytes)]: a fresh block of raw storage, large enough
    for [bytes / sizeof(value_type)] elements.  [std::bad_alloc] is not
    modelled: the free store never runs out. *)
Definition operator_new (bytes : size_type) : M pointer :=
  fun m =>
    let b := length (heap m) in
    Ok (heap_ptr b) (log (ev_new b bytes) (alloc (N.to_nat (bytes / Npos sizeof)) m)).

(** [::operator delete(p)]: [p] has to be a block of the free store that
    was not released before. *)
Definition operator_delete (p : pointer) : M unit :=
  fun m =>
    match p with
    | heap_ptr b =>
        match region m p with
        | Some _ => Ok tt (log (ev_delete b) (release b m))
        | None => UB
        end
    | buffer_of _ => UB
    end.

(** [new (p + i) value_type(args...)], where [mk] is what the call of
    the constructor evaluates to.  Nothing is written when it throws. *)
Definition construct_at (p : pointer) (i : size_type) (mk : option T) : M unit :=
  fun m =>
    match region m p with
    | Some r =>
        if (N.to_nat i <? length r)%nat then
          match mk with
          | Some v => Ok tt (log (ev_construct p i) (set_region p (<[N.to_nat i := Some v]> r) m))
          | None => Throw m
          end
        else UB
    | None => UB
    end.

(** [(p + i)->~value_type()]: the slot has to hold a live element. *)
Definition destroy_at (p : pointer) (i : size_type) : M unit :=
  fun m =>
    match region m p with
    | Some r =>
        match r !! N.to_nat i with
        | Some (Some _) => Ok tt (log (ev_destroy p i) (set_region p (<[N.to_nat i := None]> r) m))
        | _ => UB
        end
    | None => UB
    end.

(** Reading the element [p[i]]. *)
Definition read_at (p : pointer) (i : size_type) : M T :=
  fun m =>
    match region m p with
    | Some r =>
        match r !! N.to_nat i with
        | Some (Some v) => Ok v m
        | _ => UB
        end
    | None => UB
    end.

(** Assigning to the element [p[i]]. *)
Definition write_at (p : pointer) (i : size_type) (v : T) : M unit :=
  fun m =>
    match region m p with
    | Some r =>
        match r !! N.to_nat i with
        | Some (Some _) => Ok tt (set_region p (<[N.to_nat i := Some v]> r) m)
        | _ => UB
        end
    | None => UB
    end.

(** Access to the data members of the object at [this]. *)
Definition load (this : cid) : M small_vector :=
  fun m => match objects m !! this with Some sv => Ok sv m | None => UB end.

Definition store (this : cid) (sv : small_vector) : M unit :=
  fun m => Ok tt (put this sv m).

Definition set_m_size (this : cid) (n : size_type) : M unit :=
  sv <~ load this ;; store this (mk_small_vector n (m_capacity sv) (m_data sv) (m_buffer sv)).

Definition set_m_capacity (this : cid) (n : size_type) : M unit :=
  sv <~ load this ;; store this (mk_small_vector (m_size sv) n (m_data sv) (m_buffer sv)).

Definition set_m_data (this : cid) (p : pointer) : M unit :=
  sv <~ load this ;; store this (mk_small_vector (m_size sv) (m_capacity sv) p (m_buffer sv)).

(** The member initialiser list of a constructor: the three scalar
    members get their values, [m_buffer] starts as [N] raw slots. *)
Definition init_members (this : cid) (sz cap : size_type) (p : pointer) : M unit :=
  store this (mk_small_vector sz cap p (replicate (N.to_nat N) None)).

(** The end of the lifetime of the object at [this]. *)
Definition end_lifetime (this : cid) : M unit :=
  fun m => Ok tt (remove this m).

(** [std::swap(m_buffer, other.m_buffer)]: the two arrays of storage
    cells trade contents. *)
Definition swap_buffers (this other : cid) : M unit :=
  a <~ load this ;;
  b <~ load other ;;
  store this (with_buffer (m_buffer b) a) ;;;
  b' <~ load other ;;
  store other (with_buffer (m_buffer a) b').

(** [for (; i < bound; ++i) body(i)] for a body that leaves [bound]
    alone; [n] is the trip count [bound - i] on entry. *)
Fixpoint for_up (n : nat) (i : size_type) (body : size_type -> M unit) : M unit :=
  match n with
  | O => ret tt
  | S n' => body i ;;; for_up n' (i + 1) body
  end.

(** [try { for (; i < bound; ++i) body(i); } catch (...)]: the loop of a
    try block, returning the value [i] has when control leaves the block
    and whether it left through the handler. *)
Fixpoint try_for_up (n : nat) (i : size_type) (body : size_type -> M unit)
  : M (size_type * bool) :=
  match n with
  | O => ret (i, false)
  | S n' =>
      r <~ try_ (body i) ;;
      match r with
      | Some _ => try_for_up n' (i + 1) body
      | None => ret (i, true)
      end
  end.

(** [for (; i > 0; --i) body(i)], returning the final [i]; [n] is the
    trip count [i] on entry. *)
Fixpoint for_down (n : nat) (i : size_type) (body : size_type -> M unit) : M size_type :=
  match n with
  | O => ret i
  | S n' => if 0 <? i then body i ;;; for_down n' (i - 1) body else ret i
  end.

(** [while (cond) body] for a loop that runs [n] times. *)
Fixpoint repeat_n (n : nat) (body : M unit) : M unit :=
  match n with
  | O => ret tt
  | S n' => body ;;; repeat_n n' body
  end.

(** [std::uninitialized_copy(first, last, p)]: copy-constructs the
    elements of the range at [p + i], [p + i + 1], ...; when a copy
    throws, the elements built so far are destroyed and the exception
    goes on. *)
Fixpoint uninitialized_copy (src : list T) (p : pointer) (i : size_type) : M unit :=
  match src with
  | [] => ret tt
  | v :: rest =>
      r <~ try_ (construct_at p i (copy_construct v)) ;;
      match r with
      | Some _ => uninitialized_copy rest p (i + 1)
      | None => for_up (N.to_nat i) 0 (fun k => destroy_at p k) ;;; throw
      end
  end.

(** ** The member functions of [small_vector] *)

(** l.225: [return reinterpret_cast<pointer>(m_buffer);] *)
Definition buffer (this : cid) : pointer := buffer_of this.

(** l.221: [return m_size <= N;] *)
Definition uses_buffer (this : cid) : M bool :=
  sv <~ load this ;; ret (m_size sv <=? N).

(** l.184-194 *)
Definition size (this : cid) : M size_type := sv <~ load this ;; ret (m_size sv).
Definition capacity (this : cid) : M size_type := sv <~ load this ;; ret (m_capacity sv).
Definition data (this : cid) : M pointer := sv <~ load this ;; ret (m_data sv).

(** l.76-82, [operator[]]: reading [v[pos]] and assigning to it.  There
    is no bounds check. *)
Definition subscript (this : cid) (pos : size_type) : M T :=
  d <~ data this ;; read_at d pos.

Definition subscript_assign (this : cid) (pos : size_type) (v : T) : M unit :=
  d <~ data this ;; write_at d pos v.

(** l.108-113 *)
Definition clear (this : cid) : M unit :=
  sz <~ size this ;;
  for_up (N.to_nat sz) 0 (fun i => d <~ data this ;; destroy_at d i) ;;;
  set_m_size this 0.

(** l.157-181.  The handler's loop body ends in [throw;], so it runs at
    most once; when [i] is [0] the handler falls through to the code
    after the try block. *)
Definition reserve (this : cid) (capacity_ : size_type) : M unit :=
  cap <~ capacity this ;;
  if capacity_ <=? cap then ret tt
  else
    tmp <~ operator_new (wrap (capacity_ * Npos sizeof)) ;;
    sz <~ size this ;;
    r <~ try_for_up (N.to_nat sz) 0
           (fun i =>
              d <~ data this ;;
              v <~ read_at d i ;;
              construct_at tmp i (move_if_noexcept_construct v)) ;;
    i <~ (if r.2
          then for_down (N.to_nat r.1) r.1
                 (fun i => destroy_at tmp (i - 1) ;;; operator_delete tmp ;;; throw)
          else ret r.1) ;;
    clear this ;;;
    ub <~ uses_buffer this ;;
    (if negb ub then d <~ data this ;; operator_delete d else ret tt) ;;;
    set_m_data this tmp ;;;
    set_m_capacity this capacity_ ;;;
    set_m_size this i.

(** l.93-100.  [mk] is what [value_type(std::forward<Args>(args)...)]
    evaluates to; the result is the reference [m_data[m_size++]]. *)
Definition emplace_back (this : cid) (mk : option T) : M (pointer * size_type) :=
  sz <~ size this ;;
  cap <~ capacity this ;;
  (if cap <=? sz
   then reserve this (if cap =? 0 then 1 else wrap (2 * cap))
   else ret tt) ;;;
  d <~ data this ;;
  sz <~ size this ;;
  construct_at d sz mk ;;;
  d <~ data this ;;
  sz <~ size this ;;
  set_m_size this (wrap (sz + 1)) ;;;
  ret (d, sz).

(** l.85-91 *)
Definition push_back (this : cid) (item : T) : M unit :=
  emplace_back this (copy_construct item) ;;; ret tt.

Definition push_back_move (this : cid) (item : T) : M unit :=
  emplace_back this (move_construct item) ;;; ret tt.

(** l.138-154 *)
Definition resize (this : cid) (size_ : size_type) (value : T) : M unit :=
  sz <~ size this ;;
  if size_ =? sz then ret tt
  else if sz <? size_ then
    reserve this size_ ;;;
    i <~ size this ;;
    for_up (N.to_nat (size_ - i)) i (fun _ => push_back this value)
  else
    repeat_n (N.to_nat (sz - size_))
      (sz <~ size this ;;
       set_m_size this (sz - 1) ;;;
       d <~ data this ;;
       destroy_at d (sz - 1)).

(** l.213-218, followed by the end of the object's lifetime. *)
Definition dtor (this : cid) : M unit :=
  clear this ;;;
  ub <~ uses_buffer this ;;
  (if negb ub then d <~ data this ;; operator_delete d else ret tt) ;;;
  end_lifetime this.

(** l.32 *)
Definition ctor_default (this : cid) : M unit :=
  init_members this 0 N (buffer this).

(** l.34-41.  The constructor delegates to the default constructor, so
    the object exists once that one returns: an exception leaving the
    body runs the destructor. *)
Definition ctor_copy (this other : cid) : M unit :=
  ctor_default this ;;;
  r <~ try_
         (n <~ size other ;;
          cap <~ capacity this ;;
          (if cap <? n then reserve this n else ret tt) ;;;
          n <~ size other ;;
          for_up (N.to_nat n) 0 (fun i => v <~ subscript other i ;; push_back this v)) ;;
  match r with
  | Some _ => ret tt
  | None => dtor this ;;; throw
  end.

(** l.43-54 *)
Definition ctor_move (this other : cid) : M unit :=
  n <~ size other ;;
  cap <~ capacity other ;;
  init_members this n cap (buffer this) ;;;
  ub <~ uses_buffer other ;;
  (if ub then swap_buffers this other
   else d <~ data other ;; set_m_data this d) ;;;
  set_m_data other (buffer other) ;;;
  set_m_size other 0 ;;;
  set_m_capacity other N.

(** l.56-73.  An exception leaving this constructor means the object
    never existed. *)
Definition ctor_init_list (this : cid) (init : list T) : M unit :=
  let n := N.of_nat (length init) in
  p <~ (if N <? n then operator_new (wrap (n * Npos sizeof)) else ret (buffer this)) ;;
  init_members this n n p ;;;
  r <~ try_ (d <~ data this ;; uninitialized_copy init d 0) ;;
  match r with
  | Some _ => ret tt
  | None =>
      d <~ data this ;;
      (if bool_decide (d <> buffer this) then operator_delete d else ret tt) ;;;
      end_lifetime this ;;;
      throw
  end.

(** l.115-136.  The two mode tests read members only, so the model asks
    both once, ahead of the chain of conditions. *)
Definition swap (this other : cid) : M unit :=
  ua <~ uses_buffer this ;;
  ub <~ uses_buffer other ;;
  (if ua && ub then
     swap_buffers this other
   else if ua then
     swap_buffers this other ;;;
     d <~ data other ;;
     set_m_data this d ;;;
     set_m_data other (buffer other)
   else if ub then
     swap_buffers this other ;;;
     d <~ data this ;;
     set_m_data other d ;;;
     set_m_data this (buffer this)
   else
     d <~ data this ;;
     d' <~ data other ;;
     set_m_data this d' ;;;
     set_m_data other d) ;;;
  cap <~ capacity this ;;
  cap' <~ capacity other ;;
  set_m_capacity this cap' ;;;
  set_m_capacity other cap ;;;
  n <~ size this ;;
  n' <~ size other ;;
  set_m_size this n' ;;;
  set_m_size other n.

(** l.102-106, [operator=]: [swap(other); return *this;].  The parameter
    [other] is a [small_vector] taken by value. *)
Definition operator_assign (this other : cid) : M unit := swap this other.

(** [x = y;]: the parameter object is copy-constructed from [y] at the
    address [arg], the body runs, and the parameter is destroyed at the
    end of the full expression. *)
Definition assign_copy (this y arg : cid) : M unit :=
  ctor_copy arg y ;;;
  operator_assign this arg ;;;
  dtor arg.

(** [x = std::move(y);]: the parameter object is move-constructed. *)
Definition assign_move (this y arg : cid) : M unit :=
  ctor_move arg y ;;;
  operator_assign this arg ;;;
  dtor arg.

(** l.237-240, the non-member [swap(a, b)]: [a.swap(b);] *)
Definition swap_nonmember (a b : cid) : M unit := swap a b.

(** ** Specification vocabulary *)

(** The scalar members of the object at [c]. *)
Definition fields (m : memory) (c : cid) : option (size_type * size_type * pointer) :=
  (fun sv => (m_size sv, m_capacity sv, m_data sv)) <$> objects m !! c.

(** The container at [this] holds the elements [vs], in order, in live
    slots at the front of the region [p], and has capacity [cap]. *)
Definition holds (m : memory) (this : cid) (vs : list T) (cap : size_type) (p : pointer) : Prop :=
  fields m this = Some (N.of_nat (length vs), cap, p) /\
  cap < 2 ^ size_type_bits /\
  (length vs <= N.to_nat cap)%nat /\
  exists r, region m p = Some r /\
            (N.to_nat cap <= length r)%nat /\
            take (length vs) r = Some <$> vs.

(** The memory after assignments to the scalar members of [this]. *)
Definition set_scalars (this : cid) (sz cap : size_type) (p : pointer) (m : memory) : memory :=
  mk_memory (alter (fun sv => mk_small_vector sz cap p (m_buffer sv)) this (objects m))
    (heap m) (trace m).

(** Between [m] and [m'] nothing changed outside the object at [this]
    and the region [p]: the scalar members of the other objects and the
    contents of the other regions alive in [m] are the same, and no
    block identity is reused. *)
Definition frame (this : cid) (p : pointer) (m m' : memory) : Prop :=
  (forall c, c <> this -> fields m' c = fields m c) /\
  (forall q r, q <> p -> region m q = Some r -> region m' q = Some r) /\
  (length (heap m) <= length (heap m'))%nat.

(** The events of building [n] elements in a row at [p + i], ... *)
Definition construct_events (p : pointer) (i : size_type) (n : nat) : list event :=
  (fun k => ev_construct p (i + N.of_nat k)) <$> seq 0 n.

(** Weakest precondition: [Q] for a normal return, [E] for an
    exception, [U] for undefined behaviour. *)
Definition wp {A} (f : M A) (Q : A -> memory -> Prop) (E : memory -> Prop) (U : Prop)
  (m : memory) : Prop :=
  match f m with
  | Ok a m' => Q a m'
  | Throw m' => E m'
  | UB => U
  end.

(** The calls that mutate one container. *)
Inductive call : Type :=
| call_emplace_back (mk : option T)
| call_push_back (item : T)
| call_push_back_move (item : T)
| call_clear
| call_reserve (capacity_ : size_type)
| call_resize (size_ : size_type) (value : T)
| call_assign (pos : size_type) (v : T).

Definition exec (this : cid) (c : call) : M unit :=
  match c with
  | call_emplace_back mk => emplace_back this mk ;;; ret tt
  | call_push_back item => push_back this item
  | call_push_back_move item => push_back_move this item
  | call_clear => clear this
  | call_reserve n => reserve this n
  | call_resize n v => resize this n v
  | call_assign pos v => subscript_assign this pos v
  end.

(** The states a sequence of calls on [this] goes through; a call that
    throws leaves the state it threw in, and the program goes on. *)
Inductive runs (this : cid) : memory -> list call -> memory -> Prop :=
| runs_nil m : runs this m [] m
| runs_return c cs m m1 m2 :
    exec this c m = Ok tt m1 -> runs this m1 cs m2 -> runs this m (c :: cs) m2
| runs_throw c cs m m1 m2 :
    exec this c m = Throw m1 -> runs this m1 cs m2 -> runs this m (c :: cs) m2.

(** The operations of a program that builds, fills and destroys
    containers, without [swap], move construction or assignment. *)
Inductive op : Type :=
| op_ctor_default (this : cid)
| op_ctor_init_list (this : cid) (init : list T)
| op_ctor_copy (this other : cid)
| op_dtor (this : cid)
| op_call (this : cid) (c : call).

Definition run_op (o : op) : M unit :=
  match o with
  | op_ctor_default this => ctor_default this
  | op_ctor_init_list this init => ctor_init_list this init
  | op_ctor_copy this other => ctor_copy this other
  | op_dtor this => dtor this
  | op_call this c => exec this c
  end.

Inductive reachable : memory -> Prop :=
| reachable_start : reachable empty_memory
| reachable_return o m m' :
    reachable m -> run_op o m = Ok tt m' -> reachable m'
| reachable_throw o m m' :
    reachable m -> run_op o m = Throw m' -> reachable m'.

(** The block [p] was allocated after the state [m]. *)
Definition fresh (m : memory) (p : pointer) : Prop :=
  exists b, p = heap_ptr b /\ (length (heap m) <= b)%nat.

(** What a call on [this], started in [m0] with capacity [cap0] and
    region [p0], may have done by the time the state is [m]: changes are
    confined to the object, to [p0] and to blocks allocated since, and
    the object's region is still [p0], with the same capacity, or one of
    those blocks. *)
Definition footprint (this : cid) (cap0 : size_type) (p0 : pointer) (m0 m : memory) : Prop :=
  frame this p0 m0 m /\
  exists sz cap p,
    fields m this = Some (sz, cap, p) /\ ((p = p0 /\ cap = cap0) \/ fresh m0 p).

(** The invariant of C4, as the code keeps it: a container in its own
    inline buffer has a capacity of at most [N]. *)
Definition buffer_capacity_bounded (m : memory) : Prop :=
  forall c sz cap p, fields m c = Some (sz, cap, p) -> p = buffer c -> cap <= N.

(** The members of the first container after [a.swap(b)]: the size, the
    capacity and (unless both are taken for heap-backed) the inline
    buffer of the second; the pointer depends on the two size tests. *)
Definition swapped (this : cid) (x y : small_vector) : small_vector :=
  let ux := m_size x <=? N in
  let uy := m_size y <=? N in
  mk_small_vector (m_size y) (m_capacity y)
    (if ux && uy then m_data x
     else if ux then m_data y
     else if uy then buffer this
     else m_data y)
    (if ux || uy then m_buffer y else m_buffer x).

(** The size test of [uses_buffer] and the comparison of [m_data] with
    the buffer's address give the same answer. *)
Definition mode_agrees (this : cid) (sv : small_vector) : Prop :=
  (m_size sv <=? N) = bool_decide (m_data sv = buffer this).

(** The members of the target and of the source after the move
    constructor; which of the two buffers holds what depends on the size
    test on the source. *)
Definition moved_to (this : cid) (src : small_vector) : small_vector :=
  let ub := m_size src <=? N in
  mk_small_vector (m_size src) (m_capacity src)
    (if ub then buffer this else m_data src)
    (if ub then m_buffer src else replicate (N.to_nat N) None).

Definition moved_from (other : cid) (src : small_vector) : small_vector :=
  let ub := m_size src <=? N in
  mk_small_vector 0 N (buffer other)
    (if ub then replicate (N.to_nat N) None else m_buffer src).

(** The events of destroying [n] elements in a row at [p + i], ... *)
Definition destroy_events (p : pointer) (i : size_type) (n : nat) : list event :=
  (fun k => ev_destroy p (i + N.of_nat k)) <$> seq 0 n.

(** A caller that appends the elements of [items], one [push_back]
    each. *)
Fixpoint push_all (this : cid) (items : list T) : M unit :=
  match items with
  | [] => ret tt
  | v :: rest => push_back this v ;;; push_all this rest
  end.

(** Where the elements of a container of size [sz] are when the size
    test of [uses_buffer] tells the truth: in the container's own inline
    buffer up to [N] elements, in a heap block beyond. *)
Definition placed (this : cid) (sz : size_type) (p : pointer) : Prop :=
  if sz <=? N then p = buffer this else exists b, p = heap_ptr b.

(** Every operation of the class, the ones of [op] and the move
    constructor, [swap] and the two assignments. *)
Inductive api : Type :=
| api_op (o : op)
| api_ctor_move (this other : cid)
| api_swap (a b : cid)
| api_swap_nonmember (a b : cid)
| api_assign_copy (this y arg : cid)
| api_assign_move (this y arg : cid).

Definition run_api (o : api) : M unit :=
  match o with
  | api_op o => run_op o
  | api_ctor_move this other => ctor_move this other
  | api_swap a b => swap a b
  | api_swap_nonmember a b => swap_nonmember a b
  | api_assign_copy this y arg => assign_copy this y arg
  | api_assign_move this y arg => assign_move this y arg
  end.

Inductive reachable_api : memory -> Prop :=
| reachable_api_start : reachable_api empty_memory
| reachable_api_return o m m' :
    reachable_api m -> run_api o m = Ok tt m' -> reachable_api m'
| reachable_api_throw o m m' :
    reachable_api m -> run_api o m = Throw m' -> reachable_api m'.

(** The size is within the capacity, for a capacity that [emplace_back]
    can double without wrapping around. *)
Definition size_ok (sz cap : size_type) : Prop :=
  2 * cap < 2 ^ size_type_bits -> sz <= cap.

Definition size_within_capacity (m : memory) : Prop :=
  forall c sz cap p, fields m c = Some (sz, cap, p) -> size_ok sz cap.

(** Between [m] and [m'] the scalar members of the objects other than
    [this] are the same, and [this] has its size within its capacity. *)
Definition keeps_size_ok (this : cid) (m m' : memory) : Prop :=
  (forall c, c <> this -> fields m' c = fields m c) /\
  exists sz cap p, fields m' this = Some (sz, cap, p) /\ size_ok sz cap.

(** Between [m] and [m'] no heap block was released: the blocks alive in
    [m] are alive in [m'], and block identities are not reused. *)
Definition keeps_blocks (m m' : memory) : Prop :=
  (length (heap m) <= length (heap m'))%nat /\
  forall b, is_Some (region m (heap_ptr b)) -> is_Some (region m' (heap_ptr b)).

(** ** Proof tools *)

(** The rewrite rules of [obs] say what each state transformer does to
    [fields] and [region]. *)
Create Rewrite HintDb obs.

Ltac obs :=
  autorewrite with obs;
  repeat first
    [ rewrite decide_True by (done || congruence)
    | rewrite decide_False by (done || congruence) ].

Ltac obs_in H :=
  autorewrite with obs in H;
  repeat first
    [ rewrite decide_True in H by (done || congruence)
    | rewrite decide_False in H by (done || congruence) ].

Ltac known :=
  obs;
  repeat match goal with
  | H : fields ?m ?c = Some _ |- context [fields ?m ?c] => rewrite H
  | H : forall c, fields ?m c = _ |- context [fields ?m _] => rewrite H
  end;
  obs; simpl; try done.

(** ** Rules for the monad *)

Lemma wp_ret {A} (a : A) Q E U m : Q a m -> wp (ret a) Q E U m.
Proof. done. Qed.

Lemma wp_throw {A} (Q : A -> memory -> Prop) (E : memory -> Prop) U m :
  E m -> wp throw Q E U m.
Proof. done. Qed.

Lemma wp_bind {A B} (f : M A) (k : A -> M B) Q E U m :
  wp f (fun a m' => wp (k a) Q E U m') E U m -> wp (x <~ f ;; k x) Q E U m.
Proof. unfold wp, bind. by destruct (f m). Qed.

Lemma wp_try {A} (body : M A) Q E U m :
  wp body (fun a m' => Q (Some a) m') (fun m' => Q None m') U m ->
  wp (try_ body) Q E U m.
Proof. unfold wp, try_. by destruct (body m). Qed.

Lemma wp_mono {A} (f : M A) (Q Q' : A -> memory -> Prop) (E E' : memory -> Prop)
  (U U' : Prop) m :
  wp f Q E U m ->
  (forall a m', Q a m' -> Q' a m') -> (forall m', E m' -> E' m') -> (U -> U') ->
  wp f Q' E' U' m.
Proof. unfold wp. destruct (f m); eauto. Qed.

(** A call that can neither throw nor go wrong returns. *)
Lemma wp_returns {A} (f : M A) Q m :
  wp f Q (fun _ => False) False m -> exists a m', f m = Ok a m' /\ Q a m'.
Proof. unfold wp. destruct (f m); naive_solver. Qed.

Lemma wp_throws {A} (f : M A) E m :
  wp f (fun _ _ => False) E False m -> exists m', f m = Throw m' /\ E m'.
Proof. unfold wp. destruct (f m); naive_solver. Qed.

Lemma wp_for_up (Inv : nat -> memory -> Prop) n i body Q E U m :
  Inv O m ->
  (forall k m', (k < n)%nat -> Inv k m' ->
     wp (body (i + N.of_nat k)) (fun _ m'' => Inv (S k) m'') E U m') ->
  (forall m', Inv n m' -> Q tt m') ->
  wp (for_up n i body) Q E U m.
Proof.
  revert Inv i m. induction n as [|n IH]; intros Inv i m H0 Hstep Hend.
  - by apply wp_ret, Hend.
  - simpl. apply wp_bind.
    eapply wp_mono; [ | | by eauto | by eauto ].
    + specialize (Hstep O m ltac:(lia) H0). by rewrite N.add_0_r in Hstep.
    + intros ? m' H1. simpl in H1.
      apply (IH (fun k => Inv (S k))); [done | | done].
      intros k m'' Hk HI.
      specialize (Hstep (S k) m'' ltac:(lia) HI).
      by replace (i + 1 + N.of_nat k) with (i + N.of_nat (S k)) by lia.
Qed.

Lemma wp_try_for_up (Inv : nat -> memory -> Prop) n i body Q E U m :
  Inv O m ->
  (forall k m', (k < n)%nat -> Inv k m' ->
     wp (body (i + N.of_nat k)) (fun _ m'' => Inv (S k) m'')
        (fun m'' => Q (i + N.of_nat k, true) m'') U m') ->
  (forall m', Inv n m' -> Q (i + N.of_nat n, false) m') ->
  wp (try_for_up n i body) Q E U m.
Proof.
  revert Inv i m. induction n as [|n IH]; intros Inv i m H0 Hstep Hend.
  - apply wp_ret. specialize (Hend m H0). by rewrite N.add_0_r in Hend.
  - simpl. apply wp_bind, wp_try.
    specialize (Hstep O m ltac:(lia) H0) as Hb. rewrite N.add_0_r in Hb.
    eapply wp_mono; [exact Hb | | | done].
    + intros ? m' H1. simpl in H1.
      apply (IH (fun k => Inv (S k))); [done | | ].
      * intros k m'' Hk HI.
        specialize (Hstep (S k) m'' ltac:(lia) HI).
        by replace (i + 1 + N.of_nat k) with (i + N.of_nat (S k)) by lia.
      * intros m'' HI. specialize (Hend m'' HI).
        by replace (i + 1 + N.of_nat n) with (i + N.of_nat (S n)) by lia.
    + intros m' H1. by apply wp_ret.
Qed.

Lemma wp_repeat_n (Inv : nat -> memory -> Prop) n body Q E U m :
  Inv O m ->
  (forall k m', (k < n)%nat -> Inv k m' -> wp body (fun _ m'' => Inv (S k) m'') E U m') ->
  (forall m', Inv n m' -> Q tt m') ->
  wp (repeat_n n body) Q E U m.
Proof.
  revert Inv m. induction n as [|n IH]; intros Inv m H0 Hstep Hend.
  - by apply wp_ret, Hend.
  - simpl. apply wp_bind.
    eapply wp_mono; [exact (Hstep O m ltac:(lia) H0) | | by eauto | by eauto ].
    intros ? m' H1. simpl in H1.
    apply (IH (fun k => Inv (S k))); [done | | done].
    intros k m'' Hk HI. apply (Hstep (S k) m'' ltac:(lia) HI).
Qed.

(** ** What the state transformers leave alone *)

Lemma fields_log e m c : fields (log e m) c = fields m c.
Proof. done. Qed.

Lemma fields_alloc n m c : fields (alloc n m) c = fields m c.
Proof. done. Qed.

Lemma fields_release b m c : fields (release b m) c = fields m c.
Proof. done. Qed.

Lemma fields_set_region p r m c : fields (set_region p r m) c = fields m c.
Proof.
  destruct p as [c'|b]; [|done]. unfold fields. simpl.
  rewrite lookup_alter. case_decide; [subst|done].
  by destruct (objects m !! c).
Qed.

Lemma fields_put this sv m c :
  fields (put this sv m) c =
  if decide (c = this) then Some (m_size sv, m_capacity sv, m_data sv) else fields m c.
Proof.
  unfold fields. simpl. case_decide; [subst|].
  - by rewrite lookup_insert_eq.
  - by rewrite lookup_insert_ne.
Qed.

Lemma fields_remove this m c :
  fields (remove this m) c = if decide (c = this) then None else fields m c.
Proof.
  unfold fields. simpl. case_decide; [subst|].
  - by rewrite lookup_delete_eq.
  - by rewrite lookup_delete_ne.
Qed.

Lemma fields_set_scalars this sz cap p m c :
  fields (set_scalars this sz cap p m) c =
  if decide (c = this) then (fun _ => (sz, cap, p)) <$> fields m c else fields m c.
Proof.
  unfold fields. simpl. rewrite lookup_alter.
  case_decide; subst; case_decide; try done.
  by destruct (objects m !! _).
Qed.

Lemma region_log e m q : region (log e m) q = region m q.
Proof. by destruct q. Qed.

Lemma region_alloc n m q :
  region (alloc n m) q =
  if decide (q = heap_ptr (length (heap m))) then Some (replicate n None) else region m q.
Proof.
  case_decide as Hq; [subst; simpl|].
  - by rewrite lookup_app_r, Nat.sub_diag.
  - destruct q as [c|b]; [done|]. simpl.
    destruct (decide (b < length (heap m))%nat).
    + by rewrite lookup_app_l.
    + rewrite !lookup_ge_None_2; [done|lia|].
      rewrite length_app. simpl. assert (b <> length (heap m)) by congruence. lia.
Qed.

Lemma region_release b m q :
  region (release b m) q = if decide (q = heap_ptr b) then None else region m q.
Proof.
  case_decide as Hq; [subst; simpl|].
  - destruct (decide (b < length (heap m))%nat).
    + by rewrite list_lookup_insert_eq.
    + by rewrite lookup_ge_None_2; [|rewrite length_insert; lia].
  - destruct q as [c|b']; [done|]. simpl.
    rewrite list_lookup_insert_ne; [done|congruence].
Qed.

Lemma region_set_region p r m q :
  region (set_region p r m) q =
  if decide (q = p) then (fun _ => r) <$> region m p else region m q.
Proof.
  case_decide as Hq; [subst q|].
  - destruct p as [c|b]; simpl.
    + rewrite lookup_alter_eq. by destruct (objects m !! c).
    + rewrite list_lookup_alter_eq. by destruct (heap m !! b) as [[?|]|].
  - destruct p as [c|b], q as [c'|b']; simpl; try done.
    + rewrite lookup_alter_ne; [done|congruence].
    + rewrite list_lookup_alter_ne; [done|congruence].
Qed.

Lemma region_put this sv m q :
  region (put this sv m) q =
  if decide (q = buffer_of this) then Some (m_buffer sv) else region m q.
Proof.
  case_decide as Hq; [subst q; simpl|].
  - by rewrite lookup_insert_eq.
  - destruct q as [c|b]; [|done]. simpl.
    rewrite lookup_insert_ne; [done|congruence].
Qed.

Lemma region_remove this m q :
  region (remove this m) q = if decide (q = buffer_of this) then None else region m q.
Proof.
  case_decide as Hq; [subst q; simpl|].
  - by rewrite lookup_delete_eq.
  - destruct q as [c|b]; [|done]. simpl.
    rewrite lookup_delete_ne; [done|congruence].
Qed.

Lemma region_set_scalars this sz cap p m q :
  region (set_scalars this sz cap p m) q = region m q.
Proof.
  destruct q as [c|b]; simpl; [|done].
  rewrite lookup_alter. case_decide; [subst|done].
  by destruct (objects m !! c).
Qed.

(** A block that is alive lies below the allocation frontier. *)
Lemma region_heap_lt m b r : region m (heap_ptr b) = Some r -> (b < length (heap m))%nat.
Proof.
  simpl. intros H. apply lookup_lt_is_Some.
  destruct (heap m !! b); [eauto|done].
Qed.

Lemma put_set_scalars this sv sz cap p m :
  objects m !! this = Some sv ->
  put this (mk_small_vector sz cap p (m_buffer sv)) m = set_scalars this sz cap p m.
Proof.
  intros H. unfold put, set_scalars. f_equal.
  apply map_eq. intros c. rewrite lookup_alter. case_decide; [subst|].
  - by rewrite lookup_insert_eq, H.
  - by rewrite lookup_insert_ne.
Qed.

Lemma fields_Some m c sz cap p :
  fields m c = Some (sz, cap, p) ->
  exists sv, objects m !! c = Some sv /\ m_size sv = sz /\ m_capacity sv = cap /\ m_data sv = p.
Proof.
  unfold fields. destruct (objects m !! c) as [sv|]; [|done].
  simpl. intros [= <- <- <-]. eauto.
Qed.

(** ** Rules for the primitives *)

Section rules.
Context {A : Type} (Q : A -> memory -> Prop) (Qu : unit -> memory -> Prop).
Context (E : memory -> Prop) (U : Prop) (m : memory).

Lemma wp_operator_new bytes (Q' : pointer -> memory -> Prop) :
  Q' (heap_ptr (length (heap m)))
     (log (ev_new (length (heap m)) bytes) (alloc (N.to_nat (bytes / Npos sizeof)) m)) ->
  wp (operator_new bytes) Q' E U m.
Proof. done. Qed.

Lemma wp_construct_at p i v r :
  region m p = Some r -> (N.to_nat i < length r)%nat ->
  Qu tt (log (ev_construct p i) (set_region p (<[N.to_nat i := Some v]> r) m)) ->
  wp (construct_at p i (Some v)) Qu E U m.
Proof.
  unfold wp, construct_at. intros -> Hi.
  by rewrite (proj2 (Nat.ltb_lt _ _) Hi).
Qed.

Lemma wp_construct_at_throw p i r :
  region m p = Some r -> (N.to_nat i < length r)%nat ->
  E m ->
  wp (construct_at p i None) Qu E U m.
Proof.
  unfold wp, construct_at. intros -> Hi.
  by rewrite (proj2 (Nat.ltb_lt _ _) Hi).
Qed.

Lemma wp_destroy_at p i r v :
  region m p = Some r -> r !! N.to_nat i = Some (Some v) ->
  Qu tt (log (ev_destroy p i) (set_region p (<[N.to_nat i := None]> r) m)) ->
  wp (destroy_at p i) Qu E U m.
Proof. unfold wp, destroy_at. by intros -> ->. Qed.

Lemma wp_read_at p i r v (Q' : T -> memory -> Prop) :
  region m p = Some r -> r !! N.to_nat i = Some (Some v) ->
  Q' v m ->
  wp (read_at p i) Q' E U m.
Proof. unfold wp, read_at. by intros -> ->. Qed.

Lemma wp_load this sv (Q' : small_vector -> memory -> Prop) :
  objects m !! this = Some sv -> Q' sv m -> wp (load this) Q' E U m.
Proof. unfold wp, load. by intros ->. Qed.

Lemma wp_size this sz cap p (Q' : size_type -> memory -> Prop) :
  fields m this = Some (sz, cap, p) -> Q' sz m -> wp (size this) Q' E U m.
Proof.
  intros (sv & Hsv & <- & _)%fields_Some HQ.
  apply wp_bind. by eapply wp_load.
Qed.

Lemma wp_capacity this sz cap p (Q' : size_type -> memory -> Prop) :
  fields m this = Some (sz, cap, p) -> Q' cap m -> wp (capacity this) Q' E U m.
Proof.
  intros (sv & Hsv & _ & <- & _)%fields_Some HQ.
  apply wp_bind. by eapply wp_load.
Qed.

Lemma wp_data this sz cap p (Q' : pointer -> memory -> Prop) :
  fields m this = Some (sz, cap, p) -> Q' p m -> wp (data this) Q' E U m.
Proof.
  intros (sv & Hsv & _ & _ & <-)%fields_Some HQ.
  apply wp_bind. by eapply wp_load.
Qed.

Lemma wp_uses_buffer this sz cap p (Q' : bool -> memory -> Prop) :
  fields m this = Some (sz, cap, p) -> Q' (sz <=? N) m -> wp (uses_buffer this) Q' E U m.
Proof.
  intros (sv & Hsv & <- & _)%fields_Some HQ.
  apply wp_bind. by eapply wp_load.
Qed.

Lemma wp_set_m_size this n sz cap p :
  fields m this = Some (sz, cap, p) ->
  Qu tt (set_scalars this n cap p m) ->
  wp (set_m_size this n) Qu E U m.
Proof.
  intros (sv & Hsv & _ & <- & <-)%fields_Some HQ.
  apply wp_bind. eapply wp_load; [done|].
  unfold wp, store. by rewrite (put_set_scalars _ _ _ _ _ _ Hsv).
Qed.

Lemma wp_set_m_capacity this n sz cap p :
  fields m this = Some (sz, cap, p) ->
  Qu tt (set_scalars this sz n p m) ->
  wp (set_m_capacity this n) Qu E U m.
Proof.
  intros (sv & Hsv & <- & _ & <-)%fields_Some HQ.
  apply wp_bind. eapply wp_load; [done|].
  unfold wp, store. by rewrite (put_set_scalars _ _ _ _ _ _ Hsv).
Qed.

Lemma wp_set_m_data this q sz cap p :
  fields m this = Some (sz, cap, p) ->
  Qu tt (set_scalars this sz cap q m) ->
  wp (set_m_data this q) Qu E U m.
Proof.
  intros (sv & Hsv & <- & <- & _)%fields_Some HQ.
  apply wp_bind. eapply wp_load; [done|].
  unfold wp, store. by rewrite (put_set_scalars _ _ _ _ _ _ Hsv).
Qed.

End rules.

Hint Rewrite fields_log fields_alloc fields_release fields_set_region fields_put
  fields_remove fields_set_scalars region_log region_alloc region_release
  region_set_region region_put region_remove region_set_scalars : obs.

(** ** [clear] *)

Lemma wp_clear this vs cap p Q E U m :
  holds m this vs cap p ->
  (forall m',
     holds m' this [] cap p ->
     (forall c, c <> this -> fields m' c = fields m c) ->
     (forall q, q <> p -> region m' q = region m q) ->
     length (heap m') = length (heap m) ->
     Q tt m') ->
  wp (clear this) Q E U m.
Proof.
  intros (Hf & Hcap & Hlen & r & Hr & Hrl & Htake) HQ.
  unfold clear. apply wp_bind. eapply wp_size; [done|].
  rewrite Nat2N.id. apply wp_bind.
  apply (wp_for_up (fun k m' =>
    (forall c, fields m' c = fields m c) /\
    (forall q, q <> p -> region m' q = region m q) /\
    length (heap m') = length (heap m) /\
    exists r', region m' p = Some r' /\ length r' = length r /\
               forall j, (k <= j < length vs)%nat -> r' !! j = r !! j)).
  - split_and!; try done. by exists r.
  - intros k m' Hk (Hf' & Hq' & Hh' & r' & Hr' & Hl' & Hj').
    apply wp_bind. eapply wp_data; [by rewrite Hf'|].
    destruct (lookup_lt_is_Some_2 vs k Hk) as [v Hv].
    assert (r' !! k = Some (Some v)) as Hlk.
    { rewrite Hj' by lia. rewrite <-(lookup_take_lt r (length vs)) by lia.
      by rewrite Htake, list_lookup_fmap, Hv. }
    eapply wp_destroy_at; [done|by rewrite N.add_0_l, Nat2N.id|].
    rewrite N.add_0_l, Nat2N.id.
    split_and!.
    + intros c. obs. apply Hf'.
    + intros q Hq. obs. by apply Hq'.
    + destruct p; simpl; [done|]. by rewrite length_alter.
    + exists (<[k:=None]> r'). obs. rewrite Hr'. split; [done|].
      split; [by rewrite length_insert|].
      intros j Hj. rewrite list_lookup_insert_ne by lia. apply Hj'. lia.
  - intros m' (Hf' & Hq' & Hh' & r' & Hr' & Hl' & _).
    eapply wp_set_m_size; [by rewrite Hf'|].
    apply HQ.
    + split_and!; simpl; try done; try lia.
      * obs. by rewrite Hf', Hf.
      * exists r'. obs. split; [done|]. split; [lia|done].
    + intros c Hc. obs. apply Hf'.
    + intros q Hq. obs. by apply Hq'.
    + done.
Qed.

(** ** [reserve], when no element transfer throws *)

Lemma region_fresh m : region m (heap_ptr (length (heap m))) = None.
Proof. simpl. by rewrite lookup_ge_None_2. Qed.

Lemma wrap_small x : x < 2 ^ size_type_bits -> wrap x = x.
Proof. intros. unfold wrap. by apply N.mod_small. Qed.

Lemma new_block_slots n :
  n * Npos sizeof < 2 ^ size_type_bits ->
  N.to_nat (wrap (n * Npos sizeof) / Npos sizeof) = N.to_nat n.
Proof. intros H. rewrite wrap_small by done. by rewrite N.div_mul. Qed.

Lemma insert_live_prefix (vs : list T) k v n :
  vs !! k = Some v -> (k < n)%nat ->
  <[k := Some v]> ((Some <$> take k vs) ++ replicate (n - k) None) =
  (Some <$> take (S k) vs) ++ replicate (n - S k) None.
Proof.
  intros Hv Hk.
  assert (length (Some <$> take k vs) = k) as Hl.
  { rewrite length_fmap, length_take_le; [done|]. apply lookup_lt_Some in Hv. lia. }
  rewrite <-(Nat.add_0_r k) at 1. rewrite <-Hl at 1.
  rewrite insert_app_r.
  rewrite (take_S_r _ _ _ Hv), fmap_app, <-app_assoc. f_equal.
  replace (n - k)%nat with (S (n - S k)) by lia. done.
Qed.

Lemma wp_reserve_grow this vs cap p n Q E U m :
  holds m this vs cap p ->
  cap < n ->
  n * Npos sizeof < 2 ^ size_type_bits ->
  Forall (fun v => xfer_throws v = false) vs ->
  (forall m',
     holds m' this vs n (heap_ptr (length (heap m))) ->
     (forall c, c <> this -> fields m' c = fields m c) ->
     (forall q, q <> p -> q <> heap_ptr (length (heap m)) -> region m' q = region m q) ->
     length (heap m') = S (length (heap m)) ->
     Q tt m') ->
  wp (reserve this n) Q E U m.
Proof.
  intros Hholds Hn Hbytes Hnothrow HQ.
  pose proof Hholds as (Hf & Hcap & Hlen & r & Hr & Hrl & Htake).
  set (tmp := heap_ptr (length (heap m))).
  assert (p <> tmp) as Hptmp.
  { intros ->. unfold tmp in Hr. by rewrite region_fresh in Hr. }
  unfold reserve. apply wp_bind. eapply wp_capacity; [done|].
  rewrite (proj2 (N.leb_gt _ _) Hn).
  apply wp_bind, wp_operator_new. rewrite new_block_slots by done. fold tmp.
  apply wp_bind. eapply wp_size; [by obs|]. rewrite Nat2N.id.
  apply wp_bind.
  apply (wp_try_for_up (fun k m' =>
    (forall c, fields m' c = fields m c) /\
    (forall q, q <> tmp -> region m' q = region m q) /\
    length (heap m') = S (length (heap m)) /\
    region m' tmp = Some ((Some <$> take k vs) ++ replicate (N.to_nat n - k) None))).
  - split_and!.
    + intros c. by obs.
    + intros q Hq. by obs.
    + simpl. rewrite length_app. simpl. lia.
    + obs. by rewrite Nat.sub_0_r.
  - intros k m' Hk (Hf' & Hq' & Hh' & Htmp).
    rewrite N.add_0_l.
    destruct (lookup_lt_is_Some_2 vs k Hk) as [v Hv].
    apply wp_bind. eapply wp_data; [by rewrite Hf'|].
    apply wp_bind. eapply wp_read_at.
    { by rewrite Hq'. }
    { rewrite Nat2N.id, <-(lookup_take_lt r (length vs)) by lia.
      by rewrite Htake, list_lookup_fmap, Hv. }
    unfold move_if_noexcept_construct.
    rewrite (proj1 (Forall_lookup _ _) Hnothrow k v Hv).
    eapply wp_construct_at; [done| |].
    { rewrite Nat2N.id, length_app, length_fmap, length_take_le, length_replicate; lia. }
    rewrite Nat2N.id. split_and!.
    + intros c. obs. apply Hf'.
    + intros q Hq. obs. by apply Hq'.
    + subst tmp. simpl. by rewrite length_alter.
    + obs. rewrite Htmp. simpl. f_equal. apply insert_live_prefix; [done|lia].
  - intros m' (Hf' & Hq' & Hh' & Htmp). simpl.
    apply wp_bind, wp_ret. apply wp_bind.
    apply (wp_clear this vs cap p).
    { split_and!; try done.
      - by rewrite Hf'.
      - exists r. by rewrite Hq'. }
    intros m2 (Hf2 & _ & _ & r2 & Hr2 & Hrl2 & _) Hfr2 Hq2 Hh2.
    apply wp_bind. eapply wp_uses_buffer; [done|].
    change (N.of_nat (length [])) with 0.
    rewrite (proj2 (N.leb_le 0 N) (N.le_0_l N)). cbn [negb].
    apply wp_bind, wp_ret.
    apply wp_bind. eapply wp_set_m_data; [done|].
    apply wp_bind. eapply wp_set_m_capacity; [by known|].
    eapply wp_set_m_size; [by known|].
    rewrite N.add_0_l.
    assert (n < 2 ^ size_type_bits) as Hn64 by nia.
    apply HQ; fold tmp.
    + split_and!; try done; try lia.
      * by known.
      * eexists. obs. rewrite Hq2, Htmp by done. split; [done|].
        rewrite length_app, length_fmap, length_take_le, length_replicate by lia.
        split; [lia|].
        rewrite take_app_le by (rewrite length_fmap, length_take_le; lia).
        rewrite take_ge by (rewrite length_fmap, length_take_le; lia).
        by rewrite firstn_all.
    + intros c Hc. obs. by rewrite Hfr2, Hf'.
    + intros q Hq1 Hq3. obs. by rewrite Hq2, Hq'.
    + simpl. lia.
Qed.

(** ** [emplace_back] *)

Lemma frame_refl this p m : frame this p m m.
Proof. by split_and!. Qed.

(** The growth step at the head of [emplace_back]. *)
Lemma wp_emplace_back_growth this vs cap p Q E U m :
  holds m this vs cap p ->
  (N.of_nat (length vs) = cap ->
   N.max 1 (2 * cap) * Npos sizeof < 2 ^ size_type_bits /\
   Forall (fun x => xfer_throws x = false) vs) ->
  (forall m1 cap' p',
     holds m1 this vs cap' p' ->
     N.of_nat (length vs) < cap' ->
     frame this p m m1 ->
     (if decide (N.of_nat (length vs) = cap)
      then cap' = N.max 1 (2 * cap) /\ p' = heap_ptr (length (heap m))
      else cap' = cap /\ p' = p /\ m1 = m) ->
     Q tt m1) ->
  wp (if cap <=? N.of_nat (length vs)
      then reserve this (if cap =? 0 then 1 else wrap (2 * cap))
      else ret tt) Q E U m.
Proof.
  intros Hholds Hgrow HQ.
  pose proof Hholds as (Hf & Hcap & Hlen & r & Hr & Hrl & Htake).
  destruct (N.leb_spec cap (N.of_nat (length vs))) as [Hle|Hlt].
  - assert (N.of_nat (length vs) = cap) as Heq by lia.
    destruct (Hgrow Heq) as [Hbytes Hnothrow].
    assert ((if cap =? 0 then 1 else wrap (2 * cap)) = N.max 1 (2 * cap)) as ->.
    { destruct (N.eqb_spec cap 0) as [->|Hne]; [done|].
      rewrite wrap_small by nia. lia. }
    eapply wp_reserve_grow; [done|lia|done|done|].
    intros m1 Hholds1 Hf1 Hq1 Hh1.
    apply (HQ m1 _ _ Hholds1); [lia| |by rewrite decide_True].
    split_and!; [done| |lia].
    intros q r' Hq Hr'. rewrite Hq1; [done|done|].
    intros ->. by rewrite region_fresh in Hr'.
  - apply wp_ret, (HQ m cap p); [done|lia|apply frame_refl|].
    rewrite decide_False by lia. done.
Qed.

(** The construction of the new element and the increment of [m_size],
    in a container that has a free slot. *)
Lemma wp_emplace_back_construct this vs cap p mk Q E U m :
  holds m this vs cap p ->
  N.of_nat (length vs) < cap ->
  match mk with
  | Some v =>
      forall m', holds m' this (vs ++ [v]) cap p -> frame this p m m' ->
                 Q (p, N.of_nat (length vs)) m'
  | None => E m
  end ->
  wp (d <~ data this ;;
      sz <~ size this ;;
      construct_at d sz mk ;;;
      d <~ data this ;;
      sz <~ size this ;;
      set_m_size this (wrap (sz + 1)) ;;;
      ret (d, sz)) Q E U m.
Proof.
  intros (Hf & Hcap & Hlen & r & Hr & Hrl & Htake) Hlt HQ.
  apply wp_bind. eapply wp_data; [done|].
  apply wp_bind. eapply wp_size; [done|].
  apply wp_bind. destruct mk as [v|].
  - eapply wp_construct_at; [done|lia|]. rewrite Nat2N.id.
    apply wp_bind. eapply wp_data; [by known|].
    apply wp_bind. eapply wp_size; [by known|].
    apply wp_bind. eapply wp_set_m_size; [by known|].
    apply wp_ret. rewrite wrap_small by lia.
    apply HQ.
    + split_and!; try done.
      * known. rewrite length_app. simpl. do 3 f_equal. lia.
      * rewrite length_app. simpl. lia.
      * exists (<[length vs := Some v]> r). obs. rewrite Hr. simpl.
        split; [done|]. split; [by rewrite length_insert|].
        rewrite length_app. simpl. rewrite Nat.add_1_r.
        erewrite take_S_r; [|apply list_lookup_insert_eq; lia].
        by rewrite take_insert_ge, Htake, fmap_app by lia.
    + split_and!.
      * intros c Hc. by known.
      * intros q r' Hq Hr'. by obs.
      * destruct p; simpl; [done|]. by rewrite length_alter.
  - eapply wp_construct_at_throw; [done|lia|done].
Qed.

Lemma frame_trans this p p' m m1 m2 :
  frame this p m m1 -> frame this p' m1 m2 ->
  p' = p \/ region m p' = None ->
  frame this p m m2.
Proof.
  intros (Hf1 & Hq1 & Hh1) (Hf2 & Hq2 & Hh2) Hp'.
  split_and!; [ | |lia].
  - intros c Hc. by rewrite Hf2, Hf1.
  - intros q r Hq Hr. apply Hq2; [|by apply Hq1].
    destruct Hp' as [->|Hnone]; [done|]. intros ->. congruence.
Qed.

Lemma wp_emplace_back this vs cap p mk Q E U m :
  holds m this vs cap p ->
  (N.of_nat (length vs) = cap ->
   N.max 1 (2 * cap) * Npos sizeof < 2 ^ size_type_bits /\
   Forall (fun x => xfer_throws x = false) vs) ->
  (forall m1 cap' p',
     holds m1 this vs cap' p' ->
     frame this p m m1 ->
     (if decide (N.of_nat (length vs) = cap)
      then cap' = N.max 1 (2 * cap) /\ p' = heap_ptr (length (heap m))
      else cap' = cap /\ p' = p /\ m1 = m) ->
     match mk with
     | Some v =>
         forall m', holds m' this (vs ++ [v]) cap' p' -> frame this p m m' ->
                    Q (p', N.of_nat (length vs)) m'
     | None => E m1
     end) ->
  wp (emplace_back this mk) Q E U m.
Proof.
  intros Hholds Hgrow HQ.
  pose proof Hholds as (Hf & _).
  unfold emplace_back.
  apply wp_bind. eapply wp_size; [done|].
  apply wp_bind. eapply wp_capacity; [done|].
  apply wp_bind. apply (wp_emplace_back_growth this vs cap p); [done|done|].
  intros m1 cap' p' Hholds1 Hlt Hfr Hcase.
  apply (wp_emplace_back_construct this vs cap' p'); [done|done|].
  specialize (HQ m1 cap' p' Hholds1 Hfr Hcase).
  destruct mk as [v|]; [|done].
  intros m' Hholds' Hfr'. apply HQ; [done|].
  eapply frame_trans; [done|done|].
  case_decide.
  - destruct Hcase as [_ ->]. right. apply region_fresh.
  - destruct Hcase as (_ & -> & _). by left.
Qed.

(** X29.  In a container that holds [vs] and, when it is full, has
    elements whose transfers do not throw and a doubled byte count that
    fits [size_type]: [emplace_back] returns, the container then holds
    [vs] followed by the one new element, put at index [size]; the size
    went up by one.  When size and capacity were equal the capacity is
    [max 1 (2 * capacity)] and the elements live in a block allocated by
    the call, otherwise capacity and storage region are the ones from
    before.  [push_back] of a value whose copy constructor returns does
    the same. *)
Theorem emplace_back_appends this vs cap p v m :
  holds m this vs cap p ->
  (N.of_nat (length vs) = cap ->
   N.max 1 (2 * cap) * Npos sizeof < 2 ^ size_type_bits /\
   Forall (fun x => xfer_throws x = false) vs) ->
  exists m' cap' p',
    emplace_back this (Some v) m = Ok (p', N.of_nat (length vs)) m' /\
    (copy_throws v = false -> push_back this v m = Ok tt m') /\
    holds m' this (vs ++ [v]) cap' p' /\
    (if decide (N.of_nat (length vs) = cap)
     then cap' = N.max 1 (2 * cap) /\ p' = heap_ptr (length (heap m))
     else cap' = cap /\ p' = p).
Proof.
  intros Hholds Hgrow.
  destruct (wp_returns (emplace_back this (Some v))
    (fun ref m' => exists cap' p',
       ref = (p', N.of_nat (length vs)) /\
       holds m' this (vs ++ [v]) cap' p' /\
       (if decide (N.of_nat (length vs) = cap)
        then cap' = N.max 1 (2 * cap) /\ p' = heap_ptr (length (heap m))
        else cap' = cap /\ p' = p)) m) as (ref & m' & Hrun & cap' & p' & -> & Hh & Hc).
  { apply (wp_emplace_back this vs cap p); [done|done|].
    intros m1 cap' p' _ _ Hcase m' Hh _. exists cap', p'.
    split_and!; [done|done|]. case_decide; [done|]. by destruct Hcase as (? & ? & _). }
  exists m', cap', p'. split_and!; try done.
  intros Hcopy. unfold push_back, copy_construct, bind. by rewrite Hcopy, Hrun.
Qed.

(** X30.  In a container that holds [vs] and, when it is full, has
    elements whose transfers do not throw and a doubled byte count that
    fits [size_type]: when the constructor of the new element throws,
    the exception leaves [emplace_back] (and [push_back], for a value
    whose copy constructor throws) and the container still holds exactly
    [vs]: the size and the elements are the ones from before, the slot
    of the failed element is not counted.  Only the capacity and the
    region may have changed, and only by the growth step. *)
Theorem emplace_back_ctor_throws this vs cap p m :
  holds m this vs cap p ->
  (N.of_nat (length vs) = cap ->
   N.max 1 (2 * cap) * Npos sizeof < 2 ^ size_type_bits /\
   Forall (fun x => xfer_throws x = false) vs) ->
  exists m' cap' p',
    emplace_back this None m = Throw m' /\
    (forall item, copy_throws item = true -> push_back this item m = Throw m') /\
    holds m' this vs cap' p' /\
    (if decide (N.of_nat (length vs) = cap)
     then cap' = N.max 1 (2 * cap) /\ p' = heap_ptr (length (heap m))
     else cap' = cap /\ p' = p /\ m' = m).
Proof.
  intros Hholds Hgrow.
  destruct (wp_throws (emplace_back this None)
    (fun m' => exists cap' p',
       holds m' this vs cap' p' /\
       (if decide (N.of_nat (length vs) = cap)
        then cap' = N.max 1 (2 * cap) /\ p' = heap_ptr (length (heap m))
        else cap' = cap /\ p' = p /\ m' = m)) m) as (m' & Hrun & cap' & p' & Hh & Hc).
  { apply (wp_emplace_back this vs cap p); [done|done|].
    intros m1 cap' p' Hh _ Hcase. by exists cap', p'. }
  exists m', cap', p'. split_and!; try done.
  intros item Hcopy. unfold push_back, copy_construct, bind. by rewrite Hcopy, Hrun.
Qed.

(** ** Construction from an initializer list *)

Lemma construct_events_cons p i n :
  construct_events p i (S n) = ev_construct p i :: construct_events p (i + 1) n.
Proof.
  unfold construct_events. simpl. rewrite N.add_0_r. f_equal.
  rewrite <-fmap_S_seq, <-list_fmap_compose. apply list_fmap_ext.
  intros _ k _. simpl. f_equal. lia.
Qed.

Lemma wp_init_members this sz cap p Q E U m :
  Q tt (put this (mk_small_vector sz cap p (replicate (N.to_nat N) None)) m) ->
  wp (init_members this sz cap p) Q E U m.
Proof. done. Qed.

Lemma wp_uninitialized_copy p src Q E U :
  forall i m r,
    region m p = Some r ->
    (N.to_nat i + length src <= length r)%nat ->
    Forall (fun v => copy_throws v = false) src ->
    (forall m',
       region m' p =
         Some (take (N.to_nat i) r ++ (Some <$> src) ++ drop (N.to_nat i + length src) r) ->
       (forall c, fields m' c = fields m c) ->
       (forall q, q <> p -> region m' q = region m q) ->
       length (heap m') = length (heap m) ->
       trace m' = trace m ++ construct_events p i (length src) ->
       Q tt m') ->
    wp (uninitialized_copy src p i) Q E U m.
Proof.
  induction src as [|v src IH]; intros i m r Hr Hlen Hnothrow HQ.
  - apply wp_ret, HQ; try done.
    + simpl. by rewrite Nat.add_0_r, take_drop.
    + unfold construct_events. simpl. by rewrite app_nil_r.
  - simpl in *. apply Forall_cons in Hnothrow as [Hv Hnothrow].
    apply wp_bind, wp_try. unfold copy_construct. rewrite Hv.
    eapply wp_construct_at; [done|lia|].
    eapply (IH (i + 1)); [by obs; rewrite Hr|rewrite length_insert; lia|done|].
    intros m' Hr' Hf' Hq' Hh' Ht'. apply HQ.
    + rewrite Hr'. f_equal.
      replace (N.to_nat (i + 1)) with (S (N.to_nat i)) by lia.
      erewrite take_S_r; [|apply list_lookup_insert_eq; lia].
      rewrite take_insert_ge, drop_insert_lt by lia.
      rewrite <-app_assoc. simpl.
      by replace (N.to_nat i + S (length src))%nat with (S (N.to_nat i + length src)) by lia.
    + intros c. rewrite Hf'. by obs.
    + intros q Hq. rewrite Hq' by done. by obs.
    + rewrite Hh'. destruct p; simpl; [done|]. by rewrite length_alter.
    + rewrite Ht', construct_events_cons. simpl.
      rewrite <-app_assoc. simpl. f_equal. by destruct p.
Qed.

(** C7.  Built from a literal sequence of [L] elements whose copies do
    not throw, the container has size [L] and capacity [L] (whatever [N]
    is) and holds the elements of the sequence, each copy-constructed,
    in order of index.  When [L] exceeds [N] the call allocates one block,
    of [L * sizeof(value_type)] bytes, and the elements fill its [L] slots;
    otherwise it allocates nothing and the elements are in the inline
    buffer. *)
Theorem ctor_init_list_spec this init m :
  Forall (fun v => copy_throws v = false) init ->
  N.of_nat (length init) * Npos sizeof < 2 ^ size_type_bits ->
  exists m' p,
    ctor_init_list this init m = Ok tt m' /\
    holds m' this init (N.of_nat (length init)) p /\
    if decide (N < N.of_nat (length init))
    then p = heap_ptr (length (heap m)) /\
         region m' p = Some (Some <$> init) /\
         length (heap m') = S (length (heap m)) /\
         trace m' =
           trace m ++
           ev_new (length (heap m)) (N.of_nat (length init) * Npos sizeof) ::
           construct_events p 0 (length init)
    else p = buffer_of this /\
         length (heap m') = length (heap m) /\
         trace m' = trace m ++ construct_events p 0 (length init).
Proof.
  intros Hnothrow Hbytes.
  set (L := N.of_nat (length init)) in *.
  assert (L < 2 ^ size_type_bits) as HL by nia.
  pose (post := fun (_ : unit) m' => exists p,
    holds m' this init L p /\
    if decide (N < L)
    then p = heap_ptr (length (heap m)) /\
         region m' p = Some (Some <$> init) /\
         length (heap m') = S (length (heap m)) /\
         trace m' = trace m ++ ev_new (length (heap m)) (L * Npos sizeof) ::
                    construct_events p 0 (length init)
    else p = buffer_of this /\
         length (heap m') = length (heap m) /\
         trace m' = trace m ++ construct_events p 0 (length init)).
  destruct (wp_returns (ctor_init_list this init) post m) as ([] & m' & Hrun & p & Hp).
  2: { by exists m', p. }
  unfold ctor_init_list. fold L. apply wp_bind.
  destruct (N.ltb_spec N L) as [Hlt|Hge].
  - apply wp_operator_new. rewrite wrap_small, N.div_mul by done.
    set (tmp := heap_ptr (length (heap m))).
    apply wp_bind, wp_init_members.
    apply wp_bind, wp_try, wp_bind.
    eapply wp_data; [by obs|].
    eapply (wp_uninitialized_copy tmp init _ _ _ 0 _ (replicate (N.to_nat L) None)).
    + by obs.
    + rewrite length_replicate. lia.
    + done.
    + intros m' Hr' Hf' Hq' Hh' Ht'. apply wp_ret. exists tmp.
      assert (region m' tmp = Some (Some <$> init)) as Hreg.
      { rewrite Hr'. simpl. rewrite drop_ge, app_nil_r; [done|].
        rewrite length_replicate. lia. }
      split.
      * split_and!; [by rewrite Hf'; obs|done|lia|].
        exists (Some <$> init). rewrite length_fmap.
        split_and!; [done|lia|]. by rewrite <-(length_fmap Some), firstn_all.
      * rewrite decide_True by done. split_and!; try done.
        -- rewrite Hh'. simpl. rewrite length_app. simpl. lia.
        -- rewrite Ht'. simpl. by rewrite <-app_assoc.
  - apply wp_ret.
    apply wp_bind, wp_init_members.
    apply wp_bind, wp_try, wp_bind.
    eapply wp_data; [by obs|].
    eapply (wp_uninitialized_copy (buffer this) init _ _ _ 0 _ (replicate (N.to_nat N) None)).
    + by obs.
    + rewrite length_replicate. lia.
    + done.
    + intros m' Hr' Hf' Hq' Hh' Ht'. apply wp_ret. exists (buffer this).
      split.
      * split_and!; [by rewrite Hf'; obs|done|lia|].
        eexists. split; [done|]. simpl.
        rewrite !length_app, length_fmap, length_drop, length_replicate.
        split; [lia|]. by rewrite take_app_length' by (by rewrite length_fmap).
      * rewrite decide_False by lia. done.
Qed.

(** ** Rules that ask nothing of the state *)

(** With [U := True] a primitive may go wrong; the rule hands over what
    is known when it does not. *)
Section partial_rules.
Context (E : memory -> Prop) (m : memory).

Lemma wpp_load this (Q : small_vector -> memory -> Prop) :
  (forall sv, objects m !! this = Some sv -> Q sv m) -> wp (load this) Q E True m.
Proof. unfold wp, load. destruct (objects m !! this); eauto. Qed.

Lemma fields_of_object this sv :
  objects m !! this = Some sv -> fields m this = Some (m_size sv, m_capacity sv, m_data sv).
Proof. unfold fields. by intros ->. Qed.

Lemma wpp_size this (Q : size_type -> memory -> Prop) :
  (forall sz cap p, fields m this = Some (sz, cap, p) -> Q sz m) -> wp (size this) Q E True m.
Proof.
  intros HQ. apply wp_bind, wpp_load. intros sv Hsv.
  apply wp_ret. eapply HQ. by apply fields_of_object.
Qed.

Lemma wpp_capacity this (Q : size_type -> memory -> Prop) :
  (forall sz cap p, fields m this = Some (sz, cap, p) -> Q cap m) ->
  wp (capacity this) Q E True m.
Proof.
  intros HQ. apply wp_bind, wpp_load. intros sv Hsv.
  apply wp_ret. eapply HQ. by apply fields_of_object.
Qed.

Lemma wpp_data this (Q : pointer -> memory -> Prop) :
  (forall sz cap p, fields m this = Some (sz, cap, p) -> Q p m) -> wp (data this) Q E True m.
Proof.
  intros HQ. apply wp_bind, wpp_load. intros sv Hsv.
  apply wp_ret. eapply HQ. by apply fields_of_object.
Qed.

Lemma wpp_uses_buffer this (Q : bool -> memory -> Prop) :
  (forall sz cap p, fields m this = Some (sz, cap, p) -> Q (sz <=? N) m) ->
  wp (uses_buffer this) Q E True m.
Proof.
  intros HQ. apply wp_bind, wpp_load. intros sv Hsv.
  apply wp_ret. eapply HQ. by apply fields_of_object.
Qed.

Lemma wpp_set_m_size this n (Q : unit -> memory -> Prop) :
  (forall sz cap p, fields m this = Some (sz, cap, p) -> Q tt (set_scalars this n cap p m)) ->
  wp (set_m_size this n) Q E True m.
Proof.
  intros HQ. apply wp_bind, wpp_load. intros sv Hsv.
  unfold wp, store. rewrite (put_set_scalars _ _ _ _ _ _ Hsv).
  eapply HQ. by apply fields_of_object.
Qed.

Lemma wpp_set_m_capacity this n (Q : unit -> memory -> Prop) :
  (forall sz cap p, fields m this = Some (sz, cap, p) -> Q tt (set_scalars this sz n p m)) ->
  wp (set_m_capacity this n) Q E True m.
Proof.
  intros HQ. apply wp_bind, wpp_load. intros sv Hsv.
  unfold wp, store. rewrite (put_set_scalars _ _ _ _ _ _ Hsv).
  eapply HQ. by apply fields_of_object.
Qed.

Lemma wpp_set_m_data this q (Q : unit -> memory -> Prop) :
  (forall sz cap p, fields m this = Some (sz, cap, p) -> Q tt (set_scalars this sz cap q m)) ->
  wp (set_m_data this q) Q E True m.
Proof.
  intros HQ. apply wp_bind, wpp_load. intros sv Hsv.
  unfold wp, store. rewrite (put_set_scalars _ _ _ _ _ _ Hsv).
  eapply HQ. by apply fields_of_object.
Qed.

Lemma wpp_construct_at p i mk (Q : unit -> memory -> Prop) :
  (forall r, region m p = Some r -> (N.to_nat i < length r)%nat ->
     match mk with
     | Some v => Q tt (log (ev_construct p i) (set_region p (<[N.to_nat i := Some v]> r) m))
     | None => E m
     end) ->
  wp (construct_at p i mk) Q E True m.
Proof.
  intros HQ. unfold wp, construct_at.
  destruct (region m p) as [r|]; [|done].
  destruct (Nat.ltb_spec (N.to_nat i) (length r)) as [Hi|]; [|done].
  specialize (HQ r eq_refl Hi). by destruct mk.
Qed.

Lemma wpp_destroy_at p i (Q : unit -> memory -> Prop) :
  (forall r, region m p = Some r ->
     Q tt (log (ev_destroy p i) (set_region p (<[N.to_nat i := None]> r) m))) ->
  wp (destroy_at p i) Q E True m.
Proof.
  intros HQ. unfold wp, destroy_at.
  destruct (region m p) as [r|]; [|done].
  destruct (r !! N.to_nat i) as [[v|]|]; eauto.
Qed.

Lemma wpp_read_at p i (Q : T -> memory -> Prop) :
  (forall v, Q v m) -> wp (read_at p i) Q E True m.
Proof.
  intros HQ. unfold wp, read_at.
  destruct (region m p) as [r|]; [|done].
  destruct (r !! N.to_nat i) as [[v|]|]; eauto.
Qed.

Lemma wpp_write_at p i v (Q : unit -> memory -> Prop) :
  (forall r, region m p = Some r -> Q tt (set_region p (<[N.to_nat i := Some v]> r) m)) ->
  wp (write_at p i v) Q E True m.
Proof.
  intros HQ. unfold wp, write_at.
  destruct (region m p) as [r|]; [|done].
  destruct (r !! N.to_nat i) as [[v0|]|]; eauto.
Qed.

Lemma wpp_operator_delete p (Q : unit -> memory -> Prop) :
  (forall b, p = heap_ptr b -> Q tt (log (ev_delete b) (release b m))) ->
  wp (operator_delete p) Q E True m.
Proof.
  intros HQ. unfold wp, operator_delete.
  destruct p as [c|b]; [done|].
  destruct (region m (heap_ptr b)); eauto.
Qed.

End partial_rules.

Lemma wp_for_down (Inv : memory -> Prop) n i body (Q : size_type -> memory -> Prop) E U m :
  Inv m ->
  (forall k m', Inv m' -> wp (body k) (fun _ m'' => Inv m'') E U m') ->
  (forall k m', Inv m' -> Q k m') ->
  wp (for_down n i body) Q E U m.
Proof.
  revert i m. induction n as [|n IH]; intros i m HI Hstep Hend; simpl.
  - by apply wp_ret, Hend.
  - destruct (0 <? i); [|by apply wp_ret, Hend].
    apply wp_bind. eapply wp_mono; [by apply Hstep| |done|done].
    intros ? m' HI'. by apply IH.
Qed.

(** ** The footprint of the mutating calls *)

Lemma heap_length_set_region p r m : length (heap (set_region p r m)) = length (heap m).
Proof. destruct p; simpl; [done|]. by rewrite length_alter. Qed.

Lemma heap_length_release b m : length (heap (release b m)) = length (heap m).
Proof. simpl. by rewrite length_insert. Qed.

Lemma heap_length_alloc n m : length (heap (alloc n m)) = S (length (heap m)).
Proof. simpl. rewrite length_app. simpl. lia. Qed.

(** A region that is alive is not a block allocated later. *)
Lemma alive_not_fresh m q r w : region m q = Some r -> fresh m w -> q <> w.
Proof.
  intros Hr (b & -> & Hb) ->. apply region_heap_lt in Hr. lia.
Qed.

Section footprint.
Context (this : cid) (cap0 : size_type) (p0 : pointer) (m0 : memory).

Local Abbreviation G := (footprint this cap0 p0 m0).

Lemma fp_start sz : fields m0 this = Some (sz, cap0, p0) -> G m0.
Proof. intros Hf. split; [apply frame_refl|]. exists sz, cap0, p0. auto. Qed.

Lemma fp_log e m : G m -> G (log e m).
Proof. done. Qed.

Lemma fp_set_region w r m : G m -> w = p0 \/ fresh m0 w -> G (set_region w r m).
Proof.
  intros [(Hf & Hq & Hh) Hthis] Hw. split; [split_and!|].
  - intros c Hc. obs. by apply Hf.
  - intros q r' Hq0 Hr'. obs. rewrite decide_False; [by eapply Hq|].
    destruct Hw as [->|Hw]; [done|]. by eapply alive_not_fresh.
  - by rewrite heap_length_set_region.
  - destruct Hthis as (sz & cap & p & Hp & Hcase). exists sz, cap, p. by obs.
Qed.

Lemma fp_release b m : G m -> heap_ptr b = p0 \/ fresh m0 (heap_ptr b) -> G (release b m).
Proof.
  intros [(Hf & Hq & Hh) Hthis] Hw. split; [split_and!|].
  - intros c Hc. obs. by apply Hf.
  - intros q r' Hq0 Hr'. obs. rewrite decide_False; [by eapply Hq|].
    destruct Hw as [->|Hw]; [done|]. by eapply alive_not_fresh.
  - by rewrite heap_length_release.
  - destruct Hthis as (sz & cap & p & Hp & Hcase). exists sz, cap, p. by obs.
Qed.

Lemma fp_alloc n m : G m -> G (alloc n m).
Proof.
  intros [(Hf & Hq & Hh) Hthis]. split; [split_and!|].
  - intros c Hc. obs. by apply Hf.
  - intros q r' Hq0 Hr'. obs. rewrite decide_False; [by eapply Hq|].
    eapply alive_not_fresh; [done|]. by eexists.
  - rewrite heap_length_alloc. lia.
  - destruct Hthis as (sz & cap & p & Hp & Hcase). exists sz, cap, p. by obs.
Qed.

Lemma fp_next_block m : G m -> fresh m0 (heap_ptr (length (heap m))).
Proof. intros [(_ & _ & Hh) _]. by eexists. Qed.

Lemma fp_data m sz cap p : G m -> fields m this = Some (sz, cap, p) -> p = p0 \/ fresh m0 p.
Proof.
  intros [_ (sz' & cap' & p' & Hp & Hcase)] Hf.
  rewrite Hf in Hp. injection Hp as <- <- <-. destruct Hcase as [[-> _]|?]; auto.
Qed.

Lemma fp_set_scalars m sz cap p sz' cap' p' :
  G m -> fields m this = Some (sz, cap, p) ->
  (p' = p /\ cap' = cap) \/ fresh m0 p' ->
  G (set_scalars this sz' cap' p' m).
Proof.
  intros [(Hf' & Hq & Hh) (sz2 & cap2 & p2 & Hp2 & Hcase2)] Hf Hcase.
  rewrite Hf in Hp2. injection Hp2 as <- <- <-.
  split; [split_and!|].
  - intros c Hc. obs. by apply Hf'.
  - intros q r' Hq0 Hr'. obs. by eapply Hq.
  - done.
  - exists sz', cap', p'. obs. rewrite Hf. split; [done|].
    destruct Hcase as [[-> ->]|Hfresh]; [done|by right].
Qed.

(** [clear] *)
Lemma footprint_clear m : G m -> wp (clear this) (fun _ => G) G True m.
Proof.
  intros HG. unfold clear. apply wp_bind, wpp_size. intros sz cap p Hf.
  apply wp_bind. apply (wp_for_up (fun _ => G)); [done| |].
  - intros k m' _ HG'. apply wp_bind, wpp_data. intros sz' cap' p' Hf'.
    apply wpp_destroy_at. intros r Hr.
    apply fp_log, fp_set_region; [done|]. by eapply fp_data.
  - intros m' HG'. apply wpp_set_m_size. intros sz' cap' p' Hf'.
    eapply fp_set_scalars; eauto.
Qed.

(** [reserve], from the handler on *)
Lemma footprint_reserve_tail (r : size_type * bool) tmp n m :
  G m -> fresh m0 tmp ->
  wp (i <~ (if r.2
            then for_down (N.to_nat r.1) r.1
                   (fun i => destroy_at tmp (i - 1) ;;; operator_delete tmp ;;; throw)
            else ret r.1) ;;
      clear this ;;;
      ub <~ uses_buffer this ;;
      (if negb ub then d <~ data this ;; operator_delete d else ret tt) ;;;
      set_m_data this tmp ;;;
      set_m_capacity this n ;;;
      set_m_size this i) (fun _ => G) G True m.
Proof.
  intros HG Htmp. apply wp_bind.
  assert (forall i m', G m' ->
    wp (clear this ;;;
        ub <~ uses_buffer this ;;
        (if negb ub then d <~ data this ;; operator_delete d else ret tt) ;;;
        set_m_data this tmp ;;;
        set_m_capacity this n ;;;
        set_m_size this i) (fun _ => G) G True m') as Hrest.
  { clear m HG. intros i m HG. apply wp_bind.
    eapply wp_mono; [by apply footprint_clear| |done|done].
    intros ? m1 HG1. apply wp_bind, wpp_uses_buffer. intros sz cap p Hf.
    apply wp_bind.
    assert (forall m2, G m2 ->
      wp (set_m_data this tmp ;;; set_m_capacity this n ;;; set_m_size this i)
         (fun _ => G) G True m2) as Hset.
    { intros m2 HG2. apply wp_bind, wpp_set_m_data. intros sz2 cap2 p2 Hf2.
      apply wp_bind, wpp_set_m_capacity. intros sz3 cap3 p3 Hf3.
      apply wpp_set_m_size. intros sz4 cap4 p4 Hf4.
      obs_in Hf3. rewrite Hf2 in Hf3. injection Hf3 as <- <- <-.
      obs_in Hf4. rewrite Hf2 in Hf4. injection Hf4 as <- <- <-.
      assert (G (set_scalars this sz2 cap2 tmp m2)) as HG3.
      { eapply fp_set_scalars; eauto. }
      assert (G (set_scalars this sz2 n tmp (set_scalars this sz2 cap2 tmp m2))) as HG4.
      { eapply fp_set_scalars; [done| |by right]. obs. by rewrite Hf2. }
      eapply fp_set_scalars; [done| |by right]. obs. by rewrite Hf2. }
    destruct (negb (sz <=? N)).
    - apply wp_bind, wpp_data. intros sz' cap' p' Hf'.
      apply wpp_operator_delete. intros b ->.
      apply Hset, fp_log, fp_release; [done|]. by apply (fp_data _ _ _ _ HG1 Hf').
    - by apply wp_ret, Hset. }
  destruct r as [i [|]]; simpl; [|by apply wp_ret, Hrest].
  apply (wp_for_down G); [done| |by intros; apply Hrest].
  intros k m' HG'. apply wp_bind, wpp_destroy_at. intros r Hr.
  apply wp_bind, wpp_operator_delete. intros b ->.
  apply wp_throw, fp_log, fp_release; [|by right].
  apply fp_log, fp_set_region; [done|by right].
Qed.

Lemma footprint_reserve n m : G m -> wp (reserve this n) (fun _ => G) G True m.
Proof.
  intros HG. unfold reserve. apply wp_bind, wpp_capacity. intros sz cap p Hf.
  destruct (n <=? cap); [by apply wp_ret|].
  apply wp_bind, wp_operator_new.
  pose proof (fp_next_block _ HG) as Htmp.
  set (tmp := heap_ptr (length (heap m))) in *.
  apply wp_bind, wpp_size. intros sz1 cap1 p1 Hf1.
  apply wp_bind. apply (wp_try_for_up (fun _ => G)).
  - by apply fp_log, fp_alloc.
  - intros k m' _ HG'. apply wp_bind, wpp_data. intros sz' cap' p' Hf'.
    apply wp_bind, wpp_read_at. intros v.
    apply wpp_construct_at. intros r Hr Hi.
    destruct (move_if_noexcept_construct v).
    + apply fp_log, fp_set_region; [done|by right].
    + by apply (footprint_reserve_tail (_, true)).
  - intros m' HG'. by apply (footprint_reserve_tail (_, false)).
Qed.

Lemma footprint_emplace_back mk m :
  G m -> wp (emplace_back this mk) (fun _ => G) G True m.
Proof.
  intros HG. unfold emplace_back.
  apply wp_bind, wpp_size. intros sz cap p Hf.
  apply wp_bind, wpp_capacity. intros sz' cap' p' Hf'.
  apply wp_bind.
  eapply (wp_mono _ (fun _ => G) _ G);
    [destruct (cap' <=? sz); [by apply footprint_reserve|by apply wp_ret]| |done|done].
  intros ? m1 HG1.
  apply wp_bind, wpp_data. intros sz1 cap1 p1 Hf1.
  apply wp_bind, wpp_size. intros sz2 cap2 p2 Hf2.
  apply wp_bind, wpp_construct_at. intros r Hr Hi.
  destruct mk as [v|]; [|done].
  apply wp_bind, wpp_data. intros sz3 cap3 p3 Hf3.
  apply wp_bind, wpp_size. intros sz4 cap4 p4 Hf4.
  apply wp_bind, wpp_set_m_size. intros sz5 cap5 p5 Hf5.
  apply wp_ret. eapply fp_set_scalars; [|done|by left].
  apply fp_log, fp_set_region; [done|]. by eapply fp_data.
Qed.

Lemma footprint_resize n v m : G m -> wp (resize this n v) (fun _ => G) G True m.
Proof.
  intros HG. unfold resize. apply wp_bind, wpp_size. intros sz cap p Hf.
  destruct (n =? sz); [by apply wp_ret|].
  destruct (sz <? n).
  - apply wp_bind. eapply wp_mono; [by apply footprint_reserve| |done|done].
    intros ? m1 HG1. apply wp_bind, wpp_size. intros sz1 cap1 p1 Hf1.
    apply (wp_for_up (fun _ => G)); [done| |done].
    intros k m' _ HG'. unfold push_back. apply wp_bind.
    eapply wp_mono; [by apply footprint_emplace_back| |done|done].
    intros ? m2 HG2. by apply wp_ret.
  - apply (wp_repeat_n (fun _ => G)); [done| |done].
    intros k m' _ HG'. apply wp_bind, wpp_size. intros sz1 cap1 p1 Hf1.
    apply wp_bind, wpp_set_m_size. intros sz2 cap2 p2 Hf2.
    apply wp_bind, wpp_data. intros sz3 cap3 p3 Hf3.
    apply wpp_destroy_at. intros r Hr.
    assert (G (set_scalars this (sz1 - 1) cap2 p2 m')) as HG2.
    { eapply fp_set_scalars; [done|done|by left]. }
    apply fp_log, fp_set_region; [done|]. by eapply fp_data.
Qed.

Lemma footprint_exec c m : G m -> wp (exec this c) (fun _ => G) G True m.
Proof.
  intros HG. destruct c; simpl.
  - apply wp_bind. eapply wp_mono; [by apply footprint_emplace_back| |done|done].
    intros ? m1 HG1. by apply wp_ret.
  - unfold push_back. apply wp_bind.
    eapply wp_mono; [by apply footprint_emplace_back| |done|done].
    intros ? m1 HG1. by apply wp_ret.
  - unfold push_back_move. apply wp_bind.
    eapply wp_mono; [by apply footprint_emplace_back| |done|done].
    intros ? m1 HG1. by apply wp_ret.
  - by apply footprint_clear.
  - by apply footprint_reserve.
  - by apply footprint_resize.
  - unfold subscript_assign. apply wp_bind, wpp_data. intros sz cap p Hf.
    apply wpp_write_at. intros r Hr.
    apply fp_set_region; [done|]. by eapply fp_data.
Qed.

Lemma footprint_dtor m :
  G m ->
  wp (dtor this) (fun _ m' => exists m1, G m1 /\ m' = remove this m1) G True m.
Proof.
  intros HG. unfold dtor. apply wp_bind.
  eapply wp_mono; [by apply footprint_clear| |done|done].
  intros ? m1 HG1. apply wp_bind, wpp_uses_buffer. intros sz cap p Hf.
  apply wp_bind. destruct (negb (sz <=? N)).
  - apply wp_bind, wpp_data. intros sz' cap' p' Hf'.
    apply wpp_operator_delete. intros b ->.
    eexists. split; [|done].
    apply fp_log, fp_release; [done|]. by apply (fp_data _ _ _ _ HG1 Hf').
  - apply wp_ret. by exists m1.
Qed.

End footprint.

(** ** Capacity in buffer mode *)

(** A call on an address where no container lives goes wrong at its
    first access to a member. *)
Lemma exec_no_object this c m :
  fields m this = None -> exec this c m = UB.
Proof.
  unfold fields. destruct (objects m !! this) eqn:Hnone; [done|]. intros _.
  destruct c; simpl;
    unfold push_back, push_back_move, emplace_back, clear, reserve, resize,
      subscript_assign, size, capacity, data, bind, load;
    by rewrite Hnone.
Qed.

Lemma exec_footprint this c m sz cap p :
  fields m this = Some (sz, cap, p) ->
  wp (exec this c) (fun _ => footprint this cap p m) (footprint this cap p m) True m.
Proof. intros Hf. by eapply footprint_exec, fp_start. Qed.

Lemma bounded_footprint this sz0 cap0 p0 m0 m :
  buffer_capacity_bounded m0 ->
  fields m0 this = Some (sz0, cap0, p0) ->
  footprint this cap0 p0 m0 m ->
  buffer_capacity_bounded m.
Proof.
  intros Hinv Hf0 [(Hf & _ & _) (sz & cap & p & Hp & Hcase)] c sz' cap' p' Hc ->.
  destruct (decide (c = this)) as [->|Hne].
  - rewrite Hp in Hc. injection Hc as -> -> ->.
    destruct Hcase as [[<- ->]|(b & [=] & _)]. by eapply Hinv.
  - rewrite Hf in Hc by done. by eapply Hinv.
Qed.

Lemma bounded_remove this cap0 p0 m0 m :
  buffer_capacity_bounded m0 ->
  footprint this cap0 p0 m0 m ->
  buffer_capacity_bounded (remove this m).
Proof.
  intros Hinv [(Hf & _ & _) _] c sz' cap' p' Hc ->.
  rewrite fields_remove in Hc. case_decide; [done|].
  rewrite Hf in Hc by done. by eapply Hinv.
Qed.

(** The copies and destructions of [std::uninitialized_copy] leave the
    scalar members of every object alone. *)
Lemma fields_uninitialized_copy p src :
  forall i m,
    wp (uninitialized_copy src p i)
       (fun _ m' => forall c, fields m' c = fields m c)
       (fun m' => forall c, fields m' c = fields m c) True m.
Proof.
  induction src as [|v src IH]; intros i m; simpl; [by apply wp_ret|].
  apply wp_bind, wp_try, wpp_construct_at. intros r Hr Hi.
  destruct (copy_construct v).
  - eapply wp_mono; [apply IH| | |done].
    + intros ? m' Hm' c. rewrite Hm'. by obs.
    + intros m' Hm' c. rewrite Hm'. by obs.
  - apply wp_bind.
    apply (wp_for_up (fun _ m' => forall c, fields m' c = fields m c)); [done| |].
    + intros k m' _ Hm'. apply wpp_destroy_at. intros r' Hr' c. obs. apply Hm'.
    + intros m' Hm'. by apply wp_throw.
Qed.

Lemma bounded_run_op o m :
  buffer_capacity_bounded m ->
  wp (run_op o) (fun _ => buffer_capacity_bounded) buffer_capacity_bounded True m.
Proof.
  intros Hinv. destruct o as [this|this init|this other|this|this c]; simpl.
  - (* default construction *)
    apply wp_init_members. intros c sz cap p Hc ->.
    rewrite fields_put in Hc. case_decide; [|by eapply Hinv].
    injection Hc as <- <- _. lia.
  - (* construction from a list *)
    unfold ctor_init_list. set (n := N.of_nat (length init)).
    apply wp_bind.
    assert (forall p m1,
      (forall c, fields m1 c = fields m c) ->
      (p = buffer this -> n <= N) ->
      wp (init_members this n n p ;;;
          r <~ try_ (d <~ data this ;; uninitialized_copy init d 0) ;;
          match r with
          | Some _ => ret tt
          | None =>
              d <~ data this ;;
              (if bool_decide (d <> buffer this) then operator_delete d else ret tt) ;;;
              end_lifetime this ;;;
              throw
          end) (fun _ => buffer_capacity_bounded) buffer_capacity_bounded True m1) as Hrest.
    { intros p m1 Hm1 Hp. apply wp_bind, wp_init_members.
      set (m2 := put this _ m1).
      assert (buffer_capacity_bounded m2) as Hinv2.
      { intros c sz cap q Hc ->. unfold m2 in Hc.
        rewrite fields_put in Hc. case_decide.
        - injection Hc as <- <- Hpe. subst c. by apply Hp.
        - rewrite Hm1 in Hc. by eapply Hinv. }
      assert (forall m3, (forall c, fields m3 c = fields m2 c) ->
                         buffer_capacity_bounded (remove this m3)) as Hrm.
      { intros m3 Hm3 c sz cap q Hc ->. rewrite fields_remove in Hc.
        case_decide; [done|]. rewrite Hm3 in Hc. unfold m2 in Hc.
        rewrite fields_put, decide_False, Hm1 in Hc by done. by eapply Hinv. }
      apply wp_bind, wp_try, wp_bind, wpp_data. intros sz cap q Hq.
      eapply wp_mono; [apply fields_uninitialized_copy| | |done].
      - intros ? m3 Hm3. apply wp_ret. intros c sz' cap' q' Hc.
        rewrite Hm3 in Hc. by eapply Hinv2.
      - intros m3 Hm3. apply wp_bind, wpp_data. intros sz' cap' q' Hq'.
        apply wp_bind. case_bool_decide.
        + apply wpp_operator_delete. intros b ->.
          apply wp_bind. apply wp_throw. apply Hrm. intros c. obs. apply Hm3.
        + apply wp_ret, wp_bind. by apply wp_throw, Hrm. }
    destruct (N <? n) eqn:Hn.
    + apply wp_operator_new, Hrest; [intros c; by obs|done].
    + apply wp_ret, Hrest; [done|]. intros _. by apply N.ltb_ge.
  - (* copy construction *)
    unfold ctor_copy, ctor_default. apply wp_bind, wp_init_members.
    set (m1 := put this _ m).
    assert (buffer_capacity_bounded m1) as Hinv1.
    { intros c sz cap p Hc ->. unfold m1 in Hc.
      rewrite fields_put in Hc. case_decide; [|by eapply Hinv].
      injection Hc as <- <- _. lia. }
    assert (fields m1 this = Some (0, N, buffer this)) as Hf1.
    { unfold m1. by rewrite fields_put, decide_True. }
    pose proof (fp_start this N (buffer this) m1 0 Hf1) as HG1.
    apply wp_bind, wp_try.
    eapply (wp_mono _ (fun _ => footprint this N (buffer this) m1) _
              (footprint this N (buffer this) m1)).
    + apply wp_bind, wpp_size. intros sz cap p Hf.
      apply wp_bind, wpp_capacity. intros sz' cap' p' Hf'.
      apply wp_bind.
      eapply (wp_mono _ (fun _ => footprint this N (buffer this) m1) _
                (footprint this N (buffer this) m1));
        [destruct (cap' <? sz); [by apply footprint_reserve|by apply wp_ret]| |done|done].
      intros ? m2 HG2. apply wp_bind, wpp_size. intros sz2 cap2 p2 Hf2.
      apply (wp_for_up (fun _ => footprint this N (buffer this) m1)); [done| |done].
      intros k m3 _ HG3. unfold subscript.
      apply wp_bind, wp_bind, wpp_data. intros sz3 cap3 p3 Hf3.
      apply wpp_read_at. intros v. unfold push_back. apply wp_bind.
      eapply wp_mono; [by apply footprint_emplace_back| |done|done].
      intros ? m4 HG4. by apply wp_ret.
    + intros ? m2 HG2. apply wp_ret. by eapply bounded_footprint.
    + intros m2 HG2. apply wp_bind.
      eapply wp_mono; [by apply footprint_dtor| | |done].
      * intros ? m3 (m4 & HG4 & ->). apply wp_throw. by eapply bounded_remove.
      * intros m3 HG3. by eapply bounded_footprint.
    + done.
  - (* destruction *)
    destruct (fields m this) as [[[sz cap] p]|] eqn:Hf.
    + pose proof (fp_start this cap p m sz Hf) as HG.
      eapply wp_mono; [by apply footprint_dtor| | |done].
      * intros ? m3 (m4 & HG4 & ->). by eapply bounded_remove.
      * intros m3 HG3. by eapply bounded_footprint.
    + unfold wp, dtor, clear, size, bind, load.
      unfold fields in Hf. by destruct (objects m !! this).
  - (* a mutating call *)
    destruct (fields m this) as [[[sz cap] p]|] eqn:Hf.
    + eapply wp_mono; [by eapply exec_footprint| | |done].
      * intros ? m' HG. by eapply bounded_footprint.
      * intros m' HG. by eapply bounded_footprint.
    + unfold wp. by rewrite exec_no_object.
Qed.

(** C4, amended.  In every state a program reaches by constructing
    containers (default, from a literal sequence, by copy), calling
    [emplace_back], [push_back], [clear], [reserve], [resize] and element
    assignment on them, and destroying them, whether the calls return or
    throw: a container whose [m_data] is its own inline buffer has a
    capacity of at most [N]. *)
Theorem buffer_capacity_at_most_N m c sz cap p :
  reachable m -> fields m c = Some (sz, cap, p) -> p = buffer c -> cap <= N.
Proof.
  intros Hreach. revert c sz cap p.
  change (buffer_capacity_bounded m).
  induction Hreach as [|o m m' _ IH Hrun|o m m' _ IH Hrun].
  - intros c sz cap p Hc. unfold fields in Hc. simpl in Hc. by rewrite lookup_empty in Hc.
  - pose proof (bounded_run_op o m IH) as Hwp. unfold wp in Hwp. by rewrite Hrun in Hwp.
  - pose proof (bounded_run_op o m IH) as Hwp. unfold wp in Hwp. by rewrite Hrun in Hwp.
Qed.

(** ** Copy construction *)

Lemma holds_frame c vs cap pc this p m m' :
  holds m c vs cap pc -> frame this p m m' -> c <> this -> pc <> p ->
  holds m' c vs cap pc.
Proof.
  intros (Hf & Hcap & Hlen & r & Hr & Hrl & Htake) (Hf' & Hq' & _) Hc Hp.
  split_and!; try done.
  - by rewrite Hf'.
  - exists r. split_and!; try done. by apply Hq'.
Qed.

Lemma holds_subscript this vs cap p m i v :
  holds m this vs cap p -> vs !! i = Some v ->
  subscript this (N.of_nat i) m = Ok v m.
Proof.
  intros (Hf & _ & _ & r & Hr & _ & Htake) Hv.
  destruct (wp_returns (subscript this (N.of_nat i)) (fun a m' => a = v /\ m' = m) m)
    as (a & m' & -> & -> & ->); [|done].
  unfold subscript. apply wp_bind. eapply wp_data; [done|].
  eapply wp_read_at; [done| |done].
  rewrite Nat2N.id, <-(lookup_take_lt r (length vs)) by (by eapply lookup_lt_Some).
  by rewrite Htake, list_lookup_fmap, Hv.
Qed.

(** What the calls on one container leave alone in another one whose
    elements live in a different region. *)
Lemma runs_independent this other calls m m' :
  runs this m calls m' ->
  forall sz cap p szo capo po ro,
    fields m this = Some (sz, cap, p) ->
    fields m other = Some (szo, capo, po) ->
    region m po = Some ro ->
    this <> other -> p <> po ->
    fields m' other = Some (szo, capo, po) /\ region m' po = Some ro.
Proof.
  assert (forall c m m1 sz cap p szo capo po ro,
    exec this c m = Ok tt m1 \/ exec this c m = Throw m1 ->
    fields m this = Some (sz, cap, p) ->
    fields m other = Some (szo, capo, po) ->
    region m po = Some ro ->
    this <> other -> p <> po ->
    exists sz1 cap1 p1,
      fields m1 this = Some (sz1, cap1, p1) /\ p1 <> po /\
      fields m1 other = Some (szo, capo, po) /\ region m1 po = Some ro) as Hstep.
  { intros c m0 m1 sz cap p szo capo po ro Hrun Hf Hfo Hro Hne Hp.
    pose proof (exec_footprint this c m0 sz cap p Hf) as Hwp. unfold wp in Hwp.
    assert (footprint this cap p m0 m1) as [(Hf1 & Hq1 & _) (sz1 & cap1 & p1 & Hp1 & Hcase)].
    { by destruct Hrun as [Hrun|Hrun]; rewrite Hrun in Hwp. }
    exists sz1, cap1, p1. split_and!; [done| | |].
    - destruct Hcase as [[-> _]|Hfresh]; [done|].
      intros ->. by eapply (alive_not_fresh m0 po).
    - by rewrite Hf1.
    - by apply Hq1. }
  induction 1 as [m|c cs m m1 m2 Hrun _ IH|c cs m m1 m2 Hrun _ IH];
    intros sz cap p szo capo po ro Hf Hfo Hro Hne Hp; [done| |].
  - destruct (Hstep c m m1 sz cap p szo capo po ro) as (sz1 & cap1 & p1 & ? & ? & ? & ?);
      eauto.
  - destruct (Hstep c m m1 sz cap p szo capo po ro) as (sz1 & cap1 & p1 & ? & ? & ? & ?);
      eauto.
Qed.

Lemma wp_ctor_copy c d vs capc pc Q E U m :
  holds m c vs capc pc ->
  fields m d = None ->
  Forall (fun v => copy_throws v = false) vs ->
  N < 2 ^ size_type_bits ->
  N.of_nat (length vs) * Npos sizeof < 2 ^ size_type_bits ->
  (forall m' capd pd,
     holds m' d vs capd pd -> holds m' c vs capc pc -> pd <> pc -> Q tt m') ->
  wp (ctor_copy d c) Q E U m.
Proof.
  intros Hc Hd Hnothrow HN Hbytes HQ.
  pose proof Hc as (Hfc & Hcapc & Hlenc & rc & Hrc & Hrlc & Htakec).
  assert (c <> d) as Hcd by (intros ->; congruence).
  assert (region m (buffer_of d) = None) as Hbd.
  { unfold fields in Hd. simpl. by destruct (objects m !! d). }
  assert (pc <> buffer_of d) as Hpcd by (intros ->; congruence).
  unfold ctor_copy, ctor_default. apply wp_bind, wp_init_members.
  set (m1 := put d _ m).
  assert (holds m1 d [] N (buffer d)) as Hd1.
  { unfold m1. split_and!; [by obs|done|simpl; lia|].
    exists (replicate (N.to_nat N) None). obs.
    split_and!; [done| |done]. by rewrite length_replicate. }
  assert (holds m1 c vs capc pc) as Hc1.
  { unfold m1. split_and!; try done; [by obs|].
    exists rc. by obs. }
  apply wp_bind, wp_try.
  apply wp_bind. eapply wp_size; [apply Hc1|].
  apply wp_bind. eapply wp_capacity; [apply Hd1|].
  apply wp_bind.
  (* after the optional [reserve] *)
  assert (forall m2 capd pd,
    holds m2 d [] capd pd -> holds m2 c vs capc pc -> pd <> pc ->
    N.of_nat (length vs) <= capd ->
    wp (n <~ size c ;;
        for_up (N.to_nat n) 0 (fun i => v <~ subscript c i ;; push_back d v))
       (fun a m' => wp (match Some a with Some _ => ret tt | None => dtor d ;;; throw end)
                       Q E U m')
       (fun m' => wp (match @None unit with Some _ => ret tt | None => dtor d ;;; throw end)
                       Q E U m') U m2) as Hloop.
  { intros m2 capd pd Hd2 Hc2 Hpd Hcapd.
    apply wp_bind. eapply wp_size; [apply Hc2|]. rewrite Nat2N.id.
    apply (wp_for_up (fun k m' =>
      holds m' d (take k vs) capd pd /\ holds m' c vs capc pc)).
    - done.
    - intros k m3 Hk [Hd3 Hc3]. rewrite N.add_0_l.
      destruct (lookup_lt_is_Some_2 vs k Hk) as [v Hv].
      apply wp_bind.
      pose proof (holds_subscript c vs capc pc m3 k v Hc3 Hv) as Hsub.
      unfold wp at 1. rewrite Hsub.
      unfold push_back, copy_construct.
      rewrite (proj1 (Forall_lookup _ _) Hnothrow k v Hv).
      apply wp_bind.
      assert (length (take k vs) = k) as Hlk by (rewrite length_take_le; lia).
      apply (wp_emplace_back d (take k vs) capd pd); [done|rewrite Hlk; lia|].
      intros m4 cap' p' _ _ Hcase m5 Hd5 Hfr.
      rewrite Hlk, decide_False in Hcase by lia. destruct Hcase as (-> & -> & ->).
      apply wp_ret. split.
      + by rewrite (take_S_r _ _ _ Hv).
      + by eapply holds_frame.
    - intros m3 [Hd3 Hc3]. apply wp_ret. rewrite firstn_all in Hd3. by eapply HQ. }
  destruct (N.ltb_spec N (N.of_nat (length vs))) as [Hlt|Hge].
  - eapply (wp_reserve_grow d [] N (buffer d)); [done|done|done|done|].
    intros m2 Hd2 Hf2 Hq2 Hh2.
    assert (pc <> heap_ptr (length (heap m1))) as Hpc.
    { intros ->. destruct Hc1 as (_ & _ & _ & r & Hr & _). by rewrite region_fresh in Hr. }
    eapply Hloop; [done| |done|lia].
    destruct Hc1 as (Hfc1 & ? & ? & r1 & Hr1 & ? & ?).
    split_and!; try done; [by rewrite Hf2|].
    exists r1. split_and!; try done. by rewrite Hq2.
  - apply wp_ret. by eapply Hloop.
Qed.

(** C9.  Copying a container [c] that holds [vs] into a new object at
    [d] returns, with [d] holding the same elements, index by index,
    [c] as it was, and the elements of [d] in a region of its own.
    From then on, whatever sequence of mutating calls runs on [d],
    returning or throwing, the members and the storage of [c] stay as
    they are, and the other way round.  (The copies of the elements must
    not throw and the byte count of the block must fit [size_type].) *)
Theorem copy_is_independent c d vs capc pc m :
  holds m c vs capc pc ->
  fields m d = None ->
  Forall (fun v => copy_throws v = false) vs ->
  N < 2 ^ size_type_bits ->
  N.of_nat (length vs) * Npos sizeof < 2 ^ size_type_bits ->
  exists m' capd pd,
    ctor_copy d c m = Ok tt m' /\
    holds m' d vs capd pd /\ holds m' c vs capc pc /\ pd <> pc /\
    (forall i v, vs !! i = Some v ->
       subscript d (N.of_nat i) m' = Ok v m' /\ subscript c (N.of_nat i) m' = Ok v m') /\
    (forall calls m'', runs d m' calls m'' ->
       fields m'' c = fields m' c /\ region m'' pc = region m' pc) /\
    (forall calls m'', runs c m' calls m'' ->
       fields m'' d = fields m' d /\ region m'' pd = region m' pd).
Proof.
  intros Hc Hd Hnothrow HN Hbytes.
  destruct (wp_returns (ctor_copy d c)
    (fun _ m' => exists capd pd,
       holds m' d vs capd pd /\ holds m' c vs capc pc /\ pd <> pc) m)
    as ([] & m' & Hrun & capd & pd & Hd' & Hc' & Hp).
  { eapply wp_ctor_copy; try done. intros m' capd pd ???. by exists capd, pd. }
  exists m', capd, pd. split_and!; try done.
  - intros i v Hv. split; by eapply holds_subscript.
  - intros calls m'' Hruns.
    destruct Hd' as (Hfd & _ & _ & rd & Hrd & _).
    destruct Hc' as (Hfc & _ & _ & rc & Hrc & _).
    rewrite Hfc, Hrc.
    eapply (runs_independent d c); try done.
    intros ->. destruct Hc as (Hfc0 & _). congruence.
  - intros calls m'' Hruns.
    destruct Hd' as (Hfd & _ & _ & rd & Hrd & _).
    destruct Hc' as (Hfc & _ & _ & rc & Hrc & _).
    rewrite Hfd, Hrd.
    eapply (runs_independent c d); try done.
    intros ->. destruct Hc as (Hfc0 & _). congruence.
Qed.

(** ** What the size-based mode test does *)

(** The mode test of the code looks at [m_size] and [N] only. *)
Lemma uses_buffer_is_a_size_test this sz cap p m :
  fields m this = Some (sz, cap, p) -> uses_buffer this m = Ok (sz <=? N) m.
Proof.
  intros Hf.
  destruct (wp_returns (uses_buffer this) (fun a m' => a = (sz <=? N) /\ m' = m) m)
    as (a & m' & -> & -> & ->); [|done].
  by eapply wp_uses_buffer.
Qed.

(** The destructor of a container that holds its elements in a heap
    block returns with the block still allocated: after [clear] the
    size is 0, so the mode test says "buffer". *)
Lemma dtor_never_releases this vs cap b m :
  holds m this vs cap (heap_ptr b) ->
  exists m' r,
    dtor this m = Ok tt m' /\
    fields m' this = None /\
    region m' (heap_ptr b) = Some r /\
    length (heap m') = length (heap m).
Proof.
  intros Hholds.
  destruct (wp_returns (dtor this)
    (fun _ m' => exists r, fields m' this = None /\ region m' (heap_ptr b) = Some r /\
                           length (heap m') = length (heap m)) m)
    as ([] & m' & Hrun & r & H1 & H2 & H3); [|by exists m', r].
  unfold dtor. apply wp_bind. eapply wp_clear; [done|].
  intros m1 (Hf1 & _ & _ & r1 & Hr1 & _) _ _ Hh1.
  apply wp_bind. eapply wp_uses_buffer; [done|].
  change (N.of_nat (length [])) with 0.
  rewrite (proj2 (N.leb_le 0 N) (N.le_0_l N)). cbn [negb].
  apply wp_bind, wp_ret. unfold wp, end_lifetime.
  exists r1. by obs.
Qed.

(** X1.  [reserve] when the transfer of the first element throws: the call
    returns, and the container is empty in the new block. *)
Lemma reserve_swallows_failure_at_0 this v vs cap p n m :
  holds m this (v :: vs) cap p ->
  cap < n ->
  n * Npos sizeof < 2 ^ size_type_bits ->
  xfer_throws v = true ->
  exists m', reserve this n m = Ok tt m' /\ holds m' this [] n (heap_ptr (length (heap m))).
Proof.
  intros Hholds Hn Hbytes Hthrow.
  pose proof Hholds as (Hf & Hcap & Hlen & r & Hr & Hrl & Htake).
  set (tmp := heap_ptr (length (heap m))).
  assert (p <> tmp) as Hptmp.
  { intros ->. unfold tmp in Hr. by rewrite region_fresh in Hr. }
  destruct (wp_returns (reserve this n) (fun _ m' => holds m' this [] n tmp) m)
    as ([] & m' & Hrun & Hh); [|by exists m'].
  unfold reserve. apply wp_bind. eapply wp_capacity; [done|].
  rewrite (proj2 (N.leb_gt _ _) Hn).
  apply wp_bind, wp_operator_new. rewrite new_block_slots by done. fold tmp.
  apply wp_bind. eapply wp_size; [by obs|]. rewrite Nat2N.id.
  apply wp_bind. cbn [length try_for_up].
  apply wp_bind, wp_try, wp_bind. eapply wp_data; [by obs|].
  assert (r !! 0%nat = Some (Some v)) as Hr0.
  { rewrite <-(lookup_take_lt r (length (v :: vs))) by (simpl; lia). by rewrite Htake. }
  apply wp_bind. eapply wp_read_at; [by obs|done|].
  unfold move_if_noexcept_construct. rewrite Hthrow.
  eapply wp_construct_at_throw; [by obs|rewrite length_replicate; simpl in *; lia|].
  apply wp_ret. cbn [fst snd N.to_nat for_down].
  apply wp_bind, wp_ret.
  apply wp_bind. eapply (wp_clear this (v :: vs) cap p).
  { split_and!; try done. exists r. by obs. }
  intros m2 (Hf2 & _ & _ & r2 & Hr2 & _) _ Hq2 _.
  apply wp_bind. eapply wp_uses_buffer; [done|].
  change (N.of_nat (length [])) with 0.
  rewrite (proj2 (N.leb_le 0 N) (N.le_0_l N)). cbn [negb].
  apply wp_bind, wp_ret.
  apply wp_bind. eapply wp_set_m_data; [done|].
  apply wp_bind. eapply wp_set_m_capacity; [by known|].
  eapply wp_set_m_size; [by known|].
  split_and!; [by known|nia|simpl; lia|].
  exists (replicate (N.to_nat n) None). obs. rewrite Hq2 by done. obs.
  split_and!; [done|by rewrite length_replicate|done].
Qed.

(** ** [swap], exactly *)

Lemma swap_spec a b sva svb m :
  objects m !! a = Some sva ->
  objects m !! b = Some svb ->
  a <> b ->
  swap a b m = Ok tt (put b (swapped b svb sva) (put a (swapped a sva svb) m)).
Proof.
  intros Ha Hb Hab.
  assert (forall sa sb (o : gmap cid small_vector),
    <[b := sb]> (<[a := sa]> o) !! a = Some sa) as Hla.
  { intros. by rewrite lookup_insert_ne, lookup_insert_eq. }
  unfold swap, swapped, uses_buffer, swap_buffers, capacity, size, data,
    set_m_size, set_m_capacity, set_m_data, bind, load, store, ret, put.
  rewrite Ha, Hb.
  destruct (m_size sva <=? N), (m_size svb <=? N); simpl;
    repeat first
      [ rewrite Ha | rewrite Hb | rewrite lookup_insert_eq
      | rewrite lookup_insert_ne by done | progress simpl ];
    f_equal; f_equal; apply map_eq; intros ?;
    match goal with
    | |- _ !! ?c = _ =>
        destruct (decide (c = a)), (decide (c = b)); subst; try done;
        repeat first [ rewrite lookup_insert_eq | rewrite lookup_insert_ne by done ];
        done
    end.
Qed.

(** X2.  [swap] exchanges the sizes and the capacities of two containers,
    whatever their modes. *)
Lemma swap_exchanges_size_and_capacity a b sza capa pa szb capb pb m :
  fields m a = Some (sza, capa, pa) ->
  fields m b = Some (szb, capb, pb) ->
  a <> b ->
  exists m' pa' pb',
    swap a b m = Ok tt m' /\
    fields m' a = Some (szb, capb, pa') /\
    fields m' b = Some (sza, capa, pb').
Proof.
  intros (sva & Ha & <- & <- & <-)%fields_Some (svb & Hb & <- & <- & <-)%fields_Some Hab.
  eexists _, _, _. split; [by apply swap_spec|].
  rewrite !fields_put, (decide_False (P := a = b)), !decide_True by done. done.
Qed.

(** X3.  Two swaps in a row give back the state they started from when, on
    both sides, the size test agrees with where [m_data] points. *)
Lemma swap_twice_restores a b sva svb m :
  objects m !! a = Some sva ->
  objects m !! b = Some svb ->
  a <> b ->
  mode_agrees a sva -> mode_agrees b svb ->
  (swap a b ;;; swap a b) m = Ok tt m.
Proof.
  intros Ha Hb Hab Hma Hmb. unfold bind.
  rewrite (swap_spec a b sva svb m) by done.
  rewrite (swap_spec a b (swapped a sva svb) (swapped b svb sva)); [|simpl..|done].
  2: { by rewrite lookup_insert_ne, lookup_insert_eq. }
  2: { by rewrite lookup_insert_eq. }
  assert (swapped a (swapped a sva svb) (swapped b svb sva) = sva) as ->.
  { destruct sva as [sa ca pa ba], svb as [sb cb pb bb].
    unfold swapped, mode_agrees in *. simpl in *.
    destruct (sa <=? N), (sb <=? N); simpl;
      repeat case_bool_decide; simplify_eq; done. }
  assert (swapped b (swapped b svb sva) (swapped a sva svb) = svb) as ->.
  { destruct sva as [sa ca pa ba], svb as [sb cb pb bb].
    unfold swapped, mode_agrees in *. simpl in *.
    destruct (sa <=? N), (sb <=? N); simpl;
      repeat case_bool_decide; simplify_eq; done. }
  destruct m as [o h t]. unfold put. simpl in *. do 2 f_equal.
  apply map_eq. intros c.
  destruct (decide (c = b)) as [->|?]; [by rewrite lookup_insert_eq|].
  rewrite lookup_insert_ne by done.
  destruct (decide (c = a)) as [->|?]; [by rewrite lookup_insert_eq|].
  by rewrite !lookup_insert_ne by done.
Qed.

(** ** The move constructor, exactly *)

Lemma ctor_move_spec this other src m :
  objects m !! other = Some src ->
  this <> other ->
  ctor_move this other m =
  Ok tt (put other (moved_from other src) (put this (moved_to this src) m)).
Proof.
  intros Ho Hne.
  unfold ctor_move, moved_to, moved_from, uses_buffer, swap_buffers, capacity, size, data,
    init_members, set_m_size, set_m_capacity, set_m_data, bind, load, store, ret, put.
  repeat first
    [ rewrite Ho | rewrite lookup_insert_eq
    | rewrite lookup_insert_ne by done | progress simpl ].
  destruct (m_size src <=? N); simpl;
    repeat first
      [ rewrite Ho | rewrite lookup_insert_eq
      | rewrite lookup_insert_ne by done | progress simpl ];
    f_equal; f_equal; apply map_eq; intros ?;
    match goal with
    | |- _ !! ?c = _ =>
        destruct (decide (c = this)), (decide (c = other)); subst; try done;
        repeat first [ rewrite lookup_insert_eq | rewrite lookup_insert_ne by done ];
        done
    end.
Qed.

(** X4.  The source of a move is left empty, in its inline buffer, with
    capacity [N]. *)
Lemma ctor_move_resets_source this other sz cap p m :
  fields m other = Some (sz, cap, p) ->
  this <> other ->
  exists m',
    ctor_move this other m = Ok tt m' /\
    fields m' other = Some (0, N, buffer other) /\
    fields m' this = Some (sz, cap, if sz <=? N then buffer this else p).
Proof.
  intros (src & Ho & <- & <- & <-)%fields_Some Hne.
  eexists. split; [by apply ctor_move_spec|].
  rewrite !fields_put, (decide_False (P := this = other)), !decide_True by done.
  done.
Qed.

(** When the size test agrees with where the source's [m_data] points,
    the target holds the elements the source held, with its capacity,
    and a heap-backed source hands over its pointer. *)
Lemma ctor_move_transfers this other src vs cap p m :
  holds m other vs cap p ->
  objects m !! other = Some src ->
  length (m_buffer src) = N.to_nat N ->
  objects m !! this = None ->
  mode_agrees other src ->
  N < 2 ^ size_type_bits ->
  exists m',
    ctor_move this other m = Ok tt m' /\
    holds m' this vs cap (if bool_decide (p = buffer other) then buffer this else p) /\
    holds m' other [] N (buffer other).
Proof.
  intros (Hf & Hcap & Hlen & r & Hr & Hrl & Htake) Ho Hbuf Ht Hmode HN.
  assert (this <> other) as Hne by congruence.
  eexists. split; [by apply ctor_move_spec|].
  unfold fields in Hf. rewrite Ho in Hf. simpl in Hf. injection Hf as Hsz Hcp Hp.
  unfold mode_agrees in Hmode. rewrite Hp in Hmode.
  split.
  - split_and!; try done.
    + rewrite !fields_put, (decide_False (P := this = other)), !decide_True by done.
      unfold moved_to. simpl. rewrite Hmode, Hsz, Hcp, Hp. by case_bool_decide.
    + unfold moved_to. rewrite Hmode. case_bool_decide as Hpb.
      * exists (m_buffer src). rewrite !region_put.
        rewrite decide_False, decide_True by (unfold buffer; congruence).
        simpl. subst p. rewrite Hpb in Hr. simpl in Hr. rewrite Ho in Hr.
        by injection Hr as <-.
      * exists r. rewrite !region_put.
        rewrite !decide_False; [done| |done].
        intros ->. simpl in Hr. by rewrite Ht in Hr.
  - split_and!; [|done|simpl; lia|].
    + by rewrite !fields_put, decide_True.
    + eexists. rewrite !region_put, decide_True by done. simpl.
      split_and!; [done| |done].
      unfold moved_from. simpl. destruct (m_size src <=? N); [|lia].
      by rewrite length_replicate.
Qed.

(** ** Element access *)

Lemma trace_set_region p r m : trace (set_region p r m) = trace m.
Proof. by destruct p. Qed.

Lemma holds_lookup this vs cap p m r i v :
  holds m this vs cap p -> region m p = Some r -> vs !! i = Some v ->
  r !! i = Some (Some v).
Proof.
  intros (_ & _ & _ & r' & Hr' & _ & Htake) Hr Hv.
  rewrite Hr in Hr'. injection Hr' as <-.
  rewrite <-(lookup_take_lt r (length vs)) by (by eapply lookup_lt_Some).
  by rewrite Htake, list_lookup_fmap, Hv.
Qed.

(** X5.  Assigning through [operator[]] inside the bounds replaces the
    element at that index and nothing else: the other elements, the
    size, the capacity and the region stay, no element is built or
    destroyed, and reading the index back gives the value assigned. *)
Theorem subscript_assign_updates this vs cap p i v m :
  holds m this vs cap p ->
  (i < length vs)%nat ->
  exists m',
    subscript_assign this (N.of_nat i) v m = Ok tt m' /\
    holds m' this (<[i := v]> vs) cap p /\
    subscript this (N.of_nat i) m' = Ok v m' /\
    (forall c, c <> this -> fields m' c = fields m c) /\
    (forall q, q <> p -> region m' q = region m q) /\
    trace m' = trace m.
Proof.
  intros Hh Hi.
  destruct (lookup_lt_is_Some_2 vs i Hi) as [v0 Hv0].
  pose proof Hh as (Hf & Hcap & Hlen & r & Hr & Hrl & Htake).
  pose proof (holds_lookup _ _ _ _ _ _ _ _ Hh Hr Hv0) as Hri.
  set (m' := set_region p (<[i := Some v]> r) m).
  assert (subscript_assign this (N.of_nat i) v m = Ok tt m') as Hrun.
  { unfold subscript_assign, data, write_at, bind, load, ret.
    apply fields_Some in Hf as (sv & Hsv & _ & _ & <-).
    by rewrite Hsv, Hr, Nat2N.id, Hri. }
  assert (holds m' this (<[i := v]> vs) cap p) as Hh'.
  { unfold m', holds. rewrite length_insert. split_and!; [by obs|done|done|].
    exists (<[i := Some v]> r). obs. rewrite Hr.
    split_and!; [done|by rewrite length_insert|].
    by rewrite take_insert_lt, Htake, list_fmap_insert by lia. }
  exists m'. split_and!; try done.
  - eapply holds_subscript; [done|]. apply list_lookup_insert_eq. lia.
  - intros c Hc. unfold m'. by obs.
  - intros q Hq. unfold m'. by obs.
  - apply trace_set_region.
Qed.

(** ** [clear] and [reserve], for the caller *)

Lemma destroy_events_snoc p n :
  destroy_events p 0 (S n) = destroy_events p 0 n ++ [ev_destroy p (N.of_nat n)].
Proof. unfold destroy_events. by rewrite seq_S, fmap_app. Qed.

Lemma insert_raw_prefix (r : list (option T)) k :
  (k < length r)%nat ->
  <[k := None]> (replicate k None ++ drop k r) = replicate (S k) None ++ drop (S k) r.
Proof.
  intros Hk. destruct (lookup_lt_is_Some_2 r k Hk) as [x Hx].
  rewrite (drop_S r x k Hx), replicate_S_end, <-app_assoc.
  rewrite insert_app_r_alt by (rewrite length_replicate; lia).
  by rewrite length_replicate, Nat.sub_diag.
Qed.

Lemma wp_clear_trace this vs cap p r Q E U m :
  holds m this vs cap p ->
  region m p = Some r ->
  (forall m',
     holds m' this [] cap p ->
     (forall c, c <> this -> fields m' c = fields m c) ->
     (forall q, q <> p -> region m' q = region m q) ->
     heap m' !! length (heap m) = None ->
     region m' p = Some (replicate (length vs) None ++ drop (length vs) r) ->
     trace m' = trace m ++ destroy_events p 0 (length vs) ->
     Q tt m') ->
  wp (clear this) Q E U m.
Proof.
  intros Hh Hr HQ. pose proof Hh as (Hf & Hcap & Hlen & r0 & Hr0 & Hrl & Htake).
  rewrite Hr in Hr0. injection Hr0 as <-.
  unfold clear. apply wp_bind. eapply wp_size; [done|].
  rewrite Nat2N.id. apply wp_bind.
  apply (wp_for_up (fun k m' =>
    (forall c, fields m' c = fields m c) /\
    (forall q, q <> p -> region m' q = region m q) /\
    length (heap m') = length (heap m) /\
    region m' p = Some (replicate k None ++ drop k r) /\
    trace m' = trace m ++ destroy_events p 0 k)).
  - split_and!; try done. by rewrite app_nil_r.
  - intros k m' Hk (Hf' & Hq' & Hh' & Hr' & Ht').
    apply wp_bind. eapply wp_data; [by rewrite Hf'|].
    destruct (lookup_lt_is_Some_2 vs k Hk) as [v Hv].
    pose proof (holds_lookup _ _ _ _ _ _ _ _ Hh Hr Hv) as Hlk.
    eapply wp_destroy_at; [done| |].
    { rewrite N.add_0_l, Nat2N.id, lookup_app_r by (by rewrite length_replicate).
      by rewrite length_replicate, Nat.sub_diag, lookup_drop, Nat.add_0_r. }
    rewrite N.add_0_l, Nat2N.id.
    split_and!.
    + intros c. obs. apply Hf'.
    + intros q Hq. obs. by apply Hq'.
    + unfold log. cbn [heap]. by rewrite heap_length_set_region.
    + obs. rewrite Hr'. simpl. f_equal. apply insert_raw_prefix. lia.
    + unfold log. cbn [trace].
      rewrite trace_set_region, Ht', destroy_events_snoc. by rewrite <-app_assoc.
  - intros m' (Hf' & Hq' & Hh' & Hr' & Ht').
    eapply wp_set_m_size; [by rewrite Hf'|].
    apply HQ.
    + split_and!; simpl; try done; try lia.
      * obs. by rewrite Hf', Hf.
      * eexists. obs. split; [done|].
        rewrite length_app, length_replicate, length_drop. split; [lia|done].
    + intros c Hc. obs. apply Hf'.
    + intros q Hq. obs. by apply Hq'.
    + simpl. apply lookup_ge_None_2. lia.
    + by obs.
    + done.
Qed.

(** X6.  [clear] destroys the elements, first to last, and leaves the
    container empty with the capacity and the region it had: nothing is
    released, no other container and no other region is touched. *)
Theorem clear_destroys_all this vs cap p m :
  holds m this vs cap p ->
  exists m',
    clear this m = Ok tt m' /\
    holds m' this [] cap p /\
    (forall c, c <> this -> fields m' c = fields m c) /\
    (forall q, q <> p -> region m' q = region m q) /\
    (exists r', region m' p = Some r' /\ take (length vs) r' = replicate (length vs) None) /\
    trace m' = trace m ++ destroy_events p 0 (length vs).
Proof.
  intros Hh. pose proof Hh as (_ & _ & _ & r & Hr & _ & _).
  destruct (wp_returns (clear this) (fun _ m' =>
    holds m' this [] cap p /\
    (forall c, c <> this -> fields m' c = fields m c) /\
    (forall q, q <> p -> region m' q = region m q) /\
    (exists r', region m' p = Some r' /\ take (length vs) r' = replicate (length vs) None) /\
    trace m' = trace m ++ destroy_events p 0 (length vs)) m) as ([] & m' & Hrun & Hpost).
  2: { by exists m'. }
  eapply wp_clear_trace; [done..|].
  intros m' ? ? ? ? Hr' ?. split_and!; try done.
  eexists. split; [done|].
  by rewrite take_app_length' by (by rewrite length_replicate).
Qed.

Lemma wp_reserve this vs cap p n Q E U m :
  holds m this vs cap p ->
  (cap < n ->
   n * Npos sizeof < 2 ^ size_type_bits /\
   Forall (fun v => xfer_throws v = false) vs) ->
  (forall m' p',
     holds m' this vs (N.max cap n) p' ->
     (if decide (cap < n)
      then p' = heap_ptr (length (heap m)) /\
           length (heap m') = S (length (heap m)) /\
           (forall c, c <> this -> fields m' c = fields m c) /\
           (forall q, q <> p -> q <> p' -> region m' q = region m q)
      else p' = p /\ m' = m) ->
     Q tt m') ->
  wp (reserve this n) Q E U m.
Proof.
  intros Hh Hpre HQ.
  destruct (decide (cap < n)) as [Hlt|Hge].
  - destruct (Hpre Hlt) as [Hbytes Hx].
    eapply wp_reserve_grow; [done..|].
    intros m' Hh' Hf' Hq' Hl'. eapply HQ; [by rewrite N.max_r by lia|done].
  - pose proof Hh as (Hf & _).
    unfold reserve. apply wp_bind. eapply wp_capacity; [done|].
    rewrite (proj2 (N.leb_le n cap)) by lia. apply wp_ret.
    eapply HQ; [by rewrite N.max_l by lia|done].
Qed.

(** X7.  [reserve(n)] on a container whose elements can be transferred
    without an exception: afterwards the capacity is the larger of the
    old capacity and [n] and the elements are the same.  With
    [n <= capacity] the call does nothing; otherwise the elements live
    in one new block and no other container or region changed. *)
Theorem reserve_keeps_elements this vs cap p n m :
  holds m this vs cap p ->
  (cap < n ->
   n * Npos sizeof < 2 ^ size_type_bits /\
   Forall (fun v => xfer_throws v = false) vs) ->
  exists m' p',
    reserve this n m = Ok tt m' /\
    holds m' this vs (N.max cap n) p' /\
    if decide (cap < n)
    then p' = heap_ptr (length (heap m)) /\
         length (heap m') = S (length (heap m)) /\
         (forall c, c <> this -> fields m' c = fields m c) /\
         (forall q, q <> p -> q <> p' -> region m' q = region m q)
    else p' = p /\ m' = m.
Proof.
  intros Hh Hpre.
  destruct (wp_returns (reserve this n) (fun _ m' => exists p',
    holds m' this vs (N.max cap n) p' /\
    if decide (cap < n)
    then p' = heap_ptr (length (heap m)) /\
         length (heap m') = S (length (heap m)) /\
         (forall c, c <> this -> fields m' c = fields m c) /\
         (forall q, q <> p -> q <> p' -> region m' q = region m q)
    else p' = p /\ m' = m) m) as ([] & m' & Hrun & p' & Hpost).
  2: { by exists m', p'. }
  eapply wp_reserve; [done..|]. intros m' p' ? ?. by exists p'.
Qed.

(** ** [swap]: symmetry and the degenerate call *)

(** X8.  [a.swap(b)] and [b.swap(a)] end in the same state, whatever the two
    containers look like. *)
Theorem swap_is_symmetric a b m :
  is_Some (objects m !! a) -> is_Some (objects m !! b) -> a <> b ->
  swap a b m = swap b a m /\ swap_nonmember a b m = swap a b m /\
  exists m', swap a b m = Ok tt m'.
Proof.
  intros [sva Ha] [svb Hb] Hab.
  unfold swap_nonmember.
  rewrite (swap_spec a b sva svb), (swap_spec b a svb sva) by done.
  split_and!; [|done|by eexists].
  unfold put. simpl. do 2 f_equal. by apply insert_insert_ne.
Qed.

Lemma swap_same a m :
  is_Some (objects m !! a) -> swap a a m = Ok tt m.
Proof.
  intros [sv Ha].
  unfold swap, uses_buffer, swap_buffers, capacity, size, data,
    set_m_size, set_m_capacity, set_m_data, bind, load, store, ret, put, with_buffer.
  rewrite Ha. simpl. rewrite Ha. simpl.
  destruct (m_size sv <=? N); simpl;
    repeat first [ rewrite Ha | rewrite lookup_insert_eq | progress simpl ];
    destruct m as [o h t], sv as [sz cap p buf]; simpl in *;
    do 2 f_equal; rewrite ?insert_insert_eq; by apply insert_id.
Qed.

(** X9.  Swapping a container with itself, by the member or by the
    non-member function, changes nothing. *)
Theorem swap_with_itself a m :
  is_Some (objects m !! a) ->
  swap a a m = Ok tt m /\ swap_nonmember a a m = Ok tt m.
Proof. intros Ha. unfold swap_nonmember. by rewrite swap_same. Qed.

(** ** [resize] *)

Lemma destroy_events_cons p i n :
  destroy_events p i (S n) = ev_destroy p i :: destroy_events p (i + 1) n.
Proof.
  unfold destroy_events. simpl. rewrite N.add_0_r. f_equal.
  rewrite <-fmap_S_seq, <-list_fmap_compose. apply list_fmap_ext.
  intros _ k _. simpl. f_equal. lia.
Qed.

Lemma wp_resize_shrink this vs cap p n value Q E U m :
  holds m this vs cap p ->
  n <= N.of_nat (length vs) ->
  (forall m',
     holds m' this (take (N.to_nat n) vs) cap p ->
     (forall c, c <> this -> fields m' c = fields m c) ->
     (forall q, q <> p -> region m' q = region m q) ->
     length (heap m') = length (heap m) ->
     trace m' = trace m ++ reverse (destroy_events p n (length vs - N.to_nat n)) ->
     Q tt m') ->
  wp (resize this n value) Q E U m.
Proof.
  intros Hh Hn HQ. pose proof Hh as (Hf & Hcap & Hlen & _).
  unfold resize. apply wp_bind. eapply wp_size; [done|].
  destruct (N.eqb_spec n (N.of_nat (length vs))) as [->|Hne].
  { apply wp_ret, HQ; try done.
    - by rewrite Nat2N.id, firstn_all.
    - rewrite Nat2N.id, Nat.sub_diag. simpl. by rewrite app_nil_r. }
  rewrite (proj2 (N.ltb_ge _ _) Hn).
  set (len := length vs) in *.
  replace (N.to_nat (N.of_nat len - n)) with (len - N.to_nat n)%nat by lia.
  apply (wp_repeat_n (fun k m' =>
    holds m' this (take (len - k) vs) cap p /\
    (forall c, c <> this -> fields m' c = fields m c) /\
    (forall q, q <> p -> region m' q = region m q) /\
    length (heap m') = length (heap m) /\
    trace m' = trace m ++ reverse (destroy_events p (N.of_nat (len - k)) k))).
  - rewrite Nat.sub_0_r. unfold len. rewrite firstn_all.
    split_and!; try done. simpl. by rewrite app_nil_r.
  - intros k m' Hk (Hh' & Hf' & Hq' & Hl' & Ht').
    assert (length (take (len - k) vs) = len - k)%nat as Hlk.
    { rewrite length_take. fold len. lia. }
    pose proof Hh' as (Hfk & _ & _ & r' & Hr' & Hrl' & Htake').
    rewrite Hlk in Hfk, Htake'.
    destruct (lookup_lt_is_Some_2 vs (len - k - 1)) as [v Hv]; [fold len; lia|].
    assert (r' !! (len - k - 1)%nat = Some (Some v)) as Hslot.
    { eapply holds_lookup; [done..|]. rewrite lookup_take_lt by lia. done. }
    apply wp_bind. eapply wp_size; [done|].
    replace (N.of_nat (len - k) - 1) with (N.of_nat (len - k - 1)) by lia.
    apply wp_bind. eapply wp_set_m_size; [done|].
    apply wp_bind. eapply wp_data; [by known|].
    eapply wp_destroy_at; [by obs|by rewrite Nat2N.id|].
    rewrite Nat2N.id.
    assert (length (take (len - S k) vs) = len - S k)%nat as Hlk'.
    { rewrite length_take. fold len. lia. }
    replace (len - k - 1)%nat with (len - S k)%nat in * by lia.
    split_and!.
    + unfold holds. rewrite Hlk'. split_and!; [by known|done|lia|].
      exists (<[(len - S k)%nat := None]> r'). obs. rewrite Hr'.
      split_and!; [done|by rewrite length_insert|].
      rewrite take_insert_ge by lia.
      replace (take (len - S k) r') with (take (len - S k) (take (len - k) r'))
        by (rewrite take_take; f_equal; lia).
      rewrite Htake', <-fmap_take, take_take. do 2 f_equal. lia.
    + intros c Hc. obs. by apply Hf'.
    + intros q Hq. obs. by apply Hq'.
    + unfold log. cbn [heap]. rewrite heap_length_set_region. by simpl.
    + unfold log. cbn [trace]. rewrite trace_set_region. simpl. rewrite Ht'.
      rewrite destroy_events_cons, reverse_cons, app_assoc.
      by replace (N.of_nat (len - S k) + 1) with (N.of_nat (len - k)) by lia.
  - intros m' (Hh' & Hf' & Hq' & Hl' & Ht').
    replace (len - (len - N.to_nat n))%nat with (N.to_nat n) in * by lia.
    rewrite N2Nat.id in Ht'. by apply HQ.
Qed.

(** X10.  [resize(n, _)] with [n] at most the size keeps the first [n]
    elements and destroys the others, last to first; the capacity and
    the region stay, nothing is released, and nothing else changes. *)
Theorem resize_shrinks this vs cap p n value m :
  holds m this vs cap p ->
  n <= N.of_nat (length vs) ->
  exists m',
    resize this n value m = Ok tt m' /\
    holds m' this (take (N.to_nat n) vs) cap p /\
    (forall c, c <> this -> fields m' c = fields m c) /\
    (forall q, q <> p -> region m' q = region m q) /\
    length (heap m') = length (heap m) /\
    trace m' = trace m ++ reverse (destroy_events p n (length vs - N.to_nat n)).
Proof.
  intros Hh Hn.
  destruct (wp_returns (resize this n value) (fun _ m' =>
    holds m' this (take (N.to_nat n) vs) cap p /\
    (forall c, c <> this -> fields m' c = fields m c) /\
    (forall q, q <> p -> region m' q = region m q) /\
    length (heap m') = length (heap m) /\
    trace m' = trace m ++ reverse (destroy_events p n (length vs - N.to_nat n))) m)
    as ([] & m' & Hrun & Hpost); [|by exists m'].
  by eapply wp_resize_shrink.
Qed.

Lemma wp_conj {A} (f : M A) Q1 Q2 E1 E2 (U1 U2 : Prop) m :
  wp f Q1 E1 U1 m -> wp f Q2 E2 U2 m ->
  wp f (fun a m' => Q1 a m' /\ Q2 a m') (fun m' => E1 m' /\ E2 m') (U1 /\ U2) m.
Proof. unfold wp. by destruct (f m). Qed.

(** With room left, [emplace_back] builds the element in place: no
    allocation, one construction. *)
Lemma emplace_back_in_place this sz cap p mk m :
  fields m this = Some (sz, cap, p) ->
  sz < cap ->
  wp (emplace_back this mk)
     (fun _ m' => length (heap m') = length (heap m) /\
                  trace m' = trace m ++ [ev_construct p sz])
     (fun m' => m' = m) True m.
Proof.
  intros Hf Hroom. unfold emplace_back.
  apply wp_bind. eapply wp_size; [done|].
  apply wp_bind. eapply wp_capacity; [done|].
  rewrite (proj2 (N.leb_gt _ _) Hroom).
  apply wp_bind, wp_ret.
  apply wp_bind. eapply wp_data; [done|].
  apply wp_bind. eapply wp_size; [done|].
  apply wp_bind, wpp_construct_at. intros r Hr Hi.
  destruct mk as [v|]; [|done].
  apply wp_bind. eapply wp_data; [by known|].
  apply wp_bind. eapply wp_size; [by known|].
  apply wp_bind. eapply wp_set_m_size; [by known|].
  apply wp_ret. unfold log, set_scalars. cbn [heap trace].
  by rewrite heap_length_set_region, trace_set_region.
Qed.

Lemma wp_push_back this vs cap p v Q E U m :
  holds m this vs cap p ->
  N.of_nat (length vs) < cap ->
  copy_throws v = false ->
  (forall m',
     holds m' this (vs ++ [v]) cap p -> frame this p m m' ->
     length (heap m') = length (heap m) ->
     trace m' = trace m ++ [ev_construct p (N.of_nat (length vs))] ->
     Q tt m') ->
  wp (push_back this v) Q E U m.
Proof.
  intros Hh Hroom Hv HQ. unfold push_back, copy_construct. rewrite Hv.
  apply wp_bind.
  eapply wp_mono;
    [eapply wp_conj with
       (Q1 := fun _ m' => holds m' this (vs ++ [v]) cap p /\ frame this p m m')
       (E1 := fun _ => False) (U1 := U) (U2 := True)| | |].
  - eapply wp_emplace_back; [done|lia|].
    intros m1 cap' p' _ _ Hsame. rewrite decide_False in Hsame by lia.
    by destruct Hsame as (-> & -> & ->).
  - eapply emplace_back_in_place; [apply Hh|done].
  - intros ? m' [[Hh' Hfr] [Hl Ht]]. by apply wp_ret, HQ.
  - by intros ? [[] _].
  - by intros [? _].
Qed.

Lemma wp_resize_grow this vs cap p n value Q E U m :
  holds m this vs cap p ->
  N.of_nat (length vs) < n ->
  copy_throws value = false ->
  (cap < n ->
   n * Npos sizeof < 2 ^ size_type_bits /\
   Forall (fun v => xfer_throws v = false) vs) ->
  (forall m' p',
     holds m' this (vs ++ replicate (N.to_nat n - length vs) value) (N.max cap n) p' ->
     (if decide (cap < n)
      then p' = heap_ptr (length (heap m)) /\ length (heap m') = S (length (heap m))
      else p' = p /\ length (heap m') = length (heap m)) ->
     (forall c, c <> this -> fields m' c = fields m c) ->
     (forall q r, q <> p -> q <> p' -> region m q = Some r -> region m' q = Some r) ->
     Q tt m') ->
  wp (resize this n value) Q E U m.
Proof.
  intros Hh Hn Hv Hpre HQ. pose proof Hh as (Hf & Hcap & Hlen & _).
  unfold resize. apply wp_bind. eapply wp_size; [done|].
  rewrite (proj2 (N.eqb_neq _ _)) by lia.
  rewrite (proj2 (N.ltb_lt _ _) Hn).
  apply wp_bind. eapply wp_reserve; [done..|].
  intros m1 p1 Hh1 Hres.
  assert ((forall c, c <> this -> fields m1 c = fields m c) /\
          (forall q, q <> p -> q <> p1 -> region m1 q = region m q) /\
          (if decide (cap < n)
           then p1 = heap_ptr (length (heap m)) /\ length (heap m1) = S (length (heap m))
           else p1 = p /\ length (heap m1) = length (heap m))) as (Hf1 & Hq1 & Hp1).
  { destruct (decide (cap < n)).
    - by destruct Hres as (? & ? & ? & ?).
    - by destruct Hres as [-> ->]. }
  apply wp_bind. eapply wp_size; [apply Hh1|].
  replace (N.to_nat (n - N.of_nat (length vs))) with (N.to_nat n - length vs)%nat by lia.
  apply (wp_for_up (fun k m' =>
    holds m' this (vs ++ replicate k value) (N.max cap n) p1 /\ frame this p1 m1 m' /\
    length (heap m') = length (heap m1))).
  - rewrite app_nil_r. split_and!; [done|apply frame_refl|done].
  - intros k m' Hk (Hh' & Hfr' & Hl').
    eapply wp_push_back; [done| |done|].
    { rewrite length_app, length_replicate. lia. }
    intros m'' Hh'' Hfr'' Hl'' _. split_and!.
    + by rewrite <-app_assoc, <-replicate_S_end in Hh''.
    + eapply frame_trans; [done..|by left].
    + by rewrite Hl''.
  - intros m' (Hh' & (Hfo & Hro & _) & Hl'). eapply HQ; [done| | |].
    + rewrite Hl'. by destruct (decide (cap < n)).
    + intros c Hc. by rewrite Hfo, Hf1.
    + intros q r Hq Hq' Hr. apply Hro; [done|]. by rewrite Hq1.
Qed.

(** X11.  [resize(n, value)] with [n] above the size, when the copies of
    [value] and the transfers of the elements do not throw: the elements
    stay and [n - size] copies of [value] follow them; the capacity is
    the larger of the old capacity and [n], and the storage moves to a
    new block, the only allocation of the call, exactly when the old
    capacity is below [n]. *)
Theorem resize_grows this vs cap p n value m :
  holds m this vs cap p ->
  N.of_nat (length vs) < n ->
  copy_throws value = false ->
  (cap < n ->
   n * Npos sizeof < 2 ^ size_type_bits /\
   Forall (fun v => xfer_throws v = false) vs) ->
  exists m' p',
    resize this n value m = Ok tt m' /\
    holds m' this (vs ++ replicate (N.to_nat n - length vs) value) (N.max cap n) p' /\
    (if decide (cap < n)
     then p' = heap_ptr (length (heap m)) /\ length (heap m') = S (length (heap m))
     else p' = p /\ length (heap m') = length (heap m)) /\
    (forall c, c <> this -> fields m' c = fields m c) /\
    (forall q r, q <> p -> q <> p' -> region m q = Some r -> region m' q = Some r).
Proof.
  intros Hh Hn Hv Hpre.
  destruct (wp_returns (resize this n value) (fun _ m' => exists p',
    holds m' this (vs ++ replicate (N.to_nat n - length vs) value) (N.max cap n) p' /\
    (if decide (cap < n)
     then p' = heap_ptr (length (heap m)) /\ length (heap m') = S (length (heap m))
     else p' = p /\ length (heap m') = length (heap m)) /\
    (forall c, c <> this -> fields m' c = fields m c) /\
    (forall q r, q <> p -> q <> p' -> region m q = Some r -> region m' q = Some r)) m)
    as ([] & m' & Hrun & p' & Hpost); [|by exists m', p'].
  eapply wp_resize_grow; [done..|]. intros m' p' ? ? ? ?. by exists p'.
Qed.

(** X12.  Shrinking to [k] and growing back to the old size, both by
    [resize]: the first [k] elements are the old ones, the others are
    copies of the value given to the second call; the capacity and the
    region are the ones before, whatever the transfers of elements would
    do, since no reallocation takes place. *)
Theorem resize_shrink_then_grow this vs cap p k v0 v m :
  holds m this vs cap p ->
  (k <= length vs)%nat ->
  copy_throws v = false ->
  exists m',
    (resize this (N.of_nat k) v0 ;;; resize this (N.of_nat (length vs)) v) m = Ok tt m' /\
    holds m' this (take k vs ++ replicate (length vs - k) v) cap p /\
    length (heap m') = length (heap m).
Proof.
  intros Hh Hk Hv. pose proof Hh as (Hf & Hcap & Hlen & _).
  destruct (wp_returns
    (resize this (N.of_nat k) v0 ;;; resize this (N.of_nat (length vs)) v)
    (fun _ m' => holds m' this (take k vs ++ replicate (length vs - k) v) cap p /\
                 length (heap m') = length (heap m)) m)
    as ([] & m' & Hrun & Hpost); [|by exists m'].
  apply wp_bind. eapply wp_resize_shrink; [done|lia|].
  rewrite Nat2N.id. intros m1 Hh1 _ _ Hl1 _.
  assert (length (take k vs) = k) as Hlk by (rewrite length_take; lia).
  destruct (decide (k = length vs)) as [->|Hne].
  - rewrite Nat.sub_diag, app_nil_r.
    eapply wp_resize_shrink; [done|rewrite length_take; lia|].
    rewrite Nat2N.id, take_take, Nat.min_id. intros m2 ? _ _ Hl2 _.
    split; [done|]. by rewrite Hl2.
  - eapply wp_resize_grow; [done|rewrite Hlk; lia|done|lia|].
    intros m2 p2 Hh2 Hp2 _ _.
    rewrite decide_False in Hp2 by lia. destruct Hp2 as [-> Hl2].
    rewrite N.max_l, Nat2N.id, Hlk in Hh2 by lia. split; [done|]. by rewrite Hl2.
Qed.

(** ** Sequences of [push_back] *)

Lemma fresh_mono m m' p :
  fresh m' p -> (length (heap m) <= length (heap m'))%nat -> fresh m p.
Proof. intros (b & -> & Hb) Hle. exists b. split; [done|lia]. Qed.

Lemma wp_push_all this items :
  forall vs cap p Q E U m,
    holds m this vs cap p ->
    Forall (fun v => copy_throws v = false) items ->
    (cap < N.of_nat (length vs + length items) ->
     2 * N.of_nat (length vs + length items) * Npos sizeof < 2 ^ size_type_bits /\
     Forall (fun v => xfer_throws v = false) (vs ++ items)) ->
    (forall m' cap' p',
       holds m' this (vs ++ items) cap' p' ->
       (if decide (N.of_nat (length vs + length items) <= cap)
        then cap' = cap /\ p' = p /\ length (heap m') = length (heap m) /\
             trace m' =
               trace m ++ construct_events p (N.of_nat (length vs)) (length items)
        else cap' < 2 * N.of_nat (length vs + length items) /\ fresh m p') ->
       frame this p m m' ->
       Q tt m') ->
    wp (push_all this items) Q E U m.
Proof.
  induction items as [|v items IH]; intros vs cap p Q E U m Hh Hcopy Hpre HQ.
  { pose proof Hh as (_ & _ & Hlen & _). simpl in *.
    apply wp_ret. eapply HQ; [by rewrite app_nil_r| |apply frame_refl].
    rewrite decide_True by lia. unfold construct_events. simpl.
    by rewrite app_nil_r. }
  apply Forall_cons in Hcopy as [Hv Hcopy].
  pose proof Hh as (_ & _ & Hlen & _).
  cbn [push_all length] in *. apply wp_bind.
  assert (length (vs ++ [v]) + length items = length vs + S (length items))%nat as Hlen'.
  { rewrite length_app. simpl. lia. }
  destruct (decide (N.of_nat (length vs) < cap)) as [Hroom|Hfull].
  - eapply wp_push_back; [done..|].
    intros m1 Hh1 Hfr1 Hl1 Ht1.
    eapply IH; [done|done| |].
    { rewrite Hlen', <-app_assoc. done. }
    intros m' cap' p' Hh' Hcase Hfr'. rewrite Hlen', <-app_assoc in *.
    eapply HQ; [done| |by eapply frame_trans; [..|left]].
    destruct (decide (_ <= cap)) as [Hle|Hgt].
    + destruct Hcase as (-> & -> & -> & ->). split_and!; [done..|].
      rewrite Ht1, construct_events_cons, <-app_assoc. simpl. do 3 f_equal.
      rewrite length_app. simpl. lia.
    + destruct Hcase as [? Hfresh]. split; [done|].
      eapply fresh_mono; [done|]. apply Hfr1.
  - assert (N.of_nat (length vs) = cap) as Hfull' by lia.
    destruct Hpre as [Hbytes Hxfer]; [lia|].
    apply Forall_app in Hxfer as Hx2. destruct Hx2 as [Hxvs _].
    unfold push_back, copy_construct. rewrite Hv. apply wp_bind.
    eapply wp_emplace_back; [done| |].
    { intros _. split; [nia|done]. }
    intros m1 cap1 p1 _ _ Hgrow. rewrite decide_True in Hgrow by done.
    destruct Hgrow as [-> ->].
    intros m2 Hh2 Hfr2. apply wp_ret.
    eapply IH; [done|done| |].
    { rewrite Hlen', <-app_assoc. done. }
    intros m' cap' p' Hh' Hcase Hfr'. rewrite Hlen', <-app_assoc in *.
    eapply HQ; [done| |].
    + rewrite decide_False by lia.
      destruct (decide (_ <= N.max 1 (2 * cap))) as [Hle|Hgt].
      * destruct Hcase as (-> & -> & _). split; [lia|]. by eexists.
      * destruct Hcase as [? Hfresh]. split; [done|].
        eapply fresh_mono; [done|]. apply Hfr2.
    + eapply frame_trans; [done..|]. right. apply region_fresh.
Qed.

(** X13.  Appending the elements of a list, one [push_back] each, when the
    copies do not throw: the container holds the old elements followed
    by the new ones.  While the capacity suffices nothing is allocated
    and the storage stays where it is, so pointers to the elements stay
    good; past the capacity (with elements that can be transferred and
    byte counts that fit [size_type]) the storage is a newer heap block
    whose capacity is less than twice the final size. *)
Theorem push_all_appends this items vs cap p m :
  holds m this vs cap p ->
  Forall (fun v => copy_throws v = false) items ->
  (cap < N.of_nat (length vs + length items) ->
   2 * N.of_nat (length vs + length items) * Npos sizeof < 2 ^ size_type_bits /\
   Forall (fun v => xfer_throws v = false) (vs ++ items)) ->
  exists m' cap' p',
    push_all this items m = Ok tt m' /\
    holds m' this (vs ++ items) cap' p' /\
    (if decide (N.of_nat (length vs + length items) <= cap)
     then cap' = cap /\ p' = p /\ length (heap m') = length (heap m) /\
             trace m' =
               trace m ++ construct_events p (N.of_nat (length vs)) (length items)
     else cap' < 2 * N.of_nat (length vs + length items) /\ fresh m p') /\
    frame this p m m'.
Proof.
  intros Hh Hcopy Hpre.
  destruct (wp_returns (push_all this items) (fun _ m' => exists cap' p',
    holds m' this (vs ++ items) cap' p' /\
    (if decide (N.of_nat (length vs + length items) <= cap)
     then cap' = cap /\ p' = p /\ length (heap m') = length (heap m) /\
             trace m' =
               trace m ++ construct_events p (N.of_nat (length vs)) (length items)
     else cap' < 2 * N.of_nat (length vs + length items) /\ fresh m p') /\
    frame this p m m') m) as ([] & m' & Hrun & cap' & p' & Hpost).
  2: { by exists m', cap', p'. }
  eapply wp_push_all; [done..|]. intros m' cap' p' ? ? ?. by exists cap', p'.
Qed.

(** X14.  A default-constructed container is empty, has capacity [N] and
    lives in its inline buffer; up to [N] appends leave it there, with
    capacity [N], and allocate nothing. *)
Theorem fresh_container_stays_inline this items m :
  N < 2 ^ size_type_bits ->
  (length items <= N.to_nat N)%nat ->
  Forall (fun v => copy_throws v = false) items ->
  exists m0 m',
    ctor_default this m = Ok tt m0 /\
    holds m0 this [] N (buffer this) /\
    push_all this items m0 = Ok tt m' /\
    holds m' this items N (buffer this) /\
    length (heap m') = length (heap m) /\
    trace m' = trace m ++ construct_events (buffer this) 0 (length items).
Proof.
  intros HN Hlen Hcopy.
  set (m0 := put this (mk_small_vector 0 N (buffer this) (replicate (N.to_nat N) None)) m).
  assert (holds m0 this [] N (buffer this)) as Hh0.
  { unfold m0. split_and!; [by obs|done|simpl; lia|].
    exists (replicate (N.to_nat N) None). obs.
    split_and!; [done|by rewrite length_replicate|done]. }
  destruct (wp_returns (push_all this items) (fun _ m' =>
    holds m' this items N (buffer this) /\
    length (heap m') = length (heap m) /\
    trace m' = trace m ++ construct_events (buffer this) 0 (length items)) m0)
    as ([] & m' & Hrun & Hpost); [|by exists m0, m'].
  eapply wp_push_all; [done|done|simpl; lia|].
  simpl. intros m' cap' p' Hh' Hcase _.
  rewrite decide_True in Hcase by lia. by destruct Hcase as (-> & -> & -> & ->).
Qed.

(** ** [reserve] when a transfer throws *)

Lemma wp_operator_delete b r (Q : unit -> memory -> Prop) E U m :
  region m (heap_ptr b) = Some r ->
  Q tt (log (ev_delete b) (release b m)) ->
  wp (operator_delete (heap_ptr b)) Q E U m.
Proof. unfold wp, operator_delete. by intros ->. Qed.

Lemma construct_events_snoc p n :
  construct_events p 0 (S n) = construct_events p 0 n ++ [ev_construct p (N.of_nat n)].
Proof. unfold construct_events. by rewrite seq_S, fmap_app. Qed.

Lemma wp_reserve_throws this pre v post cap p n Q E U m :
  holds m this (pre ++ v :: post) cap p ->
  cap < n ->
  n * Npos sizeof < 2 ^ size_type_bits ->
  pre <> [] ->
  Forall (fun x => xfer_throws x = false) pre ->
  xfer_throws v = true ->
  (forall m',
     holds m' this (pre ++ v :: post) cap p ->
     (forall c, fields m' c = fields m c) ->
     (forall q, q <> heap_ptr (length (heap m)) -> region m' q = region m q) ->
     region m' (heap_ptr (length (heap m))) = None ->
     trace m' =
       trace m ++
       ev_new (length (heap m)) (n * Npos sizeof) ::
       construct_events (heap_ptr (length (heap m))) 0 (length pre) ++
       [ev_destroy (heap_ptr (length (heap m))) (N.of_nat (length pre) - 1);
        ev_delete (length (heap m))] ->
     E m') ->
  wp (reserve this n) Q E U m.
Proof.
  intros Hholds Hn Hbytes Hpre Hnothrow Hthrow HE.
  set (vs := pre ++ v :: post) in *.
  pose proof Hholds as (Hf & Hcap & Hlen & r & Hr & Hrl & Htake).
  set (b := length (heap m)). set (tmp := heap_ptr b).
  assert (p <> tmp) as Hptmp.
  { intros ->. unfold tmp, b in Hr. by rewrite region_fresh in Hr. }
  assert (length pre < length vs)%nat as Hk.
  { unfold vs. rewrite length_app. simpl. lia. }
  assert (0 < length pre)%nat as Hk0 by (destruct pre; [done|simpl; lia]).
  assert (vs !! length pre = Some v) as Hv by (by apply list_lookup_middle).
  unfold reserve. apply wp_bind. eapply wp_capacity; [done|].
  rewrite (proj2 (N.leb_gt _ _) Hn).
  apply wp_bind, wp_operator_new. rewrite wrap_small, N.div_mul by done.
  fold b tmp.
  apply wp_bind. eapply wp_size; [by obs|]. rewrite Nat2N.id.
  apply wp_bind.
  apply (wp_try_for_up (fun k m' =>
    (k <= length pre)%nat /\
    (forall c, fields m' c = fields m c) /\
    (forall q, q <> tmp -> region m' q = region m q) /\
    region m' tmp = Some ((Some <$> take k vs) ++ replicate (N.to_nat n - k) None) /\
    trace m' = trace m ++ ev_new b (n * Npos sizeof) :: construct_events tmp 0 k)).
  - split_and!.
    + lia.
    + intros c. by obs.
    + intros q Hq. by obs.
    + obs. by rewrite Nat.sub_0_r.
    + done.
  - intros k m' _ (Hkle & Hf' & Hq' & Htmp & Ht').
    rewrite N.add_0_l.
    destruct (lookup_lt_is_Some_2 vs k ltac:(lia)) as [x Hx].
    apply wp_bind. eapply wp_data; [by rewrite Hf'|].
    apply wp_bind. eapply wp_read_at.
    { by rewrite Hq'. }
    { rewrite Nat2N.id. by eapply holds_lookup. }
    unfold move_if_noexcept_construct.
    destruct (decide (k = length pre)) as [->|Hne].
    + (* the transfer that throws; the handler runs *)
      assert (x = v) as -> by congruence. rewrite Hthrow.
      eapply wp_construct_at_throw; [done| |].
      { rewrite Nat2N.id, length_app, length_fmap, length_take_le, length_replicate; lia. }
      cbn [fst snd]. rewrite Nat2N.id.
      destruct (length pre) as [|k] eqn:Hlp; [lia|].
      cbn [for_down].
      rewrite (proj2 (N.ltb_lt 0 (N.of_nat (S k)))) by lia.
      apply wp_bind. apply wp_bind. apply wp_bind.
      destruct (lookup_lt_is_Some_2 vs k ltac:(lia)) as [y Hy].
      eapply wp_destroy_at; [done| |].
      { replace (N.to_nat (N.of_nat (S k) - 1)) with k by lia.
        rewrite lookup_app_l by (rewrite length_fmap, length_take_le; lia).
        by rewrite list_lookup_fmap, lookup_take_lt, Hy by lia. }
      apply wp_bind. eapply wp_operator_delete; [by obs; rewrite Htmp|].
      apply wp_throw, HE; fold b tmp.
      * split_and!; [by known|done|done|].
        exists r. obs. rewrite Hq' by done. done.
      * intros c. by known.
      * intros q Hq. obs. by apply Hq'.
      * by obs.
      * unfold log, release. cbn [trace]. rewrite trace_set_region, Ht'.
        by rewrite <-!app_assoc.
    + rewrite (proj1 (Forall_lookup _ _) Hnothrow k x).
      2: { unfold vs in Hx. by rewrite lookup_app_l in Hx by lia. }
      eapply wp_construct_at; [done| |].
      { rewrite Nat2N.id, length_app, length_fmap, length_take_le, length_replicate; lia. }
      rewrite Nat2N.id. split_and!.
      * lia.
      * intros c. obs. apply Hf'.
      * intros q Hq. obs. by apply Hq'.
      * obs. rewrite Htmp. simpl. f_equal. apply insert_live_prefix; [done|lia].
      * unfold log. cbn [trace]. rewrite trace_set_region, Ht', construct_events_snoc.
        by rewrite <-app_assoc.
  - intros m' (Hkle & _). lia.
Qed.

(** X15.  When the transfer of the element at an index [k >= 1] throws,
    [reserve] throws: the container is as before, with its elements,
    capacity and region, and the new block is released.  Of the [k]
    copies built in the new block only the last one was destroyed
    before the block went back to the free store. *)
Theorem reserve_transfer_throws this pre v post cap p n m :
  holds m this (pre ++ v :: post) cap p ->
  cap < n ->
  n * Npos sizeof < 2 ^ size_type_bits ->
  pre <> [] ->
  Forall (fun x => xfer_throws x = false) pre ->
  xfer_throws v = true ->
  exists m',
    reserve this n m = Throw m' /\
    holds m' this (pre ++ v :: post) cap p /\
    (forall c, fields m' c = fields m c) /\
    (forall q, q <> heap_ptr (length (heap m)) -> region m' q = region m q) /\
    region m' (heap_ptr (length (heap m))) = None /\
    trace m' =
      trace m ++
      ev_new (length (heap m)) (n * Npos sizeof) ::
      construct_events (heap_ptr (length (heap m))) 0 (length pre) ++
      [ev_destroy (heap_ptr (length (heap m))) (N.of_nat (length pre) - 1);
       ev_delete (length (heap m))].
Proof.
  intros Hholds Hn Hbytes Hpre Hnothrow Hthrow.
  destruct (wp_throws (reserve this n) (fun m' =>
    holds m' this (pre ++ v :: post) cap p /\
    (forall c, fields m' c = fields m c) /\
    (forall q, q <> heap_ptr (length (heap m)) -> region m' q = region m q) /\
    region m' (heap_ptr (length (heap m))) = None /\
    trace m' =
      trace m ++
      ev_new (length (heap m)) (n * Npos sizeof) ::
      construct_events (heap_ptr (length (heap m))) 0 (length pre) ++
      [ev_destroy (heap_ptr (length (heap m))) (N.of_nat (length pre) - 1);
       ev_delete (length (heap m))]) m)
    as (m' & Hrun & Hpost); [|by exists m'].
  by eapply wp_reserve_throws.
Qed.

(** ** The initializer-list constructor when a copy throws *)

Lemma wp_destroy_prefix p (ws : list T) Q E U :
  forall m r,
    region m p = Some r ->
    take (length ws) r = Some <$> ws ->
    (forall m',
       region m' p = Some (replicate (length ws) None ++ drop (length ws) r) ->
       (forall c, fields m' c = fields m c) ->
       (forall q, q <> p -> region m' q = region m q) ->
       length (heap m') = length (heap m) ->
       trace m' = trace m ++ destroy_events p 0 (length ws) ->
       Q tt m') ->
    wp (for_up (length ws) 0 (fun k => destroy_at p k)) Q E U m.
Proof.
  intros m r Hr Htake HQ.
  assert (length ws <= length r)%nat as Hlen.
  { rewrite <-(length_fmap Some ws), <-Htake, length_take. lia. }
  apply (wp_for_up (fun k m' =>
    (forall c, fields m' c = fields m c) /\
    (forall q, q <> p -> region m' q = region m q) /\
    length (heap m') = length (heap m) /\
    region m' p = Some (replicate k None ++ drop k r) /\
    trace m' = trace m ++ destroy_events p 0 k)).
  - split_and!; try done. by rewrite app_nil_r.
  - intros k m' Hk (Hf' & Hq' & Hh' & Hr' & Ht').
    destruct (lookup_lt_is_Some_2 ws k Hk) as [v Hv].
    assert (r !! k = Some (Some v)) as Hlk.
    { rewrite <-(lookup_take_lt r (length ws)) by lia.
      by rewrite Htake, list_lookup_fmap, Hv. }
    eapply wp_destroy_at; [done| |].
    { rewrite N.add_0_l, Nat2N.id, lookup_app_r by (by rewrite length_replicate).
      by rewrite length_replicate, Nat.sub_diag, lookup_drop, Nat.add_0_r. }
    rewrite N.add_0_l, Nat2N.id.
    split_and!.
    + intros c. obs. apply Hf'.
    + intros q Hq. obs. by apply Hq'.
    + unfold log. cbn [heap]. by rewrite heap_length_set_region.
    + obs. rewrite Hr'. simpl. f_equal. apply insert_raw_prefix. lia.
    + unfold log. cbn [trace].
      rewrite trace_set_region, Ht', destroy_events_snoc. by rewrite <-app_assoc.
  - intros m' (Hf' & Hq' & Hh' & Hr' & Ht'). by apply HQ.
Qed.

Lemma wp_uninitialized_copy_throws p v post Q E U :
  forall pre ws rest m,
    region m p = Some ((Some <$> ws) ++ rest) ->
    (length pre < length rest)%nat ->
    Forall (fun x => copy_throws x = false) pre ->
    copy_throws v = true ->
    (forall m',
       region m' p =
         Some (replicate (length ws + length pre) None ++ drop (length pre) rest) ->
       (forall c, fields m' c = fields m c) ->
       (forall q, q <> p -> region m' q = region m q) ->
       length (heap m') = length (heap m) ->
       trace m' =
         trace m ++ construct_events p (N.of_nat (length ws)) (length pre) ++
         destroy_events p 0 (length ws + length pre) ->
       E m') ->
    wp (uninitialized_copy (pre ++ v :: post) p (N.of_nat (length ws))) Q E U m.
Proof.
  induction pre as [|x pre IH]; intros ws rest m Hr Hlen Hnothrow Hv HE.
  - cbn [app uninitialized_copy]. apply wp_bind, wp_try.
    unfold copy_construct. rewrite Hv.
    eapply wp_construct_at_throw; [done| |].
    { rewrite Nat2N.id, length_app, length_fmap. simpl in Hlen. lia. }
    rewrite Nat2N.id. apply wp_bind.
    eapply wp_destroy_prefix; [done| |].
    { by rewrite take_app_length' by (by rewrite length_fmap). }
    intros m' Hr' Hf' Hq' Hl' Ht'. apply wp_throw, HE; try done.
    + rewrite Hr', Nat.add_0_r. simpl.
      by rewrite drop_app_length' by (by rewrite length_fmap).
    + by rewrite Ht', Nat.add_0_r.
  - apply Forall_cons in Hnothrow as [Hx Hnothrow].
    cbn [app uninitialized_copy]. apply wp_bind, wp_try.
    unfold copy_construct. rewrite Hx.
    destruct rest as [|s rest]; [simpl in Hlen; lia|].
    eapply wp_construct_at; [done| |].
    { rewrite Nat2N.id, length_app, length_fmap. simpl. lia. }
    replace (N.of_nat (length ws) + 1) with (N.of_nat (length (ws ++ [x])))
      by (rewrite length_app; simpl; lia).
    eapply (IH (ws ++ [x]) rest); [|simpl in Hlen; lia|done|done|].
    { obs. rewrite Hr. simpl. f_equal.
      rewrite Nat2N.id, insert_app_r_alt by (by rewrite length_fmap).
      rewrite length_fmap, Nat.sub_diag, fmap_app, <-app_assoc. done. }
    intros m' Hr' Hf' Hq' Hl' Ht'.
    rewrite length_app in Hr', Ht'. simpl in Hr', Ht'.
    replace (length ws + 1 + length pre)%nat with (length ws + S (length pre))%nat
      in Hr', Ht' by lia.
    apply HE.
    + done.
    + intros c. rewrite Hf'. by obs.
    + intros q Hq. rewrite Hq' by done. by obs.
    + rewrite Hl'. unfold log. cbn [heap]. by rewrite heap_length_set_region.
    + rewrite Ht'. unfold log. cbn [trace length].
      rewrite trace_set_region, construct_events_cons, <-!app_assoc. simpl.
      do 3 f_equal. f_equal. lia.
Qed.

(** X16.  When the copy of one element of the list throws, the constructor
    throws and leaves nothing behind: the copies built before are
    destroyed, the block allocated for a list longer than [N] is back in
    the free store, no object exists at [this], and no other container
    or region changed. *)
Theorem ctor_init_list_throws this pre v post m :
  Forall (fun x => copy_throws x = false) pre ->
  copy_throws v = true ->
  N.of_nat (length (pre ++ v :: post)) * Npos sizeof < 2 ^ size_type_bits ->
  exists m',
    ctor_init_list this (pre ++ v :: post) m = Throw m' /\
    fields m' this = None /\
    (forall c, c <> this -> fields m' c = fields m c) /\
    (forall q r, q <> buffer this -> region m q = Some r -> region m' q = Some r) /\
    region m' (heap_ptr (length (heap m))) = None /\
    let L := N.of_nat (length (pre ++ v :: post)) in
    let p := if decide (N < L) then heap_ptr (length (heap m)) else buffer this in
    trace m' =
      trace m ++
      (if decide (N < L) then [ev_new (length (heap m)) (L * Npos sizeof)] else []) ++
      construct_events p 0 (length pre) ++
      destroy_events p 0 (length pre) ++
      (if decide (N < L) then [ev_delete (length (heap m))] else []).
Proof.
  intros Hnothrow Hv Hbytes.
  set (init := pre ++ v :: post) in *.
  set (L := N.of_nat (length init)) in *.
  assert (length pre < length init)%nat as Hk.
  { unfold init. rewrite length_app. simpl. lia. }
  cbn zeta.
  destruct (wp_throws (ctor_init_list this init) (fun m' =>
    fields m' this = None /\
    (forall c, c <> this -> fields m' c = fields m c) /\
    (forall q r, q <> buffer this -> region m q = Some r -> region m' q = Some r) /\
    region m' (heap_ptr (length (heap m))) = None /\
    trace m' =
      trace m ++
      (if decide (N < L) then [ev_new (length (heap m)) (L * Npos sizeof)] else []) ++
      construct_events
        (if decide (N < L) then heap_ptr (length (heap m)) else buffer this) 0 (length pre) ++
      destroy_events
        (if decide (N < L) then heap_ptr (length (heap m)) else buffer this) 0 (length pre) ++
      (if decide (N < L) then [ev_delete (length (heap m))] else [])) m)
    as (m' & Hrun & Hpost); [|by exists m'].
  unfold ctor_init_list. fold L. apply wp_bind.
  destruct (N.ltb_spec N L) as [Hlt|Hge].
  - rewrite !decide_True by done.
    apply wp_operator_new. rewrite wrap_small, N.div_mul by done.
    set (b := length (heap m)). set (tmp := heap_ptr b).
    apply wp_bind, wp_init_members.
    apply wp_bind, wp_try, wp_bind.
    eapply wp_data; [by obs|].
    eapply (wp_uninitialized_copy_throws tmp v post _ _ _ pre [] (replicate (N.to_nat L) None)).
    + by obs.
    + rewrite length_replicate. lia.
    + done.
    + done.
    + intros m1 Hr1 Hf1 Hq1 Hl1 Ht1.
      apply wp_bind. eapply wp_data; [by rewrite Hf1; obs|].
      rewrite bool_decide_true by done.
      apply wp_bind. eapply wp_operator_delete; [done|].
      apply wp_bind. unfold wp at 1, end_lifetime. apply wp_throw.
      split_and!.
      * by obs.
      * intros c Hc. obs. rewrite Hf1. by obs.
      * intros q r Hq Hr. 
        assert (q <> tmp) as Hqt.
        { intros ->. unfold tmp, b in Hr. by rewrite region_fresh in Hr. }
        obs. rewrite Hq1 by done. by obs.
      * by obs.
      * unfold remove, log, release. cbn [trace]. rewrite Ht1.
        unfold log, put, alloc. cbn [trace length Nat.add].
        by rewrite <-!app_assoc.
  - rewrite !decide_False by lia.
    apply wp_ret.
    apply wp_bind, wp_init_members.
    apply wp_bind, wp_try, wp_bind.
    eapply wp_data; [by obs|].
    eapply (wp_uninitialized_copy_throws (buffer this) v post _ _ _ pre []
              (replicate (N.to_nat N) None)).
    + by obs.
    + rewrite length_replicate. lia.
    + done.
    + done.
    + intros m1 Hr1 Hf1 Hq1 Hl1 Ht1.
      apply wp_bind. eapply wp_data; [by rewrite Hf1; obs|].
      rewrite bool_decide_false by (by intros []).
      apply wp_bind, wp_ret.
      apply wp_bind. unfold wp at 1, end_lifetime. apply wp_throw.
      split_and!.
      * by obs.
      * intros c Hc. obs. rewrite Hf1. by obs.
      * intros q r Hq Hr. obs. rewrite Hq1 by done. by obs.
      * obs. rewrite Hq1 by done. obs. apply region_fresh.
      * unfold remove. cbn [trace]. rewrite Ht1.
        unfold put. cbn [trace length Nat.add]. by rewrite app_nil_r.
Qed.

(** ** The copy constructor when a copy throws *)


(** ** The destructor *)

(** X18.  The destructor destroys the elements, first to last, and ends the
    object's lifetime.  It calls [::operator delete] for no container:
    [clear] has set [m_size] to [0] by the time [uses_buffer] is asked,
    so the block of a heap-backed container stays allocated. *)
Theorem dtor_destroys_elements this vs cap p m :
  holds m this vs cap p ->
  exists m',
    dtor this m = Ok tt m' /\
    fields m' this = None /\
    (forall c, c <> this -> fields m' c = fields m c) /\
    (forall q, q <> p -> q <> buffer this -> region m' q = region m q) /\
    (p <> buffer this -> exists r', region m' p = Some r') /\
    trace m' = trace m ++ destroy_events p 0 (length vs).
Proof.
  intros Hh. pose proof Hh as (_ & _ & _ & r & Hr & _ & _).
  destruct (wp_returns (dtor this) (fun _ m' =>
    fields m' this = None /\
    (forall c, c <> this -> fields m' c = fields m c) /\
    (forall q, q <> p -> q <> buffer this -> region m' q = region m q) /\
    (p <> buffer this -> exists r', region m' p = Some r') /\
    trace m' = trace m ++ destroy_events p 0 (length vs)) m)
    as ([] & m' & Hrun & Hpost); [|by exists m'].
  unfold dtor. apply wp_bind. eapply wp_clear_trace; [done..|].
  intros m1 Hh1 Hf1 Hq1 _ Hr1 Ht1.
  apply wp_bind. eapply wp_uses_buffer; [apply Hh1|].
  change (N.of_nat (length [])) with 0.
  rewrite (proj2 (N.leb_le 0 N) (N.le_0_l N)). cbn [negb].
  apply wp_bind, wp_ret. unfold wp, end_lifetime.
  split_and!.
  - by obs.
  - intros c Hc. obs. by apply Hf1.
  - intros q Hq Hq'. obs. by apply Hq1.
  - intros Hp. eexists. obs. done.
  - done.
Qed.

(** ** [swap] on containers whose size test tells the truth *)

Lemma swap_exchanges this other us vs capa capb pa pb Q E U m :
  holds m this us capa pa ->
  holds m other vs capb pb ->
  this <> other -> pa <> pb ->
  placed this (N.of_nat (length us)) pa ->
  placed other (N.of_nat (length vs)) pb ->
  (forall m' pa' pb',
     holds m' this vs capb pa' ->
     holds m' other us capa pb' ->
     placed this (N.of_nat (length vs)) pa' ->
     placed other (N.of_nat (length us)) pb' ->
     pa' = (if N.of_nat (length vs) <=? N then buffer this else pb) ->
     pb' = (if N.of_nat (length us) <=? N then buffer other else pa) ->
     pa' <> pb' ->
     (forall c, c <> this -> c <> other -> fields m' c = fields m c) ->
     (forall q, q <> buffer this -> q <> buffer other -> region m' q = region m q) ->
     heap m' = heap m ->
     trace m' = trace m ->
     Q tt m') ->
  wp (swap this other) Q E U m.
Proof.
  intros Ha Hb Hab Hpp Hpa Hpb HQ.
  destruct Ha as (Hfa & Hca & Hla & ra & Hra & Hrla & Hta).
  destruct Hb as (Hfb & Hcb & Hlb & rb & Hrb & Hrlb & Htb).
  apply fields_Some in Hfa as (sva & Hsva & Hsa & Hcapa & Hda).
  apply fields_Some in Hfb as (svb & Hsvb & Hsb & Hcapb & Hdb).
  unfold wp. rewrite (swap_spec this other sva svb) by done.
  set (m' := put other _ _).
  assert (forall c, c <> this -> c <> other -> fields m' c = fields m c) as Hfo.
  { intros c ? ?. unfold m'. by obs. }
  assert (forall q, q <> buffer this -> q <> buffer other -> region m' q = region m q) as Hqo.
  { intros q ? ?. unfold m'. by obs. }
  assert (fields m' this =
          Some (N.of_nat (length vs), capb, m_data (swapped this sva svb))) as Hfa'.
  { unfold m'. obs. simpl. by rewrite Hsb, Hcapb. }
  assert (fields m' other =
          Some (N.of_nat (length us), capa, m_data (swapped other svb sva))) as Hfb'.
  { unfold m'. obs. simpl. by rewrite Hsa, Hcapa. }
  assert (region m' (buffer this) = Some (m_buffer (swapped this sva svb))) as Hba'.
  { unfold m', buffer. obs. done. }
  assert (region m' (buffer other) = Some (m_buffer (swapped other svb sva))) as Hbb'.
  { unfold m', buffer. by obs. }
  assert (region m (buffer this) = Some (m_buffer sva)) as Hba.
  { simpl. by rewrite Hsva. }
  assert (region m (buffer other) = Some (m_buffer svb)) as Hbb.
  { simpl. by rewrite Hsvb. }
  unfold placed in Hpa, Hpb.
  unfold swapped in Hfa', Hfb', Hba', Hbb'. rewrite Hsa, Hsb in Hfa', Hfb', Hba', Hbb'.
  cbn [m_data m_buffer] in Hfa', Hfb', Hba', Hbb'. rewrite Hda, Hdb in Hfa', Hfb'.
  clear Hda Hdb Hsa Hsb Hcapa Hcapb.
  destruct (N.of_nat (length us) <=? N) eqn:Hux,
           (N.of_nat (length vs) <=? N) eqn:Huy;
    cbn [andb orb] in Hfa', Hfb', Hba', Hbb'.
  - (* both inline *)
    subst pa pb. rewrite Hba in Hra. rewrite Hbb in Hrb. simplify_eq.
    eapply (HQ m' (buffer this) (buffer other)); try done.
    + split_and!; try done. exists (m_buffer svb). done.
    + split_and!; try done. exists (m_buffer sva). done.
    + unfold placed. by rewrite Huy.
    + unfold placed. by rewrite Hux.
  - (* this inline, other on the heap *)
    subst pa. destruct Hpb as [bb ->]. rewrite Hba in Hra. simplify_eq.
    eapply (HQ m' (heap_ptr bb) (buffer other)); try done.
    + split_and!; try done. exists rb. by rewrite Hqo.
    + split_and!; try done. exists (m_buffer sva). done.
    + unfold placed. rewrite Huy. by eexists.
    + unfold placed. by rewrite Hux.
  - (* this on the heap, other inline *)
    subst pb. destruct Hpa as [ba ->]. rewrite Hbb in Hrb. simplify_eq.
    eapply (HQ m' (buffer this) (heap_ptr ba)); try done.
    + split_and!; try done. exists (m_buffer svb). done.
    + split_and!; try done. exists ra. by rewrite Hqo.
    + unfold placed. by rewrite Huy.
    + unfold placed. rewrite Hux. by eexists.
  - (* both on the heap *)
    destruct Hpa as [ba ->]. destruct Hpb as [bb ->].
    eapply (HQ m' (heap_ptr bb) (heap_ptr ba)); try done.
    + split_and!; try done. exists rb. by rewrite Hqo.
    + split_and!; try done. exists ra. by rewrite Hqo.
    + unfold placed. rewrite Huy. by eexists.
    + unfold placed. rewrite Hux. by eexists.
Qed.

(** X20.  [a.swap(b)] on two containers whose size tests tell the truth: each
    ends up with the elements and the capacity of the other, again with
    a truthful size test, and no third container or heap block is
    touched.  Elements in heap blocks are not moved, elements in the
    inline buffers trade places. *)
Theorem swap_exchanges_contents a b us vs capa capb pa pb m :
  holds m a us capa pa ->
  holds m b vs capb pb ->
  a <> b -> pa <> pb ->
  placed a (N.of_nat (length us)) pa ->
  placed b (N.of_nat (length vs)) pb ->
  exists m' pa' pb',
    swap a b m = Ok tt m' /\
    holds m' a vs capb pa' /\
    holds m' b us capa pb' /\
    placed a (N.of_nat (length vs)) pa' /\
    placed b (N.of_nat (length us)) pb' /\
    pa' <> pb' /\
    (forall c, c <> a -> c <> b -> fields m' c = fields m c) /\
    (forall q, q <> buffer a -> q <> buffer b -> region m' q = region m q) /\
    heap m' = heap m /\ trace m' = trace m.
Proof.
  intros Ha Hb Hab Hpp Hpa Hpb.
  destruct (wp_returns (swap a b) (fun _ m' => exists pa' pb',
    holds m' a vs capb pa' /\
    holds m' b us capa pb' /\
    placed a (N.of_nat (length vs)) pa' /\
    placed b (N.of_nat (length us)) pb' /\
    pa' <> pb' /\
    (forall c, c <> a -> c <> b -> fields m' c = fields m c) /\
    (forall q, q <> buffer a -> q <> buffer b -> region m' q = region m q) /\
    heap m' = heap m /\ trace m' = trace m) m)
    as ([] & m' & Hrun & pa' & pb' & Hpost); [|by exists m', pa', pb'].
  eapply swap_exchanges; [done..|]. intros m' pa' pb' ? ? ? ? _ _ ? ? ? ? ?.
  by exists pa', pb'.
Qed.

(** ** Copy assignment *)

Lemma holds_preserved e ws cap p m m' :
  holds m e ws cap p ->
  fields m' e = fields m e ->
  (forall r, region m p = Some r -> region m' p = Some r) ->
  holds m' e ws cap p.
Proof.
  intros (Hf & ? & ? & r & Hr & ? & ?) Hf' Hr'.
  split_and!; try done; [by rewrite Hf'|]. exists r. auto.
Qed.

Lemma wp_ctor_copy_frame c d vs capc pc Q E U m :
  holds m c vs capc pc ->
  fields m d = None ->
  Forall (fun v => copy_throws v = false) vs ->
  N < 2 ^ size_type_bits ->
  N.of_nat (length vs) * Npos sizeof < 2 ^ size_type_bits ->
  (forall m' pd,
     holds m' d vs (N.max N (N.of_nat (length vs))) pd ->
     pd = (if N.of_nat (length vs) <=? N then buffer d else heap_ptr (length (heap m))) ->
     (forall e, e <> d -> fields m' e = fields m e) ->
     (forall q r, q <> buffer d -> region m q = Some r -> region m' q = Some r) ->
     Q tt m') ->
  wp (ctor_copy d c) Q E U m.
Proof.
  intros Hc Hd Hnothrow HN Hbytes HQ.
  pose proof Hc as (Hfc & Hcapc & Hlenc & rc & Hrc & Hrlc & Htakec).
  assert (c <> d) as Hcd by (intros ->; congruence).
  assert (region m (buffer_of d) = None) as Hbd.
  { unfold fields in Hd. simpl. by destruct (objects m !! d). }
  assert (pc <> buffer_of d) as Hpcd by (intros ->; congruence).
  unfold ctor_copy, ctor_default. apply wp_bind, wp_init_members.
  set (m1 := put d _ m).
  assert (holds m1 d [] N (buffer d)) as Hd1.
  { unfold m1. split_and!; [by obs|done|simpl; lia|].
    exists (replicate (N.to_nat N) None). obs.
    split_and!; [done| |done]. by rewrite length_replicate. }
  assert (forall e, e <> d -> fields m1 e = fields m e) as Hf1.
  { intros e He. unfold m1. by obs. }
  assert (forall q r, q <> buffer d -> region m q = Some r -> region m1 q = Some r) as Hq1.
  { intros q r Hq Hr. unfold m1. by obs. }
  apply wp_bind, wp_try.
  apply wp_bind. eapply wp_size; [by rewrite Hf1|].
  apply wp_bind. eapply wp_capacity; [apply Hd1|].
  apply wp_bind.
  (* after the optional [reserve] *)
  assert (forall m2 capd pd,
    holds m2 d [] capd pd ->
    (forall e, e <> d -> fields m2 e = fields m e) ->
    (forall q r, q <> buffer d -> region m q = Some r -> region m2 q = Some r) ->
    (forall q r, q <> buffer d -> region m q = Some r -> q <> pd) ->
    N.of_nat (length vs) <= capd ->
    capd = N.max N (N.of_nat (length vs)) ->
    pd = (if N.of_nat (length vs) <=? N then buffer d else heap_ptr (length (heap m))) ->
    wp (n <~ size c ;;
        for_up (N.to_nat n) 0 (fun i => v <~ subscript c i ;; push_back d v))
       (fun a m' => wp (match Some a with Some _ => ret tt | None => dtor d ;;; throw end)
                       Q E U m')
       (fun m' => wp (match @None unit with Some _ => ret tt | None => dtor d ;;; throw end)
                       Q E U m') U m2) as Hloop.
  { intros m2 capd pd Hd2 Hf2 Hq2 Hpd Hcapd Hcapd' Hpd'.
    apply wp_bind. eapply wp_size; [by rewrite Hf2|]. rewrite Nat2N.id.
    apply (wp_for_up (fun k m' =>
      holds m' d (take k vs) capd pd /\
      (forall e, e <> d -> fields m' e = fields m e) /\
      (forall q r, q <> buffer d -> region m q = Some r -> region m' q = Some r))).
    - done.
    - intros k m3 Hk (Hd3 & Hf3 & Hq3). rewrite N.add_0_l.
      destruct (lookup_lt_is_Some_2 vs k Hk) as [v Hv].
      assert (holds m3 c vs capc pc) as Hc3.
      { eapply holds_preserved; [done|by apply Hf3|]. intros r. by apply Hq3. }
      apply wp_bind.
      pose proof (holds_subscript c vs capc pc m3 k v Hc3 Hv) as Hsub.
      unfold wp at 1. rewrite Hsub.
      unfold push_back, copy_construct.
      rewrite (proj1 (Forall_lookup _ _) Hnothrow k v Hv).
      apply wp_bind.
      assert (length (take k vs) = k) as Hlk by (rewrite length_take_le; lia).
      apply (wp_emplace_back d (take k vs) capd pd); [done|rewrite Hlk; lia|].
      intros m4 cap' p' _ _ Hcase m5 Hd5 (Hfo & Hro & _).
      rewrite Hlk, decide_False in Hcase by lia. destruct Hcase as (-> & -> & ->).
      apply wp_ret. split_and!.
      + by rewrite (take_S_r _ _ _ Hv).
      + intros e He. by rewrite Hfo, Hf3.
      + intros q r Hq Hr. apply Hro; [by eapply Hpd|by eapply Hq3].
    - intros m3 (Hd3 & Hf3 & Hq3). apply wp_ret. rewrite firstn_all in Hd3.
      eapply HQ; [by rewrite <-Hcapd'|done..]. }
  destruct (N.ltb_spec N (N.of_nat (length vs))) as [Hlt|Hge].
  - eapply (wp_reserve_grow d [] N (buffer d)); [done|done|done|done|].
    intros m2 Hd2 Hf2 Hq2 Hh2.
    assert (forall q r, region m q = Some r -> q <> heap_ptr (length (heap m))) as Hold.
    { intros q r Hr ->. by rewrite region_fresh in Hr. }
    eapply Hloop; [done| | | |lia|lia|].
    + intros e He. by rewrite Hf2, Hf1.
    + intros q r Hq Hr. rewrite Hq2; [by apply Hq1|done|by eapply Hold].
    + intros q r Hq Hr. by eapply Hold.
    + by rewrite (proj2 (N.leb_gt _ _) Hlt).
  - apply wp_ret. eapply Hloop; [done|done|done| |done|lia|].
    + by intros q r Hq _.
    + by rewrite (proj2 (N.leb_le _ _) Hge).
Qed.

Lemma wp_dtor this vs cap p Q E U m :
  holds m this vs cap p ->
  (forall m',
     fields m' this = None ->
     (forall c, c <> this -> fields m' c = fields m c) ->
     (forall q, q <> p -> q <> buffer this -> region m' q = region m q) ->
     trace m' = trace m ++ destroy_events p 0 (length vs) ->
     Q tt m') ->
  wp (dtor this) Q E U m.
Proof.
  intros Hh HQ. pose proof Hh as (_ & _ & _ & r & Hr & _ & _).
  unfold dtor. apply wp_bind. eapply wp_clear_trace; [done..|].
  intros m1 Hh1 Hf1 Hq1 _ _ Ht1.
  apply wp_bind. eapply wp_uses_buffer; [apply Hh1|].
  change (N.of_nat (length [])) with 0.
  rewrite (proj2 (N.leb_le 0 N) (N.le_0_l N)). cbn [negb].
  apply wp_bind, wp_ret. unfold wp, end_lifetime. apply HQ.
  - by obs.
  - intros c Hc. obs. by apply Hf1.
  - intros q Hq Hq'. obs. by apply Hq1.
  - done.
Qed.

Lemma placed_not_foreign this other sz p :
  placed this sz p -> this <> other -> p <> buffer other.
Proof.
  unfold placed, buffer. destruct (sz <=? N).
  - intros -> ? [=]. done.
  - by intros [b ->] _.
Qed.

(** X21.  [x = y;] for containers whose size tests tell the truth and whose
    element copies do not throw: afterwards [x] holds copies of the
    elements of [y], with the capacity the copy constructor gave the
    parameter, and again a truthful size test; [y] is as before and the
    parameter object is gone.  [y] may be [x] itself. *)
Theorem assign_copy_spec this y arg us vs capx capy px py m :
  holds m this us capx px ->
  holds m y vs capy py ->
  placed this (N.of_nat (length us)) px ->
  placed y (N.of_nat (length vs)) py ->
  (y <> this -> px <> py) ->
  fields m arg = None ->
  Forall (fun v => copy_throws v = false) vs ->
  N < 2 ^ size_type_bits ->
  N.of_nat (length vs) * Npos sizeof < 2 ^ size_type_bits ->
  exists m' p',
    assign_copy this y arg m = Ok tt m' /\
    holds m' this vs (N.max N (N.of_nat (length vs))) p' /\
    placed this (N.of_nat (length vs)) p' /\
    (y <> this -> holds m' y vs capy py) /\
    fields m' arg = None.
Proof.
  intros Hx Hy Hpx Hpy Hxy Harg Hnothrow HN Hbytes.
  assert (this <> arg) as Hta.
  { intros ->. destruct Hx as (Hf & _). congruence. }
  assert (y <> arg) as Hya.
  { intros ->. destruct Hy as (Hf & _). congruence. }
  assert (forall q r, region m q = Some r -> q <> buffer arg) as Halive.
  { intros q r Hr ->. unfold fields in Harg. simpl in Hr.
    by destruct (objects m !! arg). }
  destruct (wp_returns (assign_copy this y arg) (fun _ m' => exists p',
    holds m' this vs (N.max N (N.of_nat (length vs))) p' /\
    placed this (N.of_nat (length vs)) p' /\
    (y <> this -> holds m' y vs capy py) /\
    fields m' arg = None) m) as ([] & m' & Hrun & p' & Hpost); [|by exists m', p'].
  unfold assign_copy, operator_assign.
  apply wp_bind. eapply wp_ctor_copy_frame; [done..|].
  intros m1 pd Hd1 Hpd Hf1 Hq1.
  assert (holds m1 this us capx px) as Hx1.
  { destruct Hx as (? & ? & ? & r & Hr & ? & ?).
    eapply holds_preserved; [by split_and!; [..|exists r]|by apply Hf1|].
    intros r' Hr'. apply Hq1; [by eapply Halive|done]. }
  assert (placed arg (N.of_nat (length vs)) pd) as Hpd'.
  { unfold placed. rewrite Hpd. destruct (_ <=? N); [done|by eexists]. }
  assert (px <> pd) as Hxd.
  { destruct Hx as (_ & _ & _ & r & Hr & _). rewrite Hpd.
    destruct (_ <=? N); [by eapply Halive|].
    intros ->. by rewrite region_fresh in Hr. }
  apply wp_bind. eapply swap_exchanges; [done..|].
  intros m2 pa' pb' Hx2 Ha2 Hpa' Hpb' Hpa Hpb Hab Hf2 Hq2 _ _.
  eapply wp_dtor; [done|].
  intros m3 Hf3 Hfo3 Hq3 _.
  assert (pa' <> buffer arg) as Hpa_arg by (by eapply placed_not_foreign).
  exists pa'. split_and!; [|done| |done].
  - eapply holds_preserved; [done|by apply Hfo3|].
    intros r Hr. by rewrite Hq3.
  - intros Hne. specialize (Hxy Hne).
    assert (py <> buffer this) as Hpyx by (by eapply placed_not_foreign).
    assert (py <> buffer arg) as Hpya by (by eapply placed_not_foreign).
    eapply holds_preserved; [done|by rewrite Hfo3, Hf2, Hf1|].
    intros r Hr.
    assert (py <> pb') as Hpyb.
    { rewrite Hpb. destruct (N.of_nat (length us) <=? N); [done|congruence]. }
    rewrite Hq3, Hq2 by done. by apply Hq1.
Qed.

(** ** Move assignment *)

Lemma wp_ctor_move_frame this other vs cap p Q E U m :
  holds m other vs cap p ->
  placed other (N.of_nat (length vs)) p ->
  fields m this = None ->
  (forall m' pd,
     holds m' this vs cap pd ->
     pd = (if N.of_nat (length vs) <=? N then buffer this else p) ->
     fields m' other = Some (0, N, buffer other) ->
     (forall e, e <> this -> e <> other -> fields m' e = fields m e) ->
     (forall q, q <> buffer this -> q <> buffer other -> region m' q = region m q) ->
     heap m' = heap m ->
     trace m' = trace m ->
     Q tt m') ->
  wp (ctor_move this other) Q E U m.
Proof.
  intros Hh Hp Hthis HQ.
  pose proof Hh as (Hf & Hcap & Hlen & r & Hr & Hrl & Htake).
  assert (this <> other) as Hne by (intros ->; congruence).
  apply fields_Some in Hf as (src & Hsrc & Hsz & Hcp & Hd).
  unfold wp. rewrite (ctor_move_spec this other src) by done.
  set (m' := put other _ _).
  assert (fields m' this =
          Some (N.of_nat (length vs), cap,
                if N.of_nat (length vs) <=? N then buffer this else p)) as Hf'.
  { unfold m'. obs. unfold moved_to. simpl. by rewrite Hsz, Hcp, Hd. }
  assert (region m' (buffer this) =
          Some (if N.of_nat (length vs) <=? N then m_buffer src
                else replicate (N.to_nat N) None)) as Hb'.
  { unfold m', buffer. obs. unfold moved_to. simpl. by rewrite Hsz. }
  assert (forall q, q <> buffer this -> q <> buffer other -> region m' q = region m q) as Hq'.
  { intros q ? ?. unfold m'. by obs. }
  eapply HQ; try done.
  - split_and!; try done. unfold placed in Hp.
    destruct (N.of_nat (length vs) <=? N).
    + subst p. exists r. split_and!; try done. rewrite Hb'.
      simpl in Hr. rewrite Hsrc in Hr. done.
    + destruct Hp as [b ->]. exists r. by split_and!.
  - unfold m'. by obs.
  - intros e ? ?. unfold m'. by obs.
Qed.

(** X22.  [x = std::move(y);] for two distinct containers whose size tests
    tell the truth: afterwards [x] holds the elements of [y], with the
    capacity of [y], in the block of [y] when they were on the heap and
    in its own inline buffer otherwise; [y] is empty with capacity [N];
    the parameter object is gone.  No element constructor runs: the only
    events are the destructions of the elements [x] held before. *)
Theorem assign_move_spec this y arg us vs capx capy px py m :
  holds m this us capx px ->
  holds m y vs capy py ->
  placed this (N.of_nat (length us)) px ->
  placed y (N.of_nat (length vs)) py ->
  y <> this -> px <> py ->
  fields m arg = None ->
  exists m' p',
    assign_move this y arg m = Ok tt m' /\
    holds m' this vs capy p' /\
    p' = (if N.of_nat (length vs) <=? N then buffer this else py) /\
    fields m' y = Some (0, N, buffer y) /\
    fields m' arg = None /\
    trace m' =
      trace m ++
      destroy_events (if N.of_nat (length us) <=? N then buffer arg else px) 0 (length us).
Proof.
  intros Hx Hy Hpx Hpy Hne Hxy Harg.
  assert (this <> arg) as Hta.
  { intros ->. destruct Hx as (Hf & _). congruence. }
  assert (y <> arg) as Hya.
  { intros ->. destruct Hy as (Hf & _). congruence. }
  destruct (wp_returns (assign_move this y arg) (fun _ m' => exists p',
    holds m' this vs capy p' /\
    p' = (if N.of_nat (length vs) <=? N then buffer this else py) /\
    fields m' y = Some (0, N, buffer y) /\
    fields m' arg = None /\
    trace m' =
      trace m ++
      destroy_events (if N.of_nat (length us) <=? N then buffer arg else px) 0 (length us)) m)
    as ([] & m' & Hrun & p' & Hpost); [|by exists m', p'].
  unfold assign_move, operator_assign.
  apply wp_bind. eapply wp_ctor_move_frame; [done..|].
  intros m1 pd Hd1 Hpd Hy1 Hf1 Hq1 _ Ht1.
  assert (px <> buffer arg) as Hpxa by (by eapply placed_not_foreign).
  assert (px <> buffer y) as Hpxy by (by eapply placed_not_foreign).
  assert (holds m1 this us capx px) as Hx1.
  { eapply holds_preserved; [done|by apply Hf1|]. intros r Hr. by rewrite Hq1. }
  assert (placed arg (N.of_nat (length vs)) pd) as Hpd'.
  { unfold placed in *. rewrite Hpd. by destruct (N.of_nat (length vs) <=? N). }
  assert (px <> pd) as Hxd.
  { rewrite Hpd. by destruct (N.of_nat (length vs) <=? N). }
  apply wp_bind. eapply swap_exchanges; [done..|].
  intros m2 pa' pb' Hx2 Ha2 Hpa' Hpb' Hpa Hpb Hab Hf2 Hq2 _ Ht2.
  eapply wp_dtor; [done|].
  intros m3 Hf3 Hfo3 Hq3 Ht3.
  assert (pa' <> buffer arg) as Hpa_arg by (by eapply placed_not_foreign).
  exists pa'. split_and!; [| |by rewrite Hfo3, Hf2|done|].
  - eapply holds_preserved; [done|by apply Hfo3|].
    intros r Hr. by rewrite Hq3.
  - rewrite Hpa, Hpd. by destruct (N.of_nat (length vs) <=? N).
  - by rewrite Ht3, Ht2, Ht1, Hpb.
Qed.

(** ** The size stays within the capacity *)

Lemma wrap_le x : wrap x <= x.
Proof. unfold wrap. apply N.Div0.mod_le. Qed.

Lemma fields_clear this sz cap p m :
  fields m this = Some (sz, cap, p) ->
  wp (clear this)
     (fun _ m' => (forall c, c <> this -> fields m' c = fields m c) /\
                  fields m' this = Some (0, cap, p))
     (fun _ => False) True m.
Proof.
  intros Hf. unfold clear. apply wp_bind. eapply wp_size; [done|].
  apply wp_bind.
  apply (wp_for_up (fun _ m' => forall c, fields m' c = fields m c)); [done| |].
  - intros k m' _ Hf'. apply wp_bind. eapply wp_data; [by rewrite Hf'|].
    apply wpp_destroy_at. intros r _ c. by obs.
  - intros m' Hf'. eapply wp_set_m_size; [by rewrite Hf'|].
    split; [intros c Hc; obs; apply Hf'|obs; by rewrite Hf', Hf].
Qed.

Lemma fields_reserve this sz cap p n m :
  fields m this = Some (sz, cap, p) ->
  wp (reserve this n)
     (fun _ m' => (forall c, c <> this -> fields m' c = fields m c) /\
                  exists sz' p', fields m' this = Some (sz', N.max cap n, p') /\ sz' <= sz)
     (fun m' => forall c, fields m' c = fields m c) True m.
Proof.
  intros Hf. unfold reserve. apply wp_bind. eapply wp_capacity; [done|].
  destruct (N.leb_spec n cap) as [Hle|Hlt].
  { apply wp_ret. split; [done|]. exists sz, p. by rewrite N.max_l by lia. }
  apply wp_bind, wp_operator_new.
  set (tmp := heap_ptr (length (heap m))).
  apply wp_bind. eapply wp_size; [by obs|].
  assert (forall (r : size_type * bool) m1,
    (forall c, fields m1 c = fields m c) -> r.1 <= sz ->
    wp (i <~ (if r.2
              then for_down (N.to_nat r.1) r.1
                     (fun i => destroy_at tmp (i - 1) ;;; operator_delete tmp ;;; throw)
              else ret r.1) ;;
        clear this ;;;
        ub <~ uses_buffer this ;;
        (if negb ub then d <~ data this ;; operator_delete d else ret tt) ;;;
        set_m_data this tmp ;;;
        set_m_capacity this n ;;;
        set_m_size this i)
       (fun _ m' => (forall c, c <> this -> fields m' c = fields m c) /\
                    exists sz' p', fields m' this = Some (sz', N.max cap n, p') /\ sz' <= sz)
       (fun m' => forall c, fields m' c = fields m c) True m1) as Hrest.
  { intros [i thrown] m1 Hf1 Hi. cbn [fst snd] in *.
    apply wp_bind.
    eapply (wp_mono _ (fun k m' => k <= sz /\ forall c, fields m' c = fields m c));
      [| |by intros m2 H; apply H|done].
    - destruct thrown; [|by apply wp_ret].
      destruct (N.to_nat i) as [|k] eqn:Hk; [by apply wp_ret|].
      cbn [for_down]. rewrite (proj2 (N.ltb_lt 0 i)) by lia.
      apply wp_bind, wp_bind, wpp_destroy_at. intros r _.
      apply wp_bind, wpp_operator_delete. intros b _.
      apply wp_throw. intros c. obs. apply Hf1.
    - intros k m2 [Hk Hf2].
      apply wp_bind.
      eapply wp_mono; [eapply fields_clear; by rewrite Hf2|..|done|done].
      intros ? m3 [Hfo3 Hf3].
      apply wp_bind. eapply wp_uses_buffer; [done|].
      rewrite (proj2 (N.leb_le 0 N) (N.le_0_l N)). cbn [negb].
      apply wp_bind, wp_ret.
      apply wp_bind. eapply wp_set_m_data; [done|].
      apply wp_bind. eapply wp_set_m_capacity; [by known|].
      eapply wp_set_m_size; [by known|].
      split.
      + intros c Hc. obs. by rewrite Hfo3, Hf2.
      + exists k, tmp. rewrite N.max_r by lia. split; [by known|done]. }
  apply wp_bind.
  apply (wp_try_for_up (fun _ m' => forall c, fields m' c = fields m c)).
  - intros c. by obs.
  - intros k m' Hk Hf'.
    apply wp_bind. eapply wp_data; [by rewrite Hf'|].
    apply wp_bind, wpp_read_at. intros v.
    apply wpp_construct_at. intros r _ _.
    destruct (move_if_noexcept_construct v).
    + intros c. obs. apply Hf'.
    + apply Hrest; [done|]. cbn [fst]. lia.
  - intros m' Hf'. apply Hrest; [done|]. cbn [fst]. lia.
Qed.

Lemma keeps_size_ok_here this sz cap p m :
  fields m this = Some (sz, cap, p) -> size_ok sz cap -> keeps_size_ok this m m.
Proof. intros Hf Hok. split; [done|]. by exists sz, cap, p. Qed.

Lemma keeps_size_ok_trans this m m1 m2 :
  keeps_size_ok this m m1 -> keeps_size_ok this m1 m2 -> keeps_size_ok this m m2.
Proof.
  intros [Ho1 _] [Ho2 H2]. split; [|done].
  intros c Hc. by rewrite Ho2, Ho1.
Qed.

Lemma size_within_capacity_step this m m' :
  size_within_capacity m -> keeps_size_ok this m m' -> size_within_capacity m'.
Proof.
  intros Hinv [Ho (sz & cap & p & Hf & Hok)] c sz' cap' p' Hc.
  destruct (decide (c = this)) as [->|Hne].
  - rewrite Hf in Hc. by injection Hc as <- <- _.
  - rewrite Ho in Hc by done. by eapply Hinv.
Qed.

Lemma size_ok_emplace_back this sz cap p mk m :
  fields m this = Some (sz, cap, p) ->
  size_ok sz cap ->
  wp (emplace_back this mk) (fun _ => keeps_size_ok this m) (keeps_size_ok this m) True m.
Proof.
  intros Hf Hok. unfold emplace_back.
  apply wp_bind. eapply wp_size; [done|].
  apply wp_bind. eapply wp_capacity; [done|].
  apply wp_bind.
  eapply (wp_mono _ (fun _ m1 =>
    (forall c, c <> this -> fields m1 c = fields m c) /\
    exists sz1 cap1 p1, fields m1 this = Some (sz1, cap1, p1) /\
      (2 * cap1 < 2 ^ size_type_bits -> sz1 + 1 <= cap1))
    _ (keeps_size_ok this m)); [| |done|done].
  - destruct (N.leb_spec cap sz) as [Hfull|Hroom].
    + eapply wp_mono; [by eapply fields_reserve| | |done].
      * intros ? m1 (Ho & sz1 & p1 & Hf1 & Hle). split; [done|].
        eexists _, _, _. split; [done|]. intros Hcap1. unfold size_ok in Hok.
        destruct (N.eqb_spec cap 0) as [->|Hne]; [lia|].
        assert (2 * cap < 2 ^ size_type_bits) as H2 by lia.
        rewrite wrap_small in * by done. lia.
      * intros m1 Hf1. split; [by intros c _|]. exists sz, cap, p. by rewrite Hf1.
    + apply wp_ret. split; [done|]. exists sz, cap, p. split; [done|lia].
  - intros ? m1 (Ho & sz1 & cap1 & p1 & Hf1 & Hroom).
    apply wp_bind. eapply wp_data; [done|].
    apply wp_bind. eapply wp_size; [done|].
    apply wp_bind, wpp_construct_at. intros r _ _.
    destruct mk as [v|].
    + apply wp_bind. eapply wp_data; [by obs|].
      apply wp_bind. eapply wp_size; [by obs|].
      apply wp_bind. eapply wp_set_m_size; [by obs|].
      apply wp_ret. split.
      * intros c Hc. obs. by apply Ho.
      * eexists _, _, _. split; [by known|].
        intros Hcap1. pose proof (wrap_le (sz1 + 1)). specialize (Hroom Hcap1). lia.
    + split; [done|]. exists sz1, cap1, p1. split; [done|].
      intros Hcap1. specialize (Hroom Hcap1). lia.
Qed.

Lemma size_ok_resize this sz cap p n v m :
  fields m this = Some (sz, cap, p) ->
  size_ok sz cap ->
  wp (resize this n v) (fun _ => keeps_size_ok this m) (keeps_size_ok this m) True m.
Proof.
  intros Hf Hok. unfold resize.
  apply wp_bind. eapply wp_size; [done|].
  destruct (n =? sz); [by eapply wp_ret, keeps_size_ok_here|].
  destruct (sz <? n).
  - apply wp_bind.
    eapply (wp_mono _ (fun _ => keeps_size_ok this m) _ (keeps_size_ok this m));
      [| |done|done].
    + eapply wp_mono; [by eapply fields_reserve| | |done].
      * intros ? m1 (Ho & sz1 & p1 & Hf1 & Hle). split; [done|].
        eexists _, _, _. split; [done|]. unfold size_ok in *. lia.
      * intros m1 Hf1. split; [by intros c _|]. exists sz, cap, p. by rewrite Hf1.
    + intros ? m1 H1. apply wp_bind, wpp_size. intros sz1 cap1 p1 Hf1.
      apply (wp_for_up (fun _ => keeps_size_ok this m)); [done| |done].
      intros k m2 _ H2. unfold push_back. apply wp_bind.
      pose proof H2 as (_ & sz2 & cap2 & p2 & Hf2 & Hok2).
      eapply wp_mono; [by eapply size_ok_emplace_back| | |done].
      * intros ? m3 H3. apply wp_ret. by eapply keeps_size_ok_trans.
      * intros m3 H3. by eapply keeps_size_ok_trans.
  - apply (wp_repeat_n (fun _ => keeps_size_ok this m));
      [by eapply keeps_size_ok_here| |done].
    intros k m1 _ (Ho & sz1 & cap1 & p1 & Hf1 & Hok1).
    apply wp_bind. eapply wp_size; [done|].
    apply wp_bind. eapply wp_set_m_size; [done|].
    apply wp_bind. eapply wp_data; [by known|].
    apply wpp_destroy_at. intros r _. split.
    + intros c Hc. obs. by apply Ho.
    + eexists _, _, _. split; [by known|]. unfold size_ok in *. lia.
Qed.

Lemma size_ok_exec this sz cap p c m :
  fields m this = Some (sz, cap, p) ->
  size_ok sz cap ->
  wp (exec this c) (fun _ => keeps_size_ok this m) (keeps_size_ok this m) True m.
Proof.
  intros Hf Hok.
  destruct c as [mk|item|item| |n|n v|pos v]; simpl.
  - apply wp_bind. eapply wp_mono; [by eapply size_ok_emplace_back| |done|done].
    by intros ? m' H.
  - unfold push_back. apply wp_bind.
    eapply wp_mono; [by eapply size_ok_emplace_back| |done|done]. by intros ? m' H.
  - unfold push_back_move. apply wp_bind.
    eapply wp_mono; [by eapply size_ok_emplace_back| |done|done]. by intros ? m' H.
  - eapply wp_mono; [by eapply fields_clear| |done|done].
    intros ? m' [Ho Hf']. split; [done|]. eexists _, _, _. split; [done|].
    intros _. lia.
  - eapply wp_mono; [by eapply fields_reserve| | |done].
    + intros ? m1 (Ho & sz1 & p1 & Hf1 & Hle). split; [done|].
      eexists _, _, _. split; [done|]. unfold size_ok in *. lia.
    + intros m1 Hf1. split; [by intros ? _|]. exists sz, cap, p. by rewrite Hf1.
  - by eapply size_ok_resize.
  - unfold subscript_assign. apply wp_bind. eapply wp_data; [done|].
    apply wpp_write_at. intros r _. split; [intros ? _; by obs|].
    exists sz, cap, p. split; [by obs|done].
Qed.


Lemma size_within_capacity_set_scalars this sz cap p m :
  size_within_capacity m -> size_ok sz cap ->
  size_within_capacity (set_scalars this sz cap p m).
Proof.
  intros Hinv Hok c sz' cap' p' Hc. rewrite fields_set_scalars in Hc.
  case_decide; [|by eapply Hinv].
  destruct (fields m c) as [[[? ?] ?]|]; [|done]. by injection Hc as <- <- _.
Qed.

Lemma size_within_capacity_put this sv m :
  size_within_capacity m -> size_ok (m_size sv) (m_capacity sv) ->
  size_within_capacity (put this sv m).
Proof.
  intros Hinv Hok c sz' cap' p' Hc. rewrite fields_put in Hc.
  case_decide; [|by eapply Hinv]. by injection Hc as <- <- _.
Qed.

Lemma size_within_capacity_remove this m :
  size_within_capacity m -> size_within_capacity (remove this m).
Proof.
  intros Hinv c sz' cap' p' Hc. rewrite fields_remove in Hc.
  case_decide; [done|by eapply Hinv].
Qed.

Lemma size_within_capacity_fields m m' :
  size_within_capacity m -> (forall c, fields m' c = fields m c) ->
  size_within_capacity m'.
Proof. intros Hinv Hf c sz cap p Hc. rewrite Hf in Hc. by eapply Hinv. Qed.

Lemma no_object_dtor this m : fields m this = None -> dtor this m = UB.
Proof.
  intros Hf. unfold dtor, clear, size, bind, load.
  unfold fields in Hf. by destruct (objects m !! this).
Qed.

Lemma size_ok_dtor this m :
  size_within_capacity m ->
  wp (dtor this) (fun _ => size_within_capacity) size_within_capacity True m.
Proof.
  intros Hinv.
  destruct (fields m this) as [[[sz cap] p]|] eqn:Hf.
  2: { unfold wp. by rewrite no_object_dtor. }
  unfold dtor. apply wp_bind.
  eapply wp_mono; [by eapply fields_clear| |done|done].
  intros ? m1 [Ho Hf1].
  apply wp_bind. eapply wp_uses_buffer; [done|].
  rewrite (proj2 (N.leb_le 0 N) (N.le_0_l N)). cbn [negb].
  apply wp_bind, wp_ret. unfold wp, end_lifetime.
  intros c sz' cap' p' Hc. rewrite fields_remove in Hc.
  case_decide; [done|]. rewrite Ho in Hc by done. by eapply Hinv.
Qed.

Lemma size_ok_run_op o m :
  size_within_capacity m ->
  wp (run_op o) (fun _ => size_within_capacity) size_within_capacity True m.
Proof.
  intros Hinv. destruct o as [this|this init|this other|this|this c]; simpl.
  - (* default construction *)
    apply wp_init_members, size_within_capacity_put; [done|]. intros _. simpl. lia.
  - (* construction from a list *)
    unfold ctor_init_list. set (n := N.of_nat (length init)).
    apply wp_bind.
    eapply (wp_mono _ (fun _ m1 => forall c, fields m1 c = fields m c) _ (fun _ => False)
              _ True);
      [destruct (N <? n); [apply wp_operator_new; intros c; by obs|by apply wp_ret]
      | |done|done].
    intros p m1 Hf1. apply wp_bind, wp_init_members.
    set (m2 := put this _ m1).
    assert (size_within_capacity m2) as Hinv2.
    { apply size_within_capacity_put; [by eapply size_within_capacity_fields|].
      simpl. intros _. lia. }
    apply wp_bind, wp_try, wp_bind, wpp_data. intros sz cap q Hq.
    eapply wp_mono; [apply fields_uninitialized_copy| | |done].
    + intros ? m3 Hm3. apply wp_ret. by eapply size_within_capacity_fields.
    + intros m3 Hm3. apply wp_bind, wpp_data. intros sz' cap' q' Hq'.
      assert (size_within_capacity m3) as Hinv3
        by (by eapply size_within_capacity_fields).
      apply wp_bind. case_bool_decide.
      * apply wpp_operator_delete. intros b ->.
        apply wp_bind. apply wp_throw. apply size_within_capacity_remove.
        eapply size_within_capacity_fields; [done|]. intros c. by obs.
      * apply wp_ret, wp_bind. by apply wp_throw, size_within_capacity_remove.
  - (* copy construction *)
    unfold ctor_copy, ctor_default. apply wp_bind, wp_init_members.
    set (m1 := put this _ m).
    assert (size_within_capacity m1) as Hinv1.
    { apply size_within_capacity_put; [done|]. simpl. intros _. lia. }
    assert (fields m1 this = Some (0, N, buffer this)) as Hf1.
    { unfold m1. by rewrite fields_put, decide_True. }
    assert (keeps_size_ok this m1 m1) as H1.
    { eapply keeps_size_ok_here; [done|]. intros _. lia. }
    apply wp_bind, wp_try.
    eapply (wp_mono _ (fun _ => keeps_size_ok this m1) _ (keeps_size_ok this m1));
      [| | |done].
    + apply wp_bind, wpp_size. intros sz cap p Hf.
      apply wp_bind. eapply wp_capacity; [done|].
      apply wp_bind.
      eapply (wp_mono _ (fun _ => keeps_size_ok this m1) _ (keeps_size_ok this m1));
        [| |done|done].
      * destruct (N <? sz); [|by apply wp_ret].
        eapply wp_mono; [by eapply fields_reserve| | |done].
        -- intros ? m2 (Ho & sz2 & p2 & Hf2 & Hle). split; [done|].
           eexists _, _, _. split; [done|]. intros _. lia.
        -- intros m2 Hf2. split; [by intros ? _|].
           exists 0, N, (buffer this). rewrite Hf2. split; [done|]. intros _. lia.
      * intros ? m2 H2. apply wp_bind, wpp_size. intros sz2 cap2 p2 Hf2.
        apply (wp_for_up (fun _ => keeps_size_ok this m1)); [done| |done].
        intros k m3 _ H3. unfold subscript.
        apply wp_bind, wp_bind, wpp_data. intros sz3 cap3 p3 Hf3.
        apply wpp_read_at. intros v. unfold push_back. apply wp_bind.
        pose proof H3 as (_ & sz4 & cap4 & p4 & Hf4 & Hok4).
        eapply wp_mono; [by eapply size_ok_emplace_back| | |done].
        -- intros ? m4 H4. apply wp_ret. by eapply keeps_size_ok_trans.
        -- intros m4 H4. by eapply keeps_size_ok_trans.
    + intros ? m2 H2. apply wp_ret. by eapply size_within_capacity_step.
    + intros m2 H2. apply wp_bind.
      eapply wp_mono; [eapply size_ok_dtor; by eapply size_within_capacity_step| |done|done].
      intros ? m3 H3. by apply wp_throw.
  - (* destruction *)
    by apply size_ok_dtor.
  - (* a mutating call *)
    destruct (fields m this) as [[[sz cap] p]|] eqn:Hf.
    + eapply wp_mono; [eapply size_ok_exec; [done|by eapply Hinv]| | |done].
      * intros ? m' H. exact (size_within_capacity_step _ _ _ Hinv H).
      * intros m' H. exact (size_within_capacity_step _ _ _ Hinv H).
    + unfold wp. by rewrite exec_no_object.
Qed.

Lemma fields_swap_buffers a b E m :
  wp (swap_buffers a b) (fun _ m' => forall c, fields m' c = fields m c) E True m.
Proof.
  unfold swap_buffers.
  apply wp_bind, wpp_load. intros sva Ha.
  apply wp_bind, wpp_load. intros svb Hb.
  apply wp_bind. unfold wp at 1, store.
  apply wp_bind, wpp_load. intros svb' Hb'.
  unfold wp, store. intros c. rewrite !fields_put. simpl in Hb'.
  destruct (decide (c = b)) as [->|Hcb]; [|destruct (decide (c = a)) as [->|Hca]; [|done]].
  - destruct (decide (a = b)) as [->|Hab].
    + rewrite lookup_insert_eq in Hb'. injection Hb' as <-. simpl.
      unfold fields. by rewrite Ha.
    + rewrite lookup_insert_ne in Hb' by done. unfold fields. by rewrite Hb'.
  - unfold fields. by rewrite Ha.
Qed.

Lemma size_ok_ctor_move this other m :
  size_within_capacity m ->
  wp (ctor_move this other) (fun _ => size_within_capacity) size_within_capacity True m.
Proof.
  intros Hinv. unfold ctor_move.
  apply wp_bind, wpp_size. intros n cap p Hf.
  apply wp_bind, wpp_capacity. intros n' cap' p' Hf'.
  rewrite Hf in Hf'. injection Hf' as <- <- <-.
  apply wp_bind, wp_init_members.
  set (m1 := put this _ m).
  assert (size_within_capacity m1) as Hinv1.
  { apply size_within_capacity_put; [done|]. simpl. by eapply Hinv. }
  apply wp_bind, wpp_uses_buffer. intros sz1 cap1 p1 Hf1.
  apply wp_bind.
  eapply (wp_mono _ (fun _ => size_within_capacity) _ (fun _ => False) _ True);
    [| |done|done].
  { destruct (sz1 <=? N).
    - eapply wp_mono; [apply (fields_swap_buffers _ _ (fun _ => False))| |done|done].
      intros ? m2 Hf2. by eapply size_within_capacity_fields.
    - apply wp_bind, wpp_data. intros sz2 cap2 p2 Hf2.
      apply wpp_set_m_data. intros sz3 cap3 p3 Hf3.
      apply size_within_capacity_set_scalars; [done|by eapply Hinv1]. }
  intros ? m2 Hinv2.
  apply wp_bind, wpp_set_m_data. intros sz3 cap3 p3 Hf3.
  assert (size_within_capacity (set_scalars other sz3 cap3 (buffer other) m2)) as Hinv3.
  { apply size_within_capacity_set_scalars; [done|by eapply Hinv2]. }
  apply wp_bind, wpp_set_m_size. intros sz4 cap4 p4 Hf4.
  apply wpp_set_m_capacity. intros sz5 cap5 p5 Hf5.
  rewrite fields_set_scalars, decide_True, Hf4 in Hf5 by done.
  injection Hf5 as <- <- <-.
  apply size_within_capacity_set_scalars; [|intros _; lia].
  apply size_within_capacity_set_scalars; [done|intros _; lia].
Qed.

Lemma size_ok_swap a b m :
  size_within_capacity m ->
  wp (swap a b) (fun _ => size_within_capacity) size_within_capacity True m.
Proof.
  intros Hinv. unfold wp.
  destruct (objects m !! a) as [sva|] eqn:Ha.
  2: { unfold swap, uses_buffer, bind, load. by rewrite Ha. }
  destruct (decide (a = b)) as [<-|Hab].
  { by rewrite swap_same. }
  destruct (objects m !! b) as [svb|] eqn:Hb.
  2: { unfold swap, uses_buffer, bind, load, ret. rewrite Ha. simpl. by rewrite Hb. }
  rewrite (swap_spec a b sva svb) by done.
  apply size_within_capacity_put; [apply size_within_capacity_put; [done|]|]; simpl.
  - eapply (Hinv b). unfold fields. by rewrite Hb.
  - eapply (Hinv a). unfold fields. by rewrite Ha.
Qed.

Lemma size_ok_run_api o m :
  size_within_capacity m ->
  wp (run_api o) (fun _ => size_within_capacity) size_within_capacity True m.
Proof.
  intros Hinv. destruct o as [o|this other|a b|a b|this y arg|this y arg]; simpl.
  - by apply size_ok_run_op.
  - by apply size_ok_ctor_move.
  - by apply size_ok_swap.
  - by apply size_ok_swap.
  - unfold assign_copy, operator_assign. apply wp_bind.
    eapply wp_mono; [by apply (size_ok_run_op (op_ctor_copy arg y))| |done|done].
    intros ? m1 Hinv1. apply wp_bind.
    eapply wp_mono; [by apply size_ok_swap| |done|done].
    intros ? m2 Hinv2. by apply size_ok_dtor.
  - unfold assign_move, operator_assign. apply wp_bind.
    eapply wp_mono; [by apply size_ok_ctor_move| |done|done].
    intros ? m1 Hinv1. apply wp_bind.
    eapply wp_mono; [by apply size_ok_swap| |done|done].
    intros ? m2 Hinv2. by apply size_ok_dtor.
Qed.

(** X23.  In every state a program can reach through the operations of the
    class (construction in its four forms, destruction, the mutating
    calls, [swap] and the two assignments, with exceptions thrown along
    the way), the size of every container is at most its capacity, as
    long as the capacity is below [2 ^ 63], the point where doubling it
    wraps around. *)
Theorem size_never_exceeds_capacity m c sz cap p :
  reachable_api m ->
  fields m c = Some (sz, cap, p) ->
  2 * cap < 2 ^ size_type_bits ->
  sz <= cap.
Proof.
  intros Hreach. revert c sz cap p.
  change (size_within_capacity m).
  induction Hreach as [|o m m' _ IH Hrun|o m m' _ IH Hrun].
  - intros c sz cap p Hc. unfold fields in Hc. simpl in Hc.
    by rewrite lookup_empty in Hc.
  - pose proof (size_ok_run_api o m IH) as H. unfold wp in H. by rewrite Hrun in H.
  - pose proof (size_ok_run_api o m IH) as H. unfold wp in H. by rewrite Hrun in H.
Qed.

(** ** Growth that fails inside [emplace_back] *)

Lemma wp_reserve_swallows this v vs cap p n Q E U m :
  holds m this (v :: vs) cap p ->
  cap < n ->
  n * Npos sizeof < 2 ^ size_type_bits ->
  xfer_throws v = true ->
  (forall m',
     holds m' this [] n (heap_ptr (length (heap m))) ->
     (forall c, c <> this -> fields m' c = fields m c) ->
     Q tt m') ->
  wp (reserve this n) Q E U m.
Proof.
  intros Hholds Hn Hbytes Hthrow HQ.
  pose proof Hholds as (Hf & Hcap & Hlen & r & Hr & Hrl & Htake).
  set (tmp := heap_ptr (length (heap m))).
  assert (p <> tmp) as Hptmp.
  { intros ->. unfold tmp in Hr. by rewrite region_fresh in Hr. }
  unfold reserve. apply wp_bind. eapply wp_capacity; [done|].
  rewrite (proj2 (N.leb_gt _ _) Hn).
  apply wp_bind, wp_operator_new. rewrite new_block_slots by done. fold tmp.
  apply wp_bind. eapply wp_size; [by obs|]. rewrite Nat2N.id.
  apply wp_bind. cbn [length try_for_up].
  apply wp_bind, wp_try, wp_bind. eapply wp_data; [by obs|].
  assert (r !! 0%nat = Some (Some v)) as Hr0 by (by eapply holds_lookup).
  apply wp_bind. eapply wp_read_at; [by obs|done|].
  unfold move_if_noexcept_construct. rewrite Hthrow.
  eapply wp_construct_at_throw; [by obs|rewrite length_replicate; simpl in *; lia|].
  apply wp_ret. cbn [fst snd N.to_nat for_down].
  apply wp_bind, wp_ret.
  apply wp_bind. eapply (wp_clear this (v :: vs) cap p).
  { split_and!; try done. exists r. by obs. }
  intros m2 (Hf2 & _ & _ & r2 & Hr2 & _) Hfo2 Hq2 _.
  apply wp_bind. eapply wp_uses_buffer; [done|].
  change (N.of_nat (length [])) with 0.
  rewrite (proj2 (N.leb_le 0 N) (N.le_0_l N)). cbn [negb].
  apply wp_bind, wp_ret.
  apply wp_bind. eapply wp_set_m_data; [done|].
  apply wp_bind. eapply wp_set_m_capacity; [by known|].
  eapply wp_set_m_size; [by known|].
  apply HQ.
  - split_and!; [by known|nia|simpl; lia|].
    exists (replicate (N.to_nat n) None). obs. rewrite Hq2 by done. obs.
    split_and!; [done|by rewrite length_replicate|done].
  - intros c Hc. obs. rewrite Hfo2 by done. by obs.
Qed.

(** X24.  Appending to a full container whose first element cannot be
    transferred to the new block: [reserve] takes the failure for a
    success, so the call returns normally, and the container holds the
    new element and nothing else, in the new block of doubled
    capacity. *)
Theorem emplace_back_drops_elements this v vs cap p x m :
  holds m this (v :: vs) cap p ->
  N.of_nat (length (v :: vs)) = cap ->
  2 * cap * Npos sizeof < 2 ^ size_type_bits ->
  xfer_throws v = true ->
  exists m',
    emplace_back this (Some x) m = Ok (heap_ptr (length (heap m)), 0) m' /\
    holds m' this [x] (2 * cap) (heap_ptr (length (heap m))) /\
    (forall c, c <> this -> fields m' c = fields m c).
Proof.
  intros Hh Hfull Hbytes Hthrow. pose proof Hh as (Hf & Hcap & _).
  assert (cap <> 0) as Hcap0 by (simpl in Hfull; lia).
  destruct (wp_returns (emplace_back this (Some x)) (fun a m' =>
    a = (heap_ptr (length (heap m)), 0) /\
    holds m' this [x] (2 * cap) (heap_ptr (length (heap m))) /\
    (forall c, c <> this -> fields m' c = fields m c)) m)
    as (a & m' & Hrun & -> & Hpost); [|by exists m'].
  unfold emplace_back.
  apply wp_bind. eapply wp_size; [done|].
  apply wp_bind. eapply wp_capacity; [done|].
  rewrite (proj2 (N.leb_le cap _)) by lia.
  rewrite (proj2 (N.eqb_neq cap 0)) by done.
  rewrite wrap_small by nia.
  apply wp_bind. eapply wp_reserve_swallows; [done|lia|lia|done|].
  intros m1 Hh1 Hfo1.
  eapply (wp_emplace_back_construct this [] (2 * cap) _ (Some x)); [done|simpl; lia|].
  intros m2 Hh2 (Hfo2 & _). split_and!; [done|done|].
  intros c Hc. by rewrite Hfo2, Hfo1.
Qed.

(** X25.  Appending to a full container when the transfer of an element other
    than the first throws: the exception leaves [emplace_back] before
    the new element is built, the container is as before and the new
    block is released. *)
Theorem emplace_back_growth_throws this pre v post cap p mk m :
  holds m this (pre ++ v :: post) cap p ->
  N.of_nat (length (pre ++ v :: post)) = cap ->
  2 * cap * Npos sizeof < 2 ^ size_type_bits ->
  pre <> [] ->
  Forall (fun x => xfer_throws x = false) pre ->
  xfer_throws v = true ->
  exists m',
    emplace_back this mk m = Throw m' /\
    holds m' this (pre ++ v :: post) cap p /\
    (forall c, fields m' c = fields m c) /\
    (forall q, q <> heap_ptr (length (heap m)) -> region m' q = region m q) /\
    region m' (heap_ptr (length (heap m))) = None.
Proof.
  intros Hh Hfull Hbytes Hpre Hnothrow Hthrow. pose proof Hh as (Hf & Hcap & _).
  assert (cap <> 0) as Hcap0.
  { rewrite length_app in Hfull. simpl in Hfull. lia. }
  destruct (wp_throws (emplace_back this mk) (fun m' =>
    holds m' this (pre ++ v :: post) cap p /\
    (forall c, fields m' c = fields m c) /\
    (forall q, q <> heap_ptr (length (heap m)) -> region m' q = region m q) /\
    region m' (heap_ptr (length (heap m))) = None) m)
    as (m' & Hrun & Hpost); [|by exists m'].
  unfold emplace_back.
  apply wp_bind. eapply wp_size; [done|].
  apply wp_bind. eapply wp_capacity; [done|].
  rewrite (proj2 (N.leb_le cap _)) by lia.
  rewrite (proj2 (N.eqb_neq cap 0)) by done.
  rewrite wrap_small by nia.
  apply wp_bind. eapply wp_reserve_throws; [done|lia|lia|done..|].
  by intros m1 ? ? ? ? _.
Qed.

(** ** The move constructor on a container whose size test tells the truth *)

(** X26.  The new object takes over the elements and the capacity of the
    source: the heap block when the source was on the heap, the
    contents of the inline buffer otherwise.  The source is left empty
    with capacity [N].  No constructor or destructor of an element runs
    and the free store is not touched. *)
Theorem ctor_move_takes_over this other vs cap p m :
  holds m other vs cap p ->
  placed other (N.of_nat (length vs)) p ->
  fields m this = None ->
  exists m' pd,
    ctor_move this other m = Ok tt m' /\
    holds m' this vs cap pd /\
    pd = (if N.of_nat (length vs) <=? N then buffer this else p) /\
    fields m' other = Some (0, N, buffer other) /\
    (forall e, e <> this -> e <> other -> fields m' e = fields m e) /\
    (forall q, q <> buffer this -> q <> buffer other -> region m' q = region m q) /\
    heap m' = heap m /\ trace m' = trace m.
Proof.
  intros Hh Hp Hthis.
  destruct (wp_returns (ctor_move this other) (fun _ m' => exists pd,
    holds m' this vs cap pd /\
    pd = (if N.of_nat (length vs) <=? N then buffer this else p) /\
    fields m' other = Some (0, N, buffer other) /\
    (forall e, e <> this -> e <> other -> fields m' e = fields m e) /\
    (forall q, q <> buffer this -> q <> buffer other -> region m' q = region m q) /\
    heap m' = heap m /\ trace m' = trace m) m)
    as ([] & m' & Hrun & pd & Hpost); [|by exists m', pd].
  eapply wp_ctor_move_frame; [done..|].
  intros m' pd ? ? ? ? ? ? ?. by exists pd.
Qed.

(** ** No call releases a block that was alive before it *)

Section alive.
Context (m0 : memory).

Local Abbreviation K := (keeps_blocks m0).

Lemma kb_start : K m0.
Proof. by split. Qed.

Lemma kb_log e m : K m -> K (log e m).
Proof. done. Qed.

Lemma kb_set_region w r m : K m -> K (set_region w r m).
Proof.
  intros [Hl Hb]. split; [by rewrite heap_length_set_region|].
  intros b Hb0. specialize (Hb b Hb0). rewrite region_set_region.
  case_decide as Hw; [|done]. rewrite <-Hw. by apply fmap_is_Some.
Qed.

Lemma kb_alloc n m : K m -> K (alloc n m).
Proof.
  intros [Hl Hb]. split; [rewrite heap_length_alloc; lia|].
  intros b Hb0. rewrite region_alloc. case_decide; [done|]. by apply Hb.
Qed.

Lemma kb_put this sv m : K m -> K (put this sv m).
Proof. done. Qed.

Lemma kb_remove this m : K m -> K (remove this m).
Proof. done. Qed.

Lemma kb_set_scalars this sz cap p m : K m -> K (set_scalars this sz cap p m).
Proof. done. Qed.

(** Releasing a block allocated since [m0] is no loss. *)
Lemma kb_release b m : K m -> (length (heap m0) <= b)%nat -> K (release b m).
Proof.
  intros [Hl Hb] Hfresh. split; [by rewrite heap_length_release|].
  intros b' [r Hb0]. rewrite region_release.
  apply region_heap_lt in Hb0 as Hlt.
  rewrite decide_False by (intros [=]; lia). apply Hb. by exists r.
Qed.

Lemma kb_next_block m : K m -> (length (heap m0) <= length (heap m))%nat.
Proof. by intros [Hl _]. Qed.

(** [clear] releases nothing and leaves [m_size] at [0]. *)
Lemma alive_clear this m :
  K m ->
  wp (clear this)
     (fun _ m' => K m' /\ exists cap p, fields m' this = Some (0, cap, p))
     (fun _ => False) True m.
Proof.
  intros HK. unfold clear. apply wp_bind, wpp_size. intros sz cap p Hf.
  apply wp_bind.
  apply (wp_for_up (fun _ m' => K m' /\ fields m' this = Some (sz, cap, p))); [done| |].
  - intros k m' _ [HK' Hf']. apply wp_bind. eapply wp_data; [done|].
    apply wpp_destroy_at. intros r Hr. split; [by apply kb_log, kb_set_region|by obs].
  - intros m' [HK' Hf']. eapply wp_set_m_size; [done|].
    split; [by apply kb_set_scalars|]. exists cap, p. by known.
Qed.

Lemma alive_reserve this n m : K m -> wp (reserve this n) (fun _ => K) K True m.
Proof.
  intros HK. unfold reserve. apply wp_bind, wpp_capacity. intros sz cap p Hf.
  destruct (n <=? cap); [by apply wp_ret|].
  apply wp_bind, wp_operator_new.
  pose proof (kb_next_block _ HK) as Hfresh.
  set (b := length (heap m)) in *. set (tmp := heap_ptr b).
  apply wp_bind, wpp_size. intros sz1 cap1 p1 Hf1.
  assert (forall (r : size_type * bool) m1, K m1 ->
    wp (i <~ (if r.2
              then for_down (N.to_nat r.1) r.1
                     (fun i => destroy_at tmp (i - 1) ;;; operator_delete tmp ;;; throw)
              else ret r.1) ;;
        clear this ;;;
        ub <~ uses_buffer this ;;
        (if negb ub then d <~ data this ;; operator_delete d else ret tt) ;;;
        set_m_data this tmp ;;;
        set_m_capacity this n ;;;
        set_m_size this i) (fun _ => K) K True m1) as Hrest.
  { intros [i thrown] m1 HK1. cbn [fst snd]. apply wp_bind.
    eapply (wp_mono _ (fun _ => K) _ K); [| |done|done].
    - destruct thrown; [|by apply wp_ret].
      apply (wp_for_down K); [done| |done].
      intros k m2 HK2. apply wp_bind, wpp_destroy_at. intros r Hr.
      apply wp_bind, wpp_operator_delete. intros b' [= <-].
      apply wp_throw, kb_log, kb_release; [|done].
      by apply kb_log, kb_set_region.
    - intros k m2 HK2. apply wp_bind.
      eapply wp_mono; [by apply alive_clear| |done|done].
      intros ? m3 (HK3 & cap0 & p0 & Hf0).
      apply wp_bind. eapply wp_uses_buffer; [done|].
      rewrite (proj2 (N.leb_le 0 N) (N.le_0_l N)). cbn [negb].
      apply wp_bind, wp_ret.
      apply wp_bind, wpp_set_m_data. intros sz2 cap2 p2 Hf2.
      apply wp_bind, wpp_set_m_capacity. intros sz3 cap3 p3 Hf3.
      apply wpp_set_m_size. intros sz4 cap4 p4 Hf4.
      by repeat apply kb_set_scalars. }
  apply wp_bind. apply (wp_try_for_up (fun _ => K)).
  - by apply kb_log, kb_alloc.
  - intros k m' _ HK'. apply wp_bind, wpp_data. intros sz' cap' p' Hf'.
    apply wp_bind, wpp_read_at. intros v.
    apply wpp_construct_at. intros r Hr Hi.
    destruct (move_if_noexcept_construct v).
    + by apply kb_log, kb_set_region.
    + by apply (Hrest (_, true)).
  - intros m' HK'. by apply (Hrest (_, false)).
Qed.

Lemma alive_emplace_back this mk m :
  K m -> wp (emplace_back this mk) (fun _ => K) K True m.
Proof.
  intros HK. unfold emplace_back.
  apply wp_bind, wpp_size. intros sz cap p Hf.
  apply wp_bind, wpp_capacity. intros sz' cap' p' Hf'.
  apply wp_bind.
  eapply (wp_mono _ (fun _ => K) _ K);
    [destruct (cap' <=? sz); [by apply alive_reserve|by apply wp_ret]| |done|done].
  intros ? m1 HK1.
  apply wp_bind, wpp_data. intros sz1 cap1 p1 Hf1.
  apply wp_bind, wpp_size. intros sz2 cap2 p2 Hf2.
  apply wp_bind, wpp_construct_at. intros r Hr Hi.
  destruct mk as [v|]; [|done].
  apply wp_bind, wpp_data. intros sz3 cap3 p3 Hf3.
  apply wp_bind, wpp_size. intros sz4 cap4 p4 Hf4.
  apply wp_bind, wpp_set_m_size. intros sz5 cap5 p5 Hf5.
  apply wp_ret. by apply kb_set_scalars, kb_log, kb_set_region.
Qed.

Lemma alive_resize this n v m : K m -> wp (resize this n v) (fun _ => K) K True m.
Proof.
  intros HK. unfold resize. apply wp_bind, wpp_size. intros sz cap p Hf.
  destruct (n =? sz); [by apply wp_ret|].
  destruct (sz <? n).
  - apply wp_bind. eapply wp_mono; [by apply alive_reserve| |done|done].
    intros ? m1 HK1. apply wp_bind, wpp_size. intros sz1 cap1 p1 Hf1.
    apply (wp_for_up (fun _ => K)); [done| |done].
    intros k m' _ HK'. unfold push_back. apply wp_bind.
    eapply wp_mono; [by apply alive_emplace_back| |done|done].
    intros ? m2 HK2. by apply wp_ret.
  - apply (wp_repeat_n (fun _ => K)); [done| |done].
    intros k m' _ HK'. apply wp_bind, wpp_size. intros sz1 cap1 p1 Hf1.
    apply wp_bind, wpp_set_m_size. intros sz2 cap2 p2 Hf2.
    apply wp_bind, wpp_data. intros sz3 cap3 p3 Hf3.
    apply wpp_destroy_at. intros r Hr.
    by apply kb_log, kb_set_region, kb_set_scalars.
Qed.

Lemma alive_exec this c m : K m -> wp (exec this c) (fun _ => K) K True m.
Proof.
  intros HK. destruct c; simpl.
  - apply wp_bind. eapply wp_mono; [by apply alive_emplace_back| |done|done].
    intros ? m1 HK1. by apply wp_ret.
  - unfold push_back. apply wp_bind.
    eapply wp_mono; [by apply alive_emplace_back| |done|done].
    intros ? m1 HK1. by apply wp_ret.
  - unfold push_back_move. apply wp_bind.
    eapply wp_mono; [by apply alive_emplace_back| |done|done].
    intros ? m1 HK1. by apply wp_ret.
  - eapply wp_mono; [by apply alive_clear| |done|done]. by intros ? m1 [HK1 _].
  - by apply alive_reserve.
  - by apply alive_resize.
  - unfold subscript_assign. apply wp_bind, wpp_data. intros sz cap p Hf.
    apply wpp_write_at. intros r Hr. by apply kb_set_region.
Qed.

(** The destructor: by the time [uses_buffer] is asked, [clear] has set
    [m_size] to [0], so [::operator delete] is not called. *)
Lemma alive_dtor this m : K m -> wp (dtor this) (fun _ => K) K True m.
Proof.
  intros HK. unfold dtor. apply wp_bind.
  eapply wp_mono; [by apply alive_clear| |done|done].
  intros ? m1 (HK1 & cap & p & Hf1).
  apply wp_bind. eapply wp_uses_buffer; [done|].
  rewrite (proj2 (N.leb_le 0 N) (N.le_0_l N)). cbn [negb].
  apply wp_bind, wp_ret. by apply kb_remove.
Qed.

Lemma alive_uninitialized_copy p src :
  forall i m, K m -> wp (uninitialized_copy src p i) (fun _ => K) K True m.
Proof.
  induction src as [|v src IH]; intros i m HK; simpl; [by apply wp_ret|].
  apply wp_bind, wp_try, wpp_construct_at. intros r Hr Hi.
  destruct (copy_construct v).
  - by apply IH, kb_log, kb_set_region.
  - apply wp_bind.
    apply (wp_for_up (fun _ => K)); [done| |].
    + intros k m' _ HK'. apply wpp_destroy_at. intros r' Hr'.
      by apply kb_log, kb_set_region.
    + intros m' HK'. by apply wp_throw.
Qed.

Lemma alive_swap_buffers a b m :
  K m -> wp (swap_buffers a b) (fun _ => K) (fun _ => False) True m.
Proof.
  intros HK. unfold swap_buffers.
  apply wp_bind, wpp_load. intros sva Ha.
  apply wp_bind, wpp_load. intros svb Hb.
  apply wp_bind. unfold wp at 1, store.
  apply wp_bind, wpp_load. intros svb' Hb'.
  unfold wp, store. by repeat apply kb_put.
Qed.

Lemma alive_ctor_move this other m :
  K m -> wp (ctor_move this other) (fun _ => K) K True m.
Proof.
  intros HK. unfold ctor_move.
  apply wp_bind, wpp_size. intros n cap p Hf.
  apply wp_bind, wpp_capacity. intros n' cap' p' Hf'.
  apply wp_bind, wp_init_members.
  apply wp_bind, wpp_uses_buffer. intros sz1 cap1 p1 Hf1.
  apply wp_bind.
  eapply (wp_mono _ (fun _ => K) _ (fun _ => False) _ True); [| |done|done].
  { destruct (sz1 <=? N).
    - by apply alive_swap_buffers, kb_put.
    - apply wp_bind, wpp_data. intros sz2 cap2 p2 Hf2.
      apply wpp_set_m_data. intros sz3 cap3 p3 Hf3.
      by apply kb_set_scalars, kb_put. }
  intros ? m2 HK2.
  apply wp_bind, wpp_set_m_data. intros sz3 cap3 p3 Hf3.
  apply wp_bind, wpp_set_m_size. intros sz4 cap4 p4 Hf4.
  apply wpp_set_m_capacity. intros sz5 cap5 p5 Hf5.
  by repeat apply kb_set_scalars.
Qed.

Lemma alive_swap a b m : K m -> wp (swap a b) (fun _ => K) K True m.
Proof.
  intros HK. unfold swap.
  apply wp_bind, wpp_uses_buffer. intros sza capa pa Hfa.
  apply wp_bind, wpp_uses_buffer. intros szb capb pb Hfb.
  apply wp_bind.
  eapply (wp_mono _ (fun _ => K) _ (fun _ => False) _ True); [| |done|done].
  { destruct (sza <=? N), (szb <=? N); cbn [andb].
    - by apply alive_swap_buffers.
    - apply wp_bind.
      eapply wp_mono; [by apply alive_swap_buffers| |done|done].
      intros ? m1 HK1. apply wp_bind, wpp_data. intros sz1 cap1 p1 Hf1.
      apply wp_bind, wpp_set_m_data. intros sz2 cap2 p2 Hf2.
      apply wpp_set_m_data. intros sz3 cap3 p3 Hf3.
      by repeat apply kb_set_scalars.
    - apply wp_bind.
      eapply wp_mono; [by apply alive_swap_buffers| |done|done].
      intros ? m1 HK1. apply wp_bind, wpp_data. intros sz1 cap1 p1 Hf1.
      apply wp_bind, wpp_set_m_data. intros sz2 cap2 p2 Hf2.
      apply wpp_set_m_data. intros sz3 cap3 p3 Hf3.
      by repeat apply kb_set_scalars.
    - apply wp_bind, wpp_data. intros sz1 cap1 p1 Hf1.
      apply wp_bind, wpp_data. intros sz2 cap2 p2 Hf2.
      apply wp_bind, wpp_set_m_data. intros sz3 cap3 p3 Hf3.
      apply wpp_set_m_data. intros sz4 cap4 p4 Hf4.
      by repeat apply kb_set_scalars. }
  intros ? m1 HK1.
  apply wp_bind, wpp_capacity. intros sz1 cap1 p1 Hf1.
  apply wp_bind, wpp_capacity. intros sz2 cap2 p2 Hf2.
  apply wp_bind, wpp_set_m_capacity. intros sz3 cap3 p3 Hf3.
  apply wp_bind, wpp_set_m_capacity. intros sz4 cap4 p4 Hf4.
  apply wp_bind, wpp_size. intros sz5 cap5 p5 Hf5.
  apply wp_bind, wpp_size. intros sz6 cap6 p6 Hf6.
  apply wp_bind, wpp_set_m_size. intros sz7 cap7 p7 Hf7.
  apply wpp_set_m_size. intros sz8 cap8 p8 Hf8.
  by repeat apply kb_set_scalars.
Qed.

Lemma alive_run_op o m : K m -> wp (run_op o) (fun _ => K) K True m.
Proof.
  intros HK. destruct o as [this|this init|this other|this|this c]; simpl.
  - (* default construction *)
    by apply wp_init_members, kb_put.
  - (* construction from a list *)
    unfold ctor_init_list. set (n := N.of_nat (length init)).
    pose proof (kb_next_block _ HK) as Hfresh.
    apply wp_bind.
    eapply (wp_mono _ (fun p m1 =>
      K m1 /\ (p = buffer this \/ p = heap_ptr (length (heap m)))) _ (fun _ => False)
      _ True); [| |done|done].
    { destruct (N <? n).
      - apply wp_operator_new. split; [by apply kb_log, kb_alloc|by right].
      - apply wp_ret. split; [done|by left]. }
    intros p m1 [HK1 Hp]. apply wp_bind, wp_init_members.
    set (m2 := put this _ m1).
    assert (fields m2 this = Some (n, n, p)) as Hf2 by (unfold m2; by obs).
    apply wp_bind, wp_try, wp_bind. eapply wp_data; [done|].
    eapply wp_mono;
      [apply wp_conj;
         [apply alive_uninitialized_copy; by apply kb_put
         |apply fields_uninitialized_copy]| | |done].
    + intros ? m3 [HK3 _]. by apply wp_ret.
    + intros m3 [HK3 Hf3]. apply wp_bind. eapply wp_data; [by rewrite Hf3|].
      apply wp_bind. destruct Hp as [->| ->].
      * rewrite bool_decide_false by (by intros []).
        apply wp_ret, wp_bind. by apply wp_throw, kb_remove.
      * rewrite bool_decide_true by done.
        apply wpp_operator_delete. intros b [= <-].
        apply wp_bind. by apply wp_throw, kb_remove, kb_log, kb_release.
  - (* copy construction *)
    unfold ctor_copy, ctor_default. apply wp_bind, wp_init_members.
    apply wp_bind, wp_try.
    eapply (wp_mono _ (fun _ => K) _ K); [| | |done].
    + apply wp_bind, wpp_size. intros sz cap p Hf.
      apply wp_bind, wpp_capacity. intros sz' cap' p' Hf'.
      apply wp_bind.
      eapply (wp_mono _ (fun _ => K) _ K); [| |done|done].
      * destruct (cap' <? sz); [by apply alive_reserve, kb_put|by apply wp_ret, kb_put].
      * intros ? m2 HK2. apply wp_bind, wpp_size. intros sz2 cap2 p2 Hf2.
        apply (wp_for_up (fun _ => K)); [done| |done].
        intros k m3 _ HK3. unfold subscript.
        apply wp_bind, wp_bind, wpp_data. intros sz3 cap3 p3 Hf3.
        apply wpp_read_at. intros v. unfold push_back. apply wp_bind.
        eapply wp_mono; [by apply alive_emplace_back| |done|done].
        intros ? m4 HK4. by apply wp_ret.
    + intros ? m2 HK2. by apply wp_ret.
    + intros m2 HK2. apply wp_bind.
      eapply wp_mono; [by apply alive_dtor| |done|done].
      intros ? m3 HK3. by apply wp_throw.
  - (* destruction *)
    by apply alive_dtor.
  - (* a mutating call *)
    by apply alive_exec.
Qed.

Lemma alive_run_api o m : K m -> wp (run_api o) (fun _ => K) K True m.
Proof.
  intros HK. destruct o as [o|this other|a b|a b|this y arg|this y arg]; simpl.
  - by apply alive_run_op.
  - by apply alive_ctor_move.
  - by apply alive_swap.
  - by apply alive_swap.
  - unfold assign_copy, operator_assign. apply wp_bind.
    eapply wp_mono; [by apply (alive_run_op (op_ctor_copy arg y))| |done|done].
    intros ? m1 HK1. apply wp_bind.
    eapply wp_mono; [by apply alive_swap| |done|done].
    intros ? m2 HK2. by apply alive_dtor.
  - unfold assign_move, operator_assign. apply wp_bind.
    eapply wp_mono; [by apply alive_ctor_move| |done|done].
    intros ? m1 HK1. apply wp_bind.
    eapply wp_mono; [by apply alive_swap| |done|done].
    intros ? m2 HK2. by apply alive_dtor.
Qed.

End alive.

(** X27.  No operation of the class gives back to the free store a block that
    was alive when the operation began, whether the operation returns
    or throws: the destructor, [reserve] and the parameter of an
    assignment leave the block of a heap-backed container allocated, and
    the only calls of [::operator delete] that run release a block the
    same operation allocated. *)
Theorem no_call_releases_a_live_block o m m' b r :
  run_api o m = Ok tt m' \/ run_api o m = Throw m' ->
  region m (heap_ptr b) = Some r ->
  exists r', region m' (heap_ptr b) = Some r'.
Proof.
  intros Hrun Hr.
  pose proof (alive_run_api m o m (kb_start m)) as H. unfold wp in H.
  assert (keeps_blocks m m') as [_ Hb].
  { destruct Hrun as [Hrun|Hrun]; by rewrite Hrun in H. }
  apply Hb. by exists r.
Qed.

(** ** The copy constructor: capacity and placement of the copy *)

(** X28.  The copy of a well-formed container whose element copies do not
    throw holds the same elements with capacity [max(N, size)]: in its
    own inline buffer when the size is at most [N], otherwise in one
    new block, the only allocation.  The source, the other containers
    and the regions alive before are unchanged. *)
Theorem ctor_copy_capacity c d vs capc pc m :
  holds m c vs capc pc ->
  fields m d = None ->
  Forall (fun v => copy_throws v = false) vs ->
  N < 2 ^ size_type_bits ->
  N.of_nat (length vs) * Npos sizeof < 2 ^ size_type_bits ->
  exists m' pd,
    ctor_copy d c m = Ok tt m' /\
    holds m' d vs (N.max N (N.of_nat (length vs))) pd /\
    pd = (if N.of_nat (length vs) <=? N then buffer d else heap_ptr (length (heap m))) /\
    (forall e, e <> d -> fields m' e = fields m e) /\
    (forall q r, q <> buffer d -> region m q = Some r -> region m' q = Some r).
Proof.
  intros Hc Hd Hnothrow HN Hbytes.
  destruct (wp_returns (ctor_copy d c) (fun _ m' => exists pd,
    holds m' d vs (N.max N (N.of_nat (length vs))) pd /\
    pd = (if N.of_nat (length vs) <=? N then buffer d else heap_ptr (length (heap m))) /\
    (forall e, e <> d -> fields m' e = fields m e) /\
    (forall q r, q <> buffer d -> region m q = Some r -> region m' q = Some r)) m)
    as ([] & m' & Hrun & pd & Hpost); [|by exists m', pd].
  eapply wp_ctor_copy_frame; [done..|]. intros m' pd ? ? ? ?. by exists pd.
Qed.

End small_vector.

Notation "x <~ f ;; k" := (bind f (fun x => k))
  (at level 100, f at next level, k at level 200, right associativity).
Notation "f ;;; k" := (bind f (fun _ => k))
  (at level 100, k at level 200, right associativity).

(** * [small_vector<int, 2>] on concrete inputs *)

Module Int2.

(** Two containers, at the addresses [a] and [b]; [N = 2],
    [sizeof(int) = 4]. *)
Abbreviation a := 0%nat.
Abbreviation b := 1%nat.
Abbreviation N := 2%N.
Abbreviation sizeof_int := 4%positive.

(** [int]: no constructor throws. *)
Abbreviation never := (fun _ : Z => false).

(** A constructor that throws when its source holds [7]. *)
Abbreviation on_seven := (fun v : Z => (v =? 7)%Z).

Local Abbreviation ctor_default := (ctor_default N).
Local Abbreviation ctor_init_list := (ctor_init_list N sizeof_int never).
Local Abbreviation ctor_move := (ctor_move N).
Local Abbreviation dtor := (dtor N).
Local Abbreviation uses_buffer := (uses_buffer N).
Local Abbreviation swap := (swap N).
Local Abbreviation reserve := (reserve N sizeof_int never).
Local Abbreviation reachable := (reachable N sizeof_int never never never).

(** C1, at a failing input.  [small_vector<int, 2> v; v.reserve(3);]
    leaves [v] empty in a heap block: [m_data] is not [buffer()], and
    [uses_buffer()] answers [true], because it compares [m_size] with
    [N]. *)
Example uses_buffer_after_reserve :
  (ctor_default a ;;;
   reserve a 3 ;;;
   ub <~ uses_buffer a ;;
   d <~ data a ;;
   ret (ub, d, bool_decide (d = buffer a))) empty_memory =
  Ok (true, heap_ptr 0, false)
     (mk_memory {[ a := mk_small_vector 0 3 (heap_ptr 0) [None; None] ]}
        [Some [None; None; None]]
        [ev_new 0 12]).
Proof. vm_compute. reflexivity. Qed.

(** C3, at a failing input.  [{ small_vector<int, 2> v{1, 2, 3}; }]: the
    destructor destroys the three elements and returns without a call
    of [operator delete]; block 0 stays allocated after the object is
    gone. *)
Example dtor_keeps_heap_block :
  (ctor_init_list a [1; 2; 3]%Z ;;; dtor a) empty_memory =
  Ok tt
     (mk_memory ∅
        [Some [None; None; None]]
        [ev_new 0 12;
         ev_construct (heap_ptr 0) 0; ev_construct (heap_ptr 0) 1;
         ev_construct (heap_ptr 0) 2;
         ev_destroy (heap_ptr 0) 0; ev_destroy (heap_ptr 0) 1;
         ev_destroy (heap_ptr 0) 2]).
Proof. vm_compute. reflexivity. Qed.

(** The same on the success path of [reserve]: the elements move from
    block 0 to block 1 and block 0 is never released. *)
Example reserve_keeps_old_block :
  (ctor_init_list a [1; 2; 3]%Z ;;; reserve a 5) empty_memory =
  Ok tt
     (mk_memory
        {[ a := mk_small_vector 3 5 (heap_ptr 1) [None; None] ]}
        [Some [None; None; None];
         Some [Some 1%Z; Some 2%Z; Some 3%Z; None; None]]
        [ev_new 0 12;
         ev_construct (heap_ptr 0) 0; ev_construct (heap_ptr 0) 1;
         ev_construct (heap_ptr 0) 2;
         ev_new 1 20;
         ev_construct (heap_ptr 1) 0; ev_construct (heap_ptr 1) 1;
         ev_construct (heap_ptr 1) 2;
         ev_destroy (heap_ptr 0) 0; ev_destroy (heap_ptr 0) 1;
         ev_destroy (heap_ptr 0) 2]).
Proof. vm_compute. reflexivity. Qed.

(** The two containers of the inputs for [swap] and the move
    constructor: [x{1}; x.reserve(3);], one element in a heap block,
    and [y{4, 5, 6}]. *)
Local Abbreviation one_in_heap this :=
  (ctor_init_list this [1]%Z ;;; reserve this 3).

(** C5, at a failing input.  Before the two swaps [x] holds [1] in
    block 0; after them its [m_data] is its own inline buffer, whose
    slots are raw, and reading [x[0]] is undefined. *)
Example swap_twice_loses_elements :
  (one_in_heap a ;;;
   ctor_init_list b [4; 5; 6]%Z ;;;
   before <~ load a ;;
   x0 <~ subscript a 0 ;;
   swap a b ;;;
   swap a b ;;;
   after <~ load a ;;
   ret (before, x0, after)) empty_memory =
  Ok (mk_small_vector 1 3 (heap_ptr 0) [None; None], 1%Z,
      mk_small_vector 1 3 (buffer_of a) [None; None])
     (mk_memory
        {[ a := mk_small_vector 1 3 (buffer_of a) [None; None];
           b := mk_small_vector 3 3 (heap_ptr 1) [None; None] ]}
        [Some [Some 1%Z; None; None]; Some [Some 4%Z; Some 5%Z; Some 6%Z]]
        [ev_construct (buffer_of a) 0; ev_new 0 12;
         ev_construct (heap_ptr 0) 0; ev_destroy (buffer_of a) 0;
         ev_new 1 12;
         ev_construct (heap_ptr 1) 0; ev_construct (heap_ptr 1) 1;
         ev_construct (heap_ptr 1) 2])
  /\
  (one_in_heap a ;;;
   ctor_init_list b [4; 5; 6]%Z ;;;
   swap a b ;;;
   swap a b ;;;
   subscript a 0) empty_memory = UB.
Proof. split; vm_compute; reflexivity. Qed.

(** C6, at a failing input.  Moving from [x] (heap-backed, one element)
    builds a container of size 1 and capacity 3 whose [m_data] is its own
    inline buffer: the pointer to block 0 is not transferred, and the
    target's first slot is raw storage. *)
Example move_drops_heap_block :
  (one_in_heap a ;;;
   ctor_move b a ;;;
   target <~ load b ;;
   source <~ load a ;;
   ret (target, source)) empty_memory =
  Ok (mk_small_vector 1 3 (buffer_of b) [None; None],
      mk_small_vector 0 2 (buffer_of a) [None; None])
     (mk_memory
        {[ a := mk_small_vector 0 2 (buffer_of a) [None; None];
           b := mk_small_vector 1 3 (buffer_of b) [None; None] ]}
        [Some [Some 1%Z; None; None]]
        [ev_construct (buffer_of a) 0; ev_new 0 12;
         ev_construct (heap_ptr 0) 0; ev_destroy (buffer_of a) 0])
  /\
  (one_in_heap a ;;; ctor_move b a ;;; subscript b 0) empty_memory = UB.
Proof. split; vm_compute; reflexivity. Qed.

(** [small_vector<int, 2> v{5};] *)
Local Abbreviation singleton :=
  (mk_memory {[ a := mk_small_vector 1 1 (buffer_of a) [Some 5%Z; None] ]}
     [] [ev_construct (buffer_of a) 0]).

Lemma singleton_reachable : reachable singleton.
Proof.
  apply (reachable_return _ _ _ _ _ (op_ctor_init_list a [5]%Z) empty_memory).
  - apply reachable_start.
  - vm_compute. reflexivity.
Defined.

(** C4 as stated fails: [small_vector<int, 2> v{5};] is in its inline
    buffer with capacity 1, and [N] is 2. *)
Example init_list_capacity_below_N :
  reachable singleton /\
  fields singleton a = Some (1, 1, buffer a) /\
  (1 =? N) = false.
Proof.
  split; [apply singleton_reachable|]. split; vm_compute; reflexivity.
Qed.

(** Why the amended C4 leaves [swap] out: after
    [x.reserve(3); x.swap(y);] on two empty containers, [y] is in its
    inline buffer with capacity 3. *)
Example swap_gives_buffer_a_heap_capacity :
  (ctor_default a ;;;
   reserve a 3 ;;;
   ctor_default b ;;;
   swap a b ;;;
   load b) empty_memory =
  Ok (mk_small_vector 0 3 (buffer_of b) [None; None])
     (mk_memory
        {[ a := mk_small_vector 0 2 (heap_ptr 0) [None; None];
           b := mk_small_vector 0 3 (buffer_of b) [None; None] ]}
        [Some [None; None; None]]
        [ev_new 0 12]).
Proof. vm_compute. reflexivity. Qed.

(** The amended C4 on [small_vector<int, 2> v{5};]. *)
Lemma buffer_capacity_at_most_N_witness :
  reachable singleton /\ fields singleton a = Some (1, 1, buffer a) /\ 1 <= N.
Proof.
  split; [apply singleton_reachable|]. split; [reflexivity|].
  apply (buffer_capacity_at_most_N N sizeof_int never never never singleton a 1 1 (buffer a)).
  - apply singleton_reachable.
  - reflexivity.
  - reflexivity.
Defined.

(** [small_vector<int, 2> v{1, 2};]: full, in the inline buffer. *)
Local Abbreviation full :=
  (mk_memory {[ a := mk_small_vector 2 2 (buffer_of a) [Some 1%Z; Some 2%Z] ]} [] []).

Lemma holds_full : holds full a [1; 2]%Z 2 (buffer_of a).
Proof.
  split_and!; [done|done|simpl; lia|].
  exists [Some 1%Z; Some 2%Z]. split_and!; [done|simpl; lia|done].
Defined.

Lemma full_may_grow :
  N.of_nat (length [1; 2]%Z) = 2 ->
  N.max 1 (2 * 2) * Npos sizeof_int < 2 ^ size_type_bits /\
  Forall (fun x => never x = false) [1; 2]%Z.
Proof. intros _. split; [done|]. by repeat constructor. Defined.

(** [v.push_back(3)] on the full container: growth to capacity 4 in
    block 0. *)
Lemma emplace_back_appends_witness :
  exists m' cap' p',
    emplace_back N sizeof_int never a (Some 3%Z) full =
      Ok (p', N.of_nat (length [1; 2]%Z)) m' /\
    (never 3%Z = false -> push_back N sizeof_int never never a 3%Z full = Ok tt m') /\
    holds m' a ([1; 2]%Z ++ [3%Z]) cap' p' /\
    (if decide (N.of_nat (length [1; 2]%Z) = 2)
     then cap' = N.max 1 (2 * 2) /\ p' = heap_ptr (length (heap full))
     else cap' = 2 /\ p' = buffer_of a).
Proof.
  exact (emplace_back_appends N sizeof_int never never a [1; 2]%Z 2 (buffer_of a) 3%Z full
           holds_full full_may_grow).
Defined.

(** The same call with a constructor that throws. *)
Lemma emplace_back_ctor_throws_witness :
  exists m' cap' p',
    emplace_back N sizeof_int never a None full = Throw m' /\
    (forall item, on_seven item = true ->
       push_back N sizeof_int on_seven never a item full = Throw m') /\
    holds m' a [1; 2]%Z cap' p' /\
    (if decide (N.of_nat (length [1; 2]%Z) = 2)
     then cap' = N.max 1 (2 * 2) /\ p' = heap_ptr (length (heap full))
     else cap' = 2 /\ p' = buffer_of a /\ m' = full).
Proof.
  exact (emplace_back_ctor_throws N sizeof_int on_seven never a [1; 2]%Z 2 (buffer_of a) full
           holds_full full_may_grow).
Defined.

(** [small_vector<int, 2> v{1, 2, 3};]: three elements in block 0. *)
Lemma ctor_init_list_spec_witness :
  (exists m' p,
     ctor_init_list a [1; 2; 3]%Z empty_memory = Ok tt m' /\
     holds m' a [1; 2; 3]%Z (N.of_nat (length [1; 2; 3]%Z)) p /\
     if decide (N < N.of_nat (length [1; 2; 3]%Z))
     then p = heap_ptr (length (heap (@empty_memory Z))) /\
          region m' p = Some (Some <$> [1; 2; 3]%Z) /\
          length (heap m') = S (length (heap (@empty_memory Z))) /\
          trace m' =
            trace (@empty_memory Z) ++
            ev_new (length (heap (@empty_memory Z)))
              (N.of_nat (length [1; 2; 3]%Z) * Npos sizeof_int) ::
            construct_events p 0 (length [1; 2; 3]%Z)
     else p = buffer_of a /\
          length (heap m') = length (heap (@empty_memory Z)) /\
          trace m' =
            trace (@empty_memory Z) ++ construct_events p 0 (length [1; 2; 3]%Z)).
Proof.
  apply (ctor_init_list_spec N sizeof_int never a [1; 2; 3]%Z empty_memory).
  - by repeat constructor.
  - done.
Defined.

(** [small_vector<int, 2> w(v);] for the full [v]. *)
Lemma copy_is_independent_witness :
  exists m' capd pd,
    ctor_copy N sizeof_int never never b a full = Ok tt m' /\
    holds m' b [1; 2]%Z capd pd /\ holds m' a [1; 2]%Z 2 (buffer_of a) /\
    pd <> buffer_of a /\
    (forall i v, [1; 2]%Z !! i = Some v ->
       subscript b (N.of_nat i) m' = Ok v m' /\ subscript a (N.of_nat i) m' = Ok v m') /\
    (forall calls m'', runs N sizeof_int never never never b m' calls m'' ->
       fields m'' a = fields m' a /\ region m'' (buffer_of a) = region m' (buffer_of a)) /\
    (forall calls m'', runs N sizeof_int never never never a m' calls m'' ->
       fields m'' b = fields m' b /\ region m'' pd = region m' pd).
Proof.
  apply (copy_is_independent N sizeof_int never never never a b [1; 2]%Z 2 (buffer_of a) full).
  - apply holds_full.
  - reflexivity.
  - by repeat constructor.
  - reflexivity.
  - reflexivity.
Defined.

End Int2.

(** * An element type whose transfers may throw *)

Module Fragile2.

Import Int2.

(** The element type is built from an [int] ([Some v]: the constructor
    returns; [None]: it throws), and the constructor
    [std::move_if_noexcept] chooses for it throws when the source holds
    [7]. *)
Local Abbreviation ctor_default := (ctor_default N).
Local Abbreviation emplace_back := (emplace_back N sizeof_int on_seven).
Local Abbreviation reserve := (reserve N sizeof_int on_seven).

(** C2, at a failing input.  [v.emplace_back(7); v.reserve(3);]: the
    transfer of the one element throws.  The handler's loop does not run
    for [i == 0], so [reserve] returns normally: the exception is
    swallowed, block 0 is adopted, the element is destroyed and the size
    is 0. *)
Example reserve_swallows_first_failure :
  (ctor_default a ;;; emplace_back a (Some 7%Z) ;;; reserve a 3) empty_memory =
  Ok tt
     (mk_memory
        {[ a := mk_small_vector 0 3 (heap_ptr 0) [None; None] ]}
        [Some [None; None; None]]
        [ev_construct (buffer_of a) 0; ev_new 0 12; ev_destroy (buffer_of a) 0]).
Proof. vm_compute. reflexivity. Qed.

(** [v] holds [1, 2, 7] in block 0 and [v.reserve(5)] fails on the third
    transfer: the handler destroys the second element of the new
    block, releases the block and rethrows.  The first element of the
    new block is never destroyed; the container is as before the call. *)
Example reserve_destroys_one_element :
  (ctor_default a ;;;
   emplace_back a (Some 1%Z) ;;;
   emplace_back a (Some 2%Z) ;;;
   emplace_back a (Some 7%Z) ;;;
   reserve a 5) empty_memory =
  Throw
     (mk_memory
        {[ a := mk_small_vector 3 4 (heap_ptr 0) [None; None] ]}
        [Some [Some 1%Z; Some 2%Z; Some 7%Z; None]; None]
        [ev_construct (buffer_of a) 0; ev_construct (buffer_of a) 1;
         ev_new 0 16;
         ev_construct (heap_ptr 0) 0; ev_construct (heap_ptr 0) 1;
         ev_destroy (buffer_of a) 0; ev_destroy (buffer_of a) 1;
         ev_construct (heap_ptr 0) 2;
         ev_new 1 20;
         ev_construct (heap_ptr 1) 0; ev_construct (heap_ptr 1) 1;
         ev_destroy (heap_ptr 1) 1;
         ev_delete 1]).
Proof. vm_compute. reflexivity. Qed.

(** C8, at a failing input.  [v.emplace_back(7); v.emplace_back(1);
    v.emplace_back(3);] on [small_vector<E, 2>]: the third call finds
    the container full and grows it; the transfer of the first element
    throws, [reserve] takes the failure for a success and returns with
    size 0, and the new element is built at index 0.  The call returns
    a reference to index 0, where the claim has index 2, and the
    container holds [3] alone, with size 1, where the claim has size 3. *)
Example emplace_back_loses_old_elements :
  (ctor_default a ;;;
   emplace_back a (Some 7%Z) ;;;
   emplace_back a (Some 1%Z) ;;;
   emplace_back a (Some 3%Z)) empty_memory =
  Ok (heap_ptr 0, 0)
     (mk_memory
        {[ a := mk_small_vector 1 4 (heap_ptr 0) [None; None] ]}
        [Some [Some 3%Z; None; None; None]]
        [ev_construct (buffer_of a) 0; ev_construct (buffer_of a) 1;
         ev_new 0 16;
         ev_destroy (buffer_of a) 0; ev_destroy (buffer_of a) 1;
         ev_construct (heap_ptr 0) 0]).
Proof. vm_compute. reflexivity. Qed.

(** C10, at a failing input.  The same container, and a third
    [emplace_back] whose element constructor throws: the growth step has
    returned, after swallowing the failed transfer, with size 0 and the
    two old elements destroyed; the exception of the constructor then
    leaves the call.  The size went from 2 to 0 and the elements are
    gone, where the claim has the size unchanged and the elements
    kept. *)
Example emplace_back_throw_loses_old_elements :
  (ctor_default a ;;;
   emplace_back a (Some 7%Z) ;;;
   emplace_back a (Some 1%Z) ;;;
   emplace_back a None) empty_memory =
  Throw
     (mk_memory
        {[ a := mk_small_vector 0 4 (heap_ptr 0) [None; None] ]}
        [Some [None; None; None; None]]
        [ev_construct (buffer_of a) 0; ev_construct (buffer_of a) 1;
         ev_new 0 16;
         ev_destroy (buffer_of a) 0; ev_destroy (buffer_of a) 1]).
Proof. vm_compute. reflexivity. Qed.

End Fragile2.

(** * More calls on [small_vector<int, 2>] *)

Module Int2Calls.
Import Int2.

(** The address of the parameter object of an assignment. *)
Abbreviation c := 2%nat.

(** [v{1, 2}] in its inline buffer. *)
Local Abbreviation full :=
  (mk_memory {[ a := mk_small_vector 2 2 (buffer_of a) [Some 1%Z; Some 2%Z] ]} [] []).

(** [v{1, 7}] and [v{7, 1}] in the inline buffer, for an element type
    whose constructors throw on [7]. *)
Local Abbreviation fragile :=
  (mk_memory {[ a := mk_small_vector 2 2 (buffer_of a) [Some 1%Z; Some 7%Z] ]} [] []).
Local Abbreviation fragile0 :=
  (mk_memory {[ a := mk_small_vector 2 2 (buffer_of a) [Some 7%Z; Some 1%Z] ]} [] []).

(** [x{1, 2}] in its inline buffer and [y{4, 5, 6}] in block 0. *)
Local Abbreviation pair :=
  (mk_memory
     {[ a := mk_small_vector 2 2 (buffer_of a) [Some 1%Z; Some 2%Z];
        b := mk_small_vector 3 3 (heap_ptr 0) [None; None] ]}
     [Some [Some 4%Z; Some 5%Z; Some 6%Z]] []).

(** [x{5}; y; x.swap(y);] *)
Local Abbreviation swapped_pair :=
  (mk_memory
     {[ a := mk_small_vector 0 2 (buffer_of a) [None; None];
        b := mk_small_vector 1 1 (buffer_of b) [Some 5%Z; None] ]}
     [] [ev_construct (buffer_of a) 0]).

Lemma holds_fragile : holds fragile a [1; 7]%Z 2 (buffer_of a).
Proof.
  split_and!; [done|done|simpl; lia|].
  exists [Some 1%Z; Some 7%Z]. split_and!; [done|simpl; lia|done].
Defined.

Lemma holds_fragile0 : holds fragile0 a [7; 1]%Z 2 (buffer_of a).
Proof.
  split_and!; [done|done|simpl; lia|].
  exists [Some 7%Z; Some 1%Z]. split_and!; [done|simpl; lia|done].
Defined.

Lemma holds_pair_a : holds pair a [1; 2]%Z 2 (buffer_of a).
Proof.
  split_and!; [done|done|simpl; lia|].
  exists [Some 1%Z; Some 2%Z]. split_and!; [done|simpl; lia|done].
Defined.

Lemma holds_pair_b : holds pair b [4; 5; 6]%Z 3 (heap_ptr 0).
Proof.
  split_and!; [done|done|simpl; lia|].
  exists [Some 4%Z; Some 5%Z; Some 6%Z]. split_and!; [done|simpl; lia|done].
Defined.

Lemma placed_pair_a : placed N a (N.of_nat (length [1; 2]%Z)) (buffer_of a).
Proof. reflexivity. Defined.

Lemma placed_pair_b : placed N b (N.of_nat (length [4; 5; 6]%Z)) (heap_ptr 0).
Proof. by exists 0%nat. Defined.

Lemma swapped_pair_reachable :
  reachable_api N sizeof_int never never never swapped_pair.
Proof.
  eapply (reachable_api_return _ _ _ _ _ (api_swap a b)).
  - eapply (reachable_api_return _ _ _ _ _ (api_op (op_ctor_default b))).
    + eapply (reachable_api_return _ _ _ _ _ (api_op (op_ctor_init_list a [5]%Z))).
      * apply reachable_api_start.
      * vm_compute. reflexivity.
    + vm_compute. reflexivity.
  - vm_compute. reflexivity.
Defined.

(** [v[1] = 9;] *)
Lemma subscript_assign_updates_witness :
  exists m',
    subscript_assign a 1 9%Z full = Ok tt m' /\
    holds m' a [1; 9]%Z 2 (buffer_of a) /\
    subscript a 1 m' = Ok 9%Z m'.
Proof.
  destruct (subscript_assign_updates a [1; 2]%Z 2 (buffer_of a) 1%nat 9%Z full)
    as (m' & H1 & H2 & H3 & _); [apply holds_full|simpl; lia|].
  exists m'. split_and!; [exact H1|exact H2|exact H3].
Defined.

(** [v.clear();] *)
Lemma clear_destroys_all_witness :
  exists m',
    clear a full = Ok tt m' /\
    holds m' a [] 2 (buffer_of a) /\
    trace m' = [ev_destroy (buffer_of a) 0; ev_destroy (buffer_of a) 1].
Proof.
  destruct (clear_destroys_all a [1; 2]%Z 2 (buffer_of a) full)
    as (m' & H1 & H2 & _ & _ & _ & H3); [apply holds_full|].
  exists m'. split_and!; [exact H1|exact H2|exact H3].
Defined.

(** [v.reserve(5);] *)
Lemma reserve_keeps_elements_witness :
  exists m' p',
    reserve N sizeof_int never a 5 full = Ok tt m' /\
    holds m' a [1; 2]%Z 5 p'.
Proof.
  destruct (reserve_keeps_elements N sizeof_int never a [1; 2]%Z 2 (buffer_of a) 5 full)
    as (m' & p' & H1 & H2 & _).
  - apply holds_full.
  - intros _. split; [done|]. by repeat constructor.
  - exists m', p'. split; [exact H1|exact H2].
Defined.

(** [v.reserve(5);] when the transfer of the second element throws. *)
Lemma reserve_transfer_throws_witness :
  exists m',
    reserve N sizeof_int on_seven a 5 fragile = Throw m' /\
    holds m' a [1; 7]%Z 2 (buffer_of a) /\
    region m' (heap_ptr 0) = None.
Proof.
  destruct (reserve_transfer_throws N sizeof_int on_seven a [1]%Z 7%Z [] 2 (buffer_of a) 5
              fragile) as (m' & H1 & H2 & _ & _ & H3 & _).
  - apply holds_fragile.
  - done.
  - done.
  - done.
  - by repeat constructor.
  - reflexivity.
  - exists m'. split_and!; [exact H1|exact H2|exact H3].
Defined.

(** [v.reserve(5);] when the transfer of the first element throws. *)
Lemma reserve_swallows_failure_at_0_witness :
  exists m',
    reserve N sizeof_int on_seven a 5 fragile0 = Ok tt m' /\
    holds m' a [] 5 (heap_ptr 0).
Proof.
  apply (reserve_swallows_failure_at_0 N sizeof_int on_seven a 7%Z [1]%Z 2 (buffer_of a) 5
           fragile0).
  - apply holds_fragile0.
  - done.
  - done.
  - reflexivity.
Defined.

(** [v.resize(1);] *)
Lemma resize_shrinks_witness :
  exists m',
    resize N sizeof_int never never a 1 0%Z full = Ok tt m' /\
    holds m' a [1]%Z 2 (buffer_of a).
Proof.
  destruct (resize_shrinks N sizeof_int never never a [1; 2]%Z 2 (buffer_of a) 1 0%Z full)
    as (m' & H1 & H2 & _); [apply holds_full|simpl; lia|].
  exists m'. split; [exact H1|exact H2].
Defined.

(** [v.resize(4);] *)
Lemma resize_grows_witness :
  exists m' p',
    resize N sizeof_int never never a 4 0%Z full = Ok tt m' /\
    holds m' a [1; 2; 0; 0]%Z 4 p'.
Proof.
  destruct (resize_grows N sizeof_int never never a [1; 2]%Z 2 (buffer_of a) 4 0%Z full)
    as (m' & p' & H1 & H2 & _).
  - apply holds_full.
  - simpl. lia.
  - reflexivity.
  - intros _. split; [done|]. by repeat constructor.
  - exists m', p'. split; [exact H1|exact H2].
Defined.

(** [v.resize(1); v.resize(2, 9);] *)
Lemma resize_shrink_then_grow_witness :
  exists m',
    (resize N sizeof_int never never a 1 0%Z ;;;
     resize N sizeof_int never never a 2 9%Z) full = Ok tt m' /\
    holds m' a [1; 9]%Z 2 (buffer_of a).
Proof.
  destruct (resize_shrink_then_grow N sizeof_int never never a [1; 2]%Z 2 (buffer_of a)
              1%nat 0%Z 9%Z full) as (m' & H1 & H2 & _).
  - apply holds_full.
  - simpl. lia.
  - reflexivity.
  - exists m'. split; [exact H1|exact H2].
Defined.

(** [v.push_back(3); v.push_back(4); v.push_back(5);] *)
Lemma push_all_appends_witness :
  exists m' cap' p',
    push_all N sizeof_int never never a [3; 4; 5]%Z full = Ok tt m' /\
    holds m' a [1; 2; 3; 4; 5]%Z cap' p' /\
    cap' < 10.
Proof.
  destruct (push_all_appends N sizeof_int never never a [3; 4; 5]%Z [1; 2]%Z 2 (buffer_of a)
              full) as (m' & cap' & p' & H1 & H2 & H3 & _).
  - apply holds_full.
  - by repeat constructor.
  - intros _. split; [done|]. by repeat constructor.
  - exists m', cap', p'. split_and!; [exact H1|exact H2|].
    destruct (decide _) as [Hle|_] in H3; [simpl in Hle; lia|]. apply H3.
Defined.

(** [small_vector<int, 2> v; v.push_back(1); v.push_back(2);] *)
Lemma fresh_container_stays_inline_witness :
  exists m0 m',
    ctor_default N a (@empty_memory Z) = Ok tt m0 /\
    push_all N sizeof_int never never a [1; 2]%Z m0 = Ok tt m' /\
    holds m' a [1; 2]%Z 2 (buffer_of a) /\
    length (heap m') = 0%nat.
Proof.
  destruct (fresh_container_stays_inline N sizeof_int never never a [1; 2]%Z empty_memory)
    as (m0 & m' & H1 & _ & H2 & H3 & H4 & _).
  - done.
  - simpl. lia.
  - by repeat constructor.
  - exists m0, m'. split_and!; [exact H1|exact H2|exact H3|exact H4].
Defined.

(** [v.push_back(3);] on the full [v{7, 1}] whose first element cannot
    be transferred. *)
Lemma emplace_back_drops_elements_witness :
  exists m',
    emplace_back N sizeof_int on_seven a (Some 3%Z) fragile0 = Ok (heap_ptr 0, 0) m' /\
    holds m' a [3]%Z 4 (heap_ptr 0).
Proof.
  destruct (emplace_back_drops_elements N sizeof_int on_seven a 7%Z [1]%Z 2 (buffer_of a)
              3%Z fragile0) as (m' & H1 & H2 & _).
  - apply holds_fragile0.
  - reflexivity.
  - done.
  - reflexivity.
  - exists m'. split; [exact H1|exact H2].
Defined.

(** [v.push_back(3);] on the full [v{1, 7}] whose second element cannot
    be transferred. *)
Lemma emplace_back_growth_throws_witness :
  exists m',
    emplace_back N sizeof_int on_seven a (Some 3%Z) fragile = Throw m' /\
    holds m' a [1; 7]%Z 2 (buffer_of a).
Proof.
  destruct (emplace_back_growth_throws N sizeof_int on_seven a [1]%Z 7%Z [] 2 (buffer_of a)
              (Some 3%Z) fragile) as (m' & H1 & H2 & _).
  - apply holds_fragile.
  - reflexivity.
  - done.
  - done.
  - by repeat constructor.
  - reflexivity.
  - exists m'. split; [exact H1|exact H2].
Defined.

(** [small_vector<int, 2> v{1, 7, 2};] when copying [7] throws. *)
Lemma ctor_init_list_throws_witness :
  exists m',
    ctor_init_list N sizeof_int on_seven a [1; 7; 2]%Z (@empty_memory Z) = Throw m' /\
    fields m' a = None /\
    region m' (heap_ptr 0) = None.
Proof.
  destruct (ctor_init_list_throws N sizeof_int on_seven a [1]%Z 7%Z [2]%Z empty_memory)
    as (m' & H1 & H2 & _ & _ & H3 & _).
  - by repeat constructor.
  - reflexivity.
  - done.
  - exists m'. split_and!; [exact H1|exact H2|exact H3].
Defined.


(** The end of the scope of the heap-backed [y{4, 5, 6}]. *)
Lemma dtor_destroys_elements_witness :
  exists m',
    dtor N b pair = Ok tt m' /\
    fields m' b = None /\
    (exists r', region m' (heap_ptr 0) = Some r') /\
    trace m' =
      [ev_destroy (heap_ptr 0) 0; ev_destroy (heap_ptr 0) 1; ev_destroy (heap_ptr 0) 2].
Proof.
  destruct (dtor_destroys_elements N b [4; 5; 6]%Z 3 (heap_ptr 0) pair)
    as (m' & H1 & H2 & _ & _ & H3 & H4); [apply holds_pair_b|].
  exists m'. split_and!; [exact H1|exact H2|by apply H3|exact H4].
Defined.

(** [x.swap(y)] and [y.swap(x)] *)
Lemma swap_is_symmetric_witness :
  swap N a b pair = swap N b a pair.
Proof.
  destruct (swap_is_symmetric N a b pair) as (H1 & _); [by eexists|by eexists|done|].
  exact H1.
Defined.

(** [v.swap(v);] *)
Lemma swap_with_itself_witness :
  swap N a a full = Ok tt full.
Proof.
  destruct (swap_with_itself N a full) as (H1 & _); [by eexists|]. exact H1.
Defined.

(** [x.swap(y);] *)
Lemma swap_exchanges_size_and_capacity_witness :
  exists m' pa' pb',
    swap N a b pair = Ok tt m' /\
    fields m' a = Some (3, 3, pa') /\
    fields m' b = Some (2, 2, pb').
Proof.
  apply (swap_exchanges_size_and_capacity N a b 2 2 (buffer_of a) 3 3 (heap_ptr 0) pair).
  - reflexivity.
  - reflexivity.
  - done.
Defined.

(** [x.swap(y); x.swap(y);] *)
Lemma swap_twice_restores_witness :
  (swap N a b ;;; swap N a b) pair = Ok tt pair.
Proof.
  apply (swap_twice_restores N a b
           (mk_small_vector 2 2 (buffer_of a) [Some 1%Z; Some 2%Z])
           (mk_small_vector 3 3 (heap_ptr 0) [None; None]) pair).
  - reflexivity.
  - reflexivity.
  - done.
  - reflexivity.
  - reflexivity.
Defined.

(** [x.swap(y);]: the elements trade places. *)
Lemma swap_exchanges_contents_witness :
  exists m' pa' pb',
    swap N a b pair = Ok tt m' /\
    holds m' a [4; 5; 6]%Z 3 pa' /\
    holds m' b [1; 2]%Z 2 pb'.
Proof.
  destruct (swap_exchanges_contents N a b [1; 2]%Z [4; 5; 6]%Z 2 3 (buffer_of a) (heap_ptr 0)
              pair) as (m' & pa' & pb' & H1 & H2 & H3 & _).
  - apply holds_pair_a.
  - apply holds_pair_b.
  - done.
  - done.
  - apply placed_pair_a.
  - apply placed_pair_b.
  - exists m', pa', pb'. split_and!; [exact H1|exact H2|exact H3].
Defined.

(** [small_vector<int, 2> z(std::move(y));] *)
Lemma ctor_move_resets_source_witness :
  exists m',
    ctor_move N c b pair = Ok tt m' /\
    fields m' b = Some (0, 2, buffer_of b) /\
    fields m' c = Some (3, 3, heap_ptr 0).
Proof.
  apply (ctor_move_resets_source N c b 3 3 (heap_ptr 0) pair).
  - reflexivity.
  - done.
Defined.

(** The same move: [z] holds the elements, in block 0. *)
Lemma ctor_move_takes_over_witness :
  exists m' pd,
    ctor_move N c b pair = Ok tt m' /\
    holds m' c [4; 5; 6]%Z 3 pd /\
    pd = heap_ptr 0 /\
    trace m' = [].
Proof.
  destruct (ctor_move_takes_over N c b [4; 5; 6]%Z 3 (heap_ptr 0) pair)
    as (m' & pd & H1 & H2 & H3 & _ & _ & _ & _ & H4).
  - apply holds_pair_b.
  - apply placed_pair_b.
  - reflexivity.
  - exists m', pd. split_and!; [exact H1|exact H2|exact H3|exact H4].
Defined.

(** [x = y;] *)
Lemma assign_copy_spec_witness :
  exists m' p',
    assign_copy N sizeof_int never never a b c pair = Ok tt m' /\
    holds m' a [4; 5; 6]%Z 3 p' /\
    holds m' b [4; 5; 6]%Z 3 (heap_ptr 0) /\
    fields m' c = None.
Proof.
  destruct (assign_copy_spec N sizeof_int never never a b c [1; 2]%Z [4; 5; 6]%Z 2 3
              (buffer_of a) (heap_ptr 0) pair) as (m' & p' & H1 & H2 & _ & H3 & H4).
  - apply holds_pair_a.
  - apply holds_pair_b.
  - apply placed_pair_a.
  - apply placed_pair_b.
  - done.
  - reflexivity.
  - by repeat constructor.
  - done.
  - done.
  - exists m', p'. split_and!; [exact H1|exact H2|by apply H3|exact H4].
Defined.

(** [x = std::move(y);] *)
Lemma assign_move_spec_witness :
  exists m',
    assign_move N a b c pair = Ok tt m' /\
    holds m' a [4; 5; 6]%Z 3 (heap_ptr 0) /\
    fields m' b = Some (0, 2, buffer_of b) /\
    trace m' = [ev_destroy (buffer_of c) 0; ev_destroy (buffer_of c) 1].
Proof.
  destruct (assign_move_spec N a b c [1; 2]%Z [4; 5; 6]%Z 2 3 (buffer_of a) (heap_ptr 0)
              pair) as (m' & p' & H1 & H2 & H3 & H4 & _ & H5).
  - apply holds_pair_a.
  - apply holds_pair_b.
  - apply placed_pair_a.
  - apply placed_pair_b.
  - done.
  - done.
  - reflexivity.
  - exists m'. split_and!; [exact H1|by rewrite H3 in H2|exact H4|exact H5].
Defined.

(** [x{5}; y; x.swap(y);]: the sizes are within the capacities. *)
Lemma size_never_exceeds_capacity_witness :
  fields swapped_pair b = Some (1, 1, buffer_of b) /\ 1 <= 1.
Proof.
  split; [reflexivity|].
  apply (size_never_exceeds_capacity N sizeof_int never never never swapped_pair b 1 1
           (buffer_of b)).
  - apply swapped_pair_reachable.
  - reflexivity.
  - done.
Defined.

(** The end of the scope of the heap-backed [y{4, 5, 6}]: block 0 stays. *)
Lemma no_call_releases_a_live_block_witness :
  exists m',
    run_api N sizeof_int never never never (api_op (op_dtor b)) pair = Ok tt m' /\
    exists r', region m' (heap_ptr 0) = Some r'.
Proof.
  eexists. split; [vm_compute; reflexivity|].
  eapply (no_call_releases_a_live_block N sizeof_int never never never
            (api_op (op_dtor b)) pair _ 0%nat).
  - left. vm_compute. reflexivity.
  - reflexivity.
Defined.

(** [small_vector<int, 2> z(y);] for the heap-backed [y{4, 5, 6}]. *)
Lemma ctor_copy_capacity_witness :
  exists m' pd,
    ctor_copy N sizeof_int never never c b pair = Ok tt m' /\
    holds m' c [4; 5; 6]%Z 3 pd /\
    pd = heap_ptr 1.
Proof.
  destruct (ctor_copy_capacity N sizeof_int never never b c [4; 5; 6]%Z 3 (heap_ptr 0) pair)
    as (m' & pd & H1 & H2 & H3 & _).
  - apply holds_pair_b.
  - reflexivity.
  - by repeat constructor.
  - done.
  - done.
  - exists m', pd. split_and!; [exact H1|exact H2|exact H3].
Defined.

End Int2Calls.
